(** * flare-emu: path-guided emulation engine

    A shallow embedding of the parts of [flare_emu.py] that manage the
    emulator's memory (allocEmuMem, _findUnusedMemRegion, the allocation and
    copy shims, the invalid-memory hook), normalise call-target names
    (_handleApiHooks), explore the control-flow graph (_explore, getPaths,
    getPath) and drive the target loop (iterate, stopEmulation).

    The Unicorn engine and the IDA database are collaborators of the program:
    the engine is embedded as an explicit state (region table, byte contents,
    registers) with the contract of its [mem_map], [mem_read] and [mem_write]
    calls; the database is a record of the queries the code makes. *)

From Stdlib Require Import ZArith Lia List Bool Ascii String.
From stdpp Require Import base option list gmap.

Local Open Scope Z_scope.

(** ** Module constants *)

Definition PAGESIZE : Z := 0x1000.
Definition PAGEALIGNCHECK : Z := 0xfff.
Definition MAX_ALLOC_SIZE : Z := 10 * 1024 * 1024.

(** ** The emulator state

    [uc.mem_regions()] yields [(begin, end)] pairs whose [end] is the address
    of the last byte of the region (inclusive), which is why the source
    computes a region's size as [region[1] - region[0] + 1]. *)

Record Uc : Type := mkUc {
  mem_regions : list (Z * Z);
  mem_bytes : Z -> Z;
  reg_pc : Z;
  reg_sp : Z;
  reg_ret : Z
}.

(** The helper object: the engine, the [allocMap] dictionary of the
    VirtualAlloc shims and the pointer size chosen by [initEmuHelper]. *)
Record EmuHelper : Type := mkEmu {
  uc : Uc;
  allocMap : gmap Z (Z * Z);
  size_pointer : Z;
  pageMask : Z
}.

(** What the code asks of the IDA database about segments. *)
Record Idb : Type := mkIdb {
  Segments : list Z;
  get_segm_end : Z -> Z
}.

(** ** A state-and-exception monad for the helper's methods

    A Python exception leaves the state as it was when it was raised. *)

Inductive result (A : Type) : Type :=
| Ok (a : A)
| Exc.
Arguments Ok {A} a.
Arguments Exc {A}.

Definition M (A : Type) : Type := EmuHelper -> result A * EmuHelper.

Definition mret {A} (a : A) : M A := fun s => (Ok a, s).
Definition raise {A} : M A := fun s => (Exc, s).
Definition mbind {A B} (m : M A) (k : A -> M B) : M B :=
  fun s => match m s with
           | (Ok a, s') => k a s'
           | (Exc, s') => (Exc, s')
           end.
(** [try: body except Exception: handler] *)
Definition try_except {A} (body : M A) (handler : M A) : M A :=
  fun s => match body s with
           | (Ok a, s') => (Ok a, s')
           | (Exc, s') => handler s'
           end.
Definition get_uc : M Uc := fun s => (Ok (uc s), s).
Definition put_uc (u : Uc) : M unit :=
  fun s => (Ok tt, mkEmu u (allocMap s) (size_pointer s) (pageMask s)).
Definition get_self : M EmuHelper := fun s => (Ok s, s).

Notation "'do' x <- m ; k" := (mbind m (fun x => k))
  (at level 60, x name, m at next level, right associativity).
Notation "'do' ' pat <- m ; k" := (mbind m (fun x => match x with pat => k end))
  (at level 60, pat pattern, m at next level, right associativity).
Notation "'run' m ; k" := (mbind m (fun _ => k))
  (at level 60, m at next level, right associativity).

(** ** Engine calls *)

Definition in_region (a : Z) (r : Z * Z) : bool := (r.1 <=? a) && (a <=? r.2).

(** Does the block [[address, address+size)] meet region [r]? *)
Definition meets (address size : Z) (r : Z * Z) : bool :=
  (address <=? r.2) && (r.1 <? address + size) && (0 <? size).

(** [uc.mem_map(address, size)]: the engine addresses 64 bits.  It refuses
    (the binding raises UcError) a zero size, an address or size that is not
    a multiple of the 4 KiB page, a block that does not lie within
    [[0, 2^64)] (one that would run past the end of the address space), and
    a block that meets an existing mapping; otherwise the block is appended
    to the region table, zero-filled. *)
Definition uc_mem_map (address size : Z) (u : Uc) : option Uc :=
  if (0 <? size) && (0 <=? address) && (address + size <=? 2 ^ 64)
     && (address mod PAGESIZE =? 0) && (size mod PAGESIZE =? 0)
     && negb (existsb (meets address size) (mem_regions u))
  then Some (mkUc (mem_regions u ++ [(address, address + size - 1)])
                  (fun a => if (address <=? a) && (a <? address + size)
                            then 0 else mem_bytes u a)
                  (reg_pc u) (reg_sp u) (reg_ret u))
  else None.

(** Is every byte of [[a, e)] mapped?  The walk hops from region to region,
    as the engine does when an access spans adjacent mappings. *)
Fixpoint covered (fuel : nat) (rs : list (Z * Z)) (a e : Z) : bool :=
  if e <=? a then true
  else match fuel with
       | O => false
       | S fuel' =>
           match find (in_region a) rs with
           | Some r => covered fuel' rs (r.2 + 1) e
           | None => false
           end
       end.

Definition range_mapped (u : Uc) (address size : Z) : bool :=
  covered (length (mem_regions u)) (mem_regions u) address (address + size).

Definition seqZ' (a : Z) (n : nat) : list Z := map (fun i => a + Z.of_nat i) (seq 0 n).

(** [uc.mem_read(address, size)]: raises when part of the block is unmapped. *)
Definition uc_mem_read (address size : Z) (u : Uc) : option (list Z) :=
  if range_mapped u address size
  then Some (map (mem_bytes u) (seqZ' address (Z.to_nat size)))
  else None.

Fixpoint store_bytes (address : Z) (data : list Z) (m : Z -> Z) : Z -> Z :=
  match data with
  | [] => m
  | b :: data' => store_bytes (address + 1) data' (fun a => if a =? address then b else m a)
  end.

(** [uc.mem_write(address, data)]: nothing is written unless the whole block
    is mapped. *)
Definition uc_mem_write (address : Z) (data : list Z) (u : Uc) : option Uc :=
  if range_mapped u address (Z.of_nat (length data))
  then Some (mkUc (mem_regions u) (store_bytes address data (mem_bytes u))
                  (reg_pc u) (reg_sp u) (reg_ret u))
  else None.

Definition lift_uc (f : Uc -> option Uc) : M unit :=
  fun s => match f (uc s) with
           | Some u => (Ok tt, mkEmu u (allocMap s) (size_pointer s) (pageMask s))
           | None => (Exc, s)
           end.

Definition mem_map (address size : Z) : M unit := lift_uc (uc_mem_map address size).
Definition mem_write (address : Z) (data : list Z) : M unit := lift_uc (uc_mem_write address data).
Definition mem_read (address size : Z) : M (list Z) :=
  fun s => match uc_mem_read address size (uc s) with
           | Some d => (Ok d, s)
           | None => (Exc, s)
           end.
Definition reg_write_ret (v : Z) : M unit :=
  fun s => let u := uc s in
           (Ok tt, mkEmu (mkUc (mem_regions u) (mem_bytes u) (reg_pc u) (reg_sp u) v)
                         (allocMap s) (size_pointer s) (pageMask s)).
Definition reg_write_pc (v : Z) (u : Uc) : Uc :=
  mkUc (mem_regions u) (mem_bytes u) v (reg_sp u) (reg_ret u).

(** ** Virtual memory manager *)

(** [pageAlignUp] *)
Definition pageAlignUp (v : Z) : Z :=
  if negb (Z.land v PAGEALIGNCHECK =? 0) then v + (PAGESIZE - v mod PAGESIZE) else v.

(** [pageAlign] *)
Definition pageAlign (addr : Z) : Z := Z.land addr 0xfffffffffffff000.

Section WithDatabase.
Context (idb : Idb).

(** [_findUnusedMemRegion] *)
Definition _findUnusedMemRegion (u : Uc) : Z :=
  let highest := 0x10000 in
  let highest := fold_left (fun h (region : Z * Z) => if region.2 >? h then region.2 else h)
                           (mem_regions u) highest in
  let highest := fold_left (fun h segVA => let endVA := get_segm_end idb segVA in
                                           if endVA >? h then endVA else h)
                           (Segments idb) highest in
  let highest := highest + PAGESIZE in
  pageAlignUp highest.

(** The [for region in self.uc.mem_regions()] loop of [allocEmuMem]: the value
    of [isValid] when the loop ends (by exhaustion or by [break]). *)
Fixpoint isValid_loop (regions : list (Z * Z)) (baseAddr allocSize : Z) : bool :=
  match regions with
  | [] => true
  | region :: rest =>
      if ((baseAddr >=? region.1) && (baseAddr <? region.2))
         || ((baseAddr + allocSize >=? region.1) && (baseAddr + allocSize <? region.2))
      then false
      else if (baseAddr <? region.1) && (baseAddr + allocSize >? region.2)
      then false
      else isValid_loop rest baseAddr allocSize
  end.

(** The block [allocEmuMem] decides to map and the address it will return:
    [(baseAddr, allocSize, addr)] as they stand just before [uc.mem_map]. *)
Definition allocEmuMem_plan (u : Uc) (size : Z) (addr : option Z) : Z * Z * Z :=
  let allocSize := pageAlignUp size in
  match addr with
  | None => let baseAddr := _findUnusedMemRegion u in (baseAddr, allocSize, baseAddr)
  | Some addr =>
      let baseAddr := pageAlign addr in
      let offs := addr - baseAddr in
      if isValid_loop (mem_regions u) baseAddr allocSize
      then (baseAddr, allocSize, addr)
      else let baseAddr := _findUnusedMemRegion u in (baseAddr, allocSize, baseAddr + offs)
  end.

(** [allocEmuMem] *)
Definition allocEmuMem (size : Z) (addr : option Z) : M Z :=
  do u <- get_uc;
  let '(baseAddr, allocSize, addr) := allocEmuMem_plan u size addr in
  run mem_map baseAddr allocSize;
  mret addr.

End WithDatabase.

(** ** The per-run [userData] dictionary

    Only the keys read by the code embedded here; a key that may be absent
    is an [option], and reading an absent key raises KeyError. *)

Abbreviation Flow := (gmap nat (Z * Z)).
Abbreviation Path := (list nat).

Record UserData : Type := mkUserData {
  currAddr : option Z;
  currAddrSize : option Z;
  targetInfo : gmap Z (Flow * list Path);
  targetVA : option Z;
  visitedTargets : option (list Z)
}.

Definition key {A} (v : option A) : M A :=
  match v with Some a => mret a | None => raise end.

(** ** Runtime shim layer *)

(** [_checkMemSize]; the branch that truncates formats a log line from
    [userData["currAddr"]] first, and reading an absent key raises
    KeyError. *)
Definition _checkMemSize (size : Z) (userData : UserData) : M Z :=
  if size >? MAX_ALLOC_SIZE then
    do _ <- key (currAddr userData);
    mret MAX_ALLOC_SIZE
  else mret size.

(** [argv[i]] *)
Definition arg (argv : list Z) (i : nat) : M Z := key (argv !! i).

(** [isValidEmuPtr] *)
Definition isValidEmuPtr (ptr : Z) (u : Uc) : bool :=
  existsb (fun region : Z * Z => (ptr >=? region.1) && (ptr <? region.2)) (mem_regions u).

(** [getEmuMemRegion] *)
Definition getEmuMemRegion (addr : Z) (u : Uc) : option (Z * Z) :=
  match find (fun region : Z * Z => (addr >=? region.1) && (addr <? region.2)) (mem_regions u) with
  | Some region => Some (region.1, region.2 + 1)
  | None => None
  end.

(** The value the string shims leave in the return register when they give up. *)
Definition failure_val (self : EmuHelper) : Z :=
  if size_pointer self =? 8 then 0xffffffffffffffff else 0xffffffff.

(** The [while] loop of [getEmuString]: one byte is read per turn, the loop
    ends at a zero byte, and reading an unmapped byte raises.  [None] stands
    for a loop that is still running when the fuel is spent. *)
Fixpoint getEmuString_loop (fuel : nat) (u : Uc) (addr : Z) (out : list Z)
  : option (result (list Z)) :=
  match fuel with
  | O => None
  | S fuel' =>
      match uc_mem_read addr 1 u with
      | None => Some Exc
      | Some b =>
          if bool_decide (b = [0]) then Some (Ok out)
          else getEmuString_loop fuel' u (addr + 1) (out ++ b)
      end
  end.

(** The address of the last mapped byte, an upper bound for any scan. *)
Definition top_of (u : Uc) : Z := fold_left (fun h (r : Z * Z) => Z.max h r.2) (mem_regions u) 0.

(** [getEmuString]: the scan cannot outlive the mapped memory, so the fuel
    given here is never spent (lemma [getEmuString_loop_total]). *)
Definition getEmuString (addr : Z) : M (list Z) :=
  fun s => match getEmuString_loop (S (Z.to_nat (top_of (uc s) + 1 - addr))) (uc s) addr [] with
           | Some (Ok out) => (Ok out, s)
           | _ => (Exc, s)
           end.

Section Shims.
Context (idb : Idb).

(** [copyEmuMem]; the [except] clause formats the undefined name [address],
    so a failed copy leaves the method with a NameError. *)
Definition copyEmuMem (dstAddr srcAddr size : Z) (userData : UserData) : M unit :=
  do size <- _checkMemSize size userData;
  try_except (do mem <- mem_read srcAddr size; mem_write dstAddr mem) raise.

(** [_allocMem1Hook] *)
Definition _allocMem1Hook (argv : list Z) (userData : UserData) : M unit :=
  do allocSize <- arg argv 0;
  do allocSize <- _checkMemSize allocSize userData;
  do memAddr <- allocEmuMem idb allocSize None;
  reg_write_ret memAddr.

(** [_allocMem2Hook] *)
Definition _allocMem2Hook (argv : list Z) (userData : UserData) : M unit :=
  do allocSize <- arg argv 1;
  do allocSize <- _checkMemSize allocSize userData;
  do memAddr <- allocEmuMem idb allocSize None;
  reg_write_ret memAddr.

(** [_allocMem3Hook] *)
Definition _allocMem3Hook (argv : list Z) (userData : UserData) : M unit :=
  do allocSize <- arg argv 2;
  do allocSize <- _checkMemSize allocSize userData;
  do memAddr <- allocEmuMem idb allocSize None;
  reg_write_ret memAddr.

(** [_callocHook] *)
Definition _callocHook (argv : list Z) (userData : UserData) : M unit :=
  do a0 <- arg argv 0;
  do a1 <- arg argv 1;
  let allocSize := a0 * a1 in
  do allocSize <- _checkMemSize allocSize userData;
  do memAddr <- allocEmuMem idb allocSize None;
  reg_write_ret memAddr.

(** The common tail of [_heapReAllocHook] and [_reallocHook]. *)
Definition realloc_body (allocSize ptr : Z) (userData : UserData) : M unit :=
  do u <- get_uc;
  match getEmuMemRegion ptr u with
  | Some region =>
      let allocSize := Z.max (region.2 - region.1) allocSize in
      do memAddr <- allocEmuMem idb allocSize None;
      run copyEmuMem memAddr region.1 (region.2 - region.1) userData;
      reg_write_ret memAddr
  | None =>
      do memAddr <- allocEmuMem idb allocSize None;
      reg_write_ret memAddr
  end.

(** [_heapReAllocHook] *)
Definition _heapReAllocHook (argv : list Z) (userData : UserData) : M unit :=
  let HEAP_REALLOC_IN_PLACE_ONLY := 0x10 in
  do flags <- arg argv 1;
  if negb (Z.land flags HEAP_REALLOC_IN_PLACE_ONLY =? 0) then reg_write_ret 0
  else
    do allocSize <- arg argv 3;
    do allocSize <- _checkMemSize allocSize userData;
    do ptr <- arg argv 2;
    realloc_body allocSize ptr userData.

(** [_reallocHook] *)
Definition _reallocHook (argv : list Z) (userData : UserData) : M unit :=
  do allocSize <- arg argv 1;
  do allocSize <- _checkMemSize allocSize userData;
  do ptr <- arg argv 0;
  realloc_body allocSize ptr userData.

Definition set_allocMap (k : Z) (v : Z * Z) : M unit :=
  fun s => (Ok tt, mkEmu (uc s) (<[k := v]> (allocMap s)) (size_pointer s) (pageMask s)).

(** The common body of [_virtualAllocHook] and [_virtualAllocExHook], whose
    arguments sit at [i] and [i+1]. *)
Definition virtualAlloc_body (argv : list Z) (i : nat) (userData : UserData) : M unit :=
  do allocAddr <- arg argv i;
  do self <- get_self;
  match allocMap self !! allocAddr with
  | Some entry => reg_write_ret entry.1
  | None =>
      do allocSize <- arg argv (S i);
      do allocSize <- _checkMemSize allocSize userData;
      do memAddr <- allocEmuMem idb allocSize (Some allocAddr);
      run set_allocMap allocAddr (memAddr, allocSize);
      reg_write_ret memAddr
  end.

(** [_virtualAllocHook] *)
Definition _virtualAllocHook (argv : list Z) (userData : UserData) : M unit :=
  virtualAlloc_body argv 0 userData.
(** [_virtualAllocExHook] *)
Definition _virtualAllocExHook (argv : list Z) (userData : UserData) : M unit :=
  virtualAlloc_body argv 1 userData.

(** [dstRegion = self.getEmuMemRegion(self.allocEmuMem(n))]; subscripting a
    [None] result raises TypeError. *)
Definition alloc_dstRegion (n : Z) : M (Z * Z) :=
  do memAddr <- allocEmuMem idb n None;
  do u <- get_uc;
  key (getEmuMemRegion memAddr u).


(** [_strcpyHook] *)
Definition _strcpyHook (argv : list Z) : M unit :=
  do a1 <- arg argv 1;
  do u <- get_uc;
  do self <- get_self;
  if isValidEmuPtr a1 u then
    do s <- getEmuString a1;
    let src := s ++ [0] in
    do dst <- arg argv 0;
    do '(dstRegion, dst) <-
       match getEmuMemRegion dst u with
       | None => do r <- alloc_dstRegion (Z.of_nat (length src)); mret (r, r.1)
       | Some r => mret (r, dst)
       end;
    if Z.of_nat (length src) <=? dstRegion.2 - dst
    then run mem_write dst src; reg_write_ret dst
    else reg_write_ret (failure_val self)
  else reg_write_ret (failure_val self).

(** [src.ljust(n, "\x00")] *)
Definition ljust (src : list Z) (n : Z) : list Z :=
  src ++ repeat 0 (Z.to_nat (n - Z.of_nat (length src))).

(** [_strncpyHook] *)
Definition _strncpyHook (argv : list Z) (userData : UserData) : M unit :=
  do a1 <- arg argv 1;
  do u <- get_uc;
  do self <- get_self;
  if isValidEmuPtr a1 u then
    do n <- arg argv 2;
    do strnlen <- _checkMemSize n userData;
    do src <- getEmuString a1;
    do dst <- arg argv 0;
    do '(dstRegion, dst) <-
       match getEmuMemRegion dst u with
       | None => do r <- alloc_dstRegion strnlen; mret (r, r.1)
       | Some r => mret (r, dst)
       end;
    if strnlen <=? dstRegion.2 - dst
    then
      let src := if strnlen >? Z.of_nat (length src) then ljust src strnlen else src in
      run mem_write dst src; reg_write_ret dst
    else reg_write_ret (failure_val self)
  else reg_write_ret (failure_val self).

(** [_hookMemInvalid]; both logging calls read [userData], the second one
    inside the [except] clause. *)
Definition _hookMemInvalid (address : Z) (userData : UserData) : M bool :=
  do _ <- key (currAddr userData);
  do self <- get_self;
  run try_except
        (run mem_map (Z.land address (pageMask self)) PAGESIZE;
         mem_write (Z.land address (pageMask self)) (repeat 0 (Z.to_nat PAGESIZE)))
        (do ca <- key (currAddr userData);
         do cs <- key (currAddrSize userData);
         fun s => (Ok tt, mkEmu (reg_write_pc (ca + cs) (uc s))
                                (allocMap s) (size_pointer s) (pageMask s)));
  mret true.

End Shims.

(** ** Sample databases and states used to exercise the definitions *)

(** A database with one segment ending at [0x401000]. *)
Definition idb0 : Idb := mkIdb [0x400000] (fun _ => 0x401000).

Definition emu_of (regions : list (Z * Z)) (bytes : Z -> Z) : EmuHelper :=
  mkEmu (mkUc regions bytes 0 0 0) ∅ 8 0xfffffffffffff000.

(** The [userData] of a run that stands at the five-byte instruction at
    [0x400100]. *)
Definition ud_at_call : UserData := mkUserData (Some 0x400100) (Some 5) ∅ None None.

(** The image alone: one page at [0x400000]. *)
Definition s_image : EmuHelper := emu_of [(0x400000, 0x400fff)] (fun _ => 0).


(** A 16 MiB image, larger than the allocation ceiling. *)
Definition s_big : EmuHelper := emu_of [(0x400000, 0x13fffff)] (fun _ => 0).

(** ** Call-target names and the shim registry *)

(** The hook functions registered in [apiHooks], by name. *)
Inductive ApiHook : Type :=
  | H_returnHandleHook | H_allocMem3Hook | H_heapReAllocHook | H_allocMem1Hook
  | H_allocMem2Hook | H_returnParam1Hook | H_reallocHook | H_virtualAllocHook
  | H_virtualAllocExHook | H_callocHook | H_memcpyHook | H_strlenHook | H_strnlenHook
  | H_strcmpHook | H_strncmpHook | H_stricmpHook | H_strnicmpHook | H_wcscmpHook
  | H_wcsncmpHook | H_wcsicmpHook | H_wcsnicmpHook | H_strcpyHook | H_strncpyHook
  | H_strncpysHook | H_wcscpyHook | H_wcsncpyHook | H_wcsncpysHook | H_memchrHook
  | H_strchrHook | H_wcschrHook | H_strrchrHook | H_wcsrchrHook | H_wcslenHook
  | H_wcsnlenHook | H_strcatHook | H_strncatHook | H_wcscatHook | H_wcsncatHook
  | H_strlwrHook | H_struprHook | H_wcslwrHook | H_wcsuprHook | H_strdupHook
  | H_wcsdupHook | H_mbtowcHook | H_mbstowcsHook | H_wctombHook | H_wcstombsHook
  | H_multiByteToWideCharHook | H_wideCharToMultiByteHook | H_memsetHook | H_bzeroHook
  | H_modHook.

(** The assignments [self.apiHooks[name] = hook] of [initEmuHelper], in order. *)
Definition apiHooks_entries : list (string * ApiHook) :=
  [("GetProcessHeap", H_returnHandleHook); ("HeapCreate", H_returnHandleHook);
   ("HeapAlloc", H_allocMem3Hook); ("HeapReAlloc", H_heapReAllocHook);
   ("RtlAllocateHeap", H_allocMem3Hook); ("AllocateHeap", H_allocMem1Hook);
   ("LocalAlloc", H_allocMem2Hook); ("LocalLock", H_returnParam1Hook);
   ("GlobalAlloc", H_allocMem2Hook); ("GlobalLock", H_returnParam1Hook);
   ("LocalReAlloc", H_reallocHook); ("GlobalReAlloc", H_reallocHook);
   ("VirtualAlloc", H_virtualAllocHook); ("VirtualAllocEx", H_virtualAllocExHook);
   ("malloc", H_allocMem1Hook); ("calloc", H_callocHook); ("realloc", H_reallocHook);
   ("memcpy", H_memcpyHook); ("memmove", H_memcpyHook); ("strlen", H_strlenHook);
   ("lstrlenA", H_strlenHook); ("strnlen", H_strnlenHook); ("strnlen_s", H_strnlenHook);
   ("strcmp", H_strcmpHook); ("lstrcmpA", H_strcmpHook); ("strncmp", H_strncmpHook);
   ("stricmp", H_stricmpHook); ("lstrcmpiA", H_stricmpHook);
   ("strnicmp", H_strnicmpHook); ("wcscmp", H_wcscmpHook); ("lstrcmpW", H_wcscmpHook);
   ("wcsncmp", H_wcsncmpHook); ("wcsicmp", H_wcsicmpHook); ("lstrcmpiW", H_wcsicmpHook);
   ("wcsnicmp", H_wcsnicmpHook); ("mbscmp", H_strcmpHook); ("mbsncmp", H_strncmpHook);
   ("mbsicmp", H_stricmpHook); ("mbsnicmp", H_strnicmpHook); ("strcpy", H_strcpyHook);
   ("strncpy", H_strncpyHook); ("lstrcpyA", H_strcpyHook); ("lstrcpynA", H_strncpyHook);
   ("strncpy_s", H_strncpysHook); ("wcscpy", H_wcscpyHook); ("wcsncpy", H_wcsncpyHook);
   ("lstrcpyW", H_wcscpyHook); ("lstrcpynW", H_wcsncpyHook);
   ("wcsncpy_s", H_wcsncpysHook); ("mbscpy", H_strcpyHook); ("mbsncpy", H_strncpyHook);
   ("mbsncpy_s", H_strncpysHook); ("memchr", H_memchrHook); ("strchr", H_strchrHook);
   ("wcschr", H_wcschrHook); ("mbschr", H_strchrHook); ("strrchr", H_strrchrHook);
   ("wcsrchr", H_wcsrchrHook); ("mbsrchr", H_strrchrHook); ("wcslen", H_wcslenHook);
   ("lstrlenW", H_wcslenHook); ("mbslen", H_strlenHook); ("mbstrlen", H_strlenHook);
   ("wcsnlen", H_wcsnlenHook); ("wcsnlen_s", H_wcsnlenHook); ("mbsnlen", H_strnlenHook);
   ("mbstrnlen", H_strnlenHook); ("strcat", H_strcatHook); ("lstrcatA", H_strcatHook);
   ("strncat", H_strncatHook); ("wcscat", H_wcscatHook); ("lstrcatW", H_wcscatHook);
   ("wcsncat", H_wcsncatHook); ("mbscat", H_strcatHook); ("mbsncat", H_strncatHook);
   ("strlwr", H_strlwrHook); ("strupr", H_struprHook); ("wcslwr", H_wcslwrHook);
   ("wcsupr", H_wcsuprHook); ("mbslwr", H_strlwrHook); ("mbsupr", H_struprHook);
   ("strdup", H_strdupHook); ("wcsdup", H_wcsdupHook); ("mbsdup", H_strdupHook);
   ("mbtowc", H_mbtowcHook); ("mbstowcs", H_mbstowcsHook); ("wctomb", H_wctombHook);
   ("wcstombs", H_wcstombsHook); ("MultiByteToWideChar", H_multiByteToWideCharHook);
   ("WideCharToMultiByte", H_wideCharToMultiByteHook); ("memset", H_memsetHook);
   ("ZeroMemory", H_bzeroHook); ("bzero", H_bzeroHook); ("umodsi3", H_modHook)]%string.

(** [self.apiHooks]: a later assignment to a key replaces an earlier one. *)
Definition apiHooks : gmap string ApiHook :=
  fold_left (fun m (kv : string * ApiHook) => <[kv.1 := kv.2]> m) apiHooks_entries ∅.

Definition underscore : ascii := "_"%char.
Definition newline : ascii := "010"%char.

(** [\d] on a byte string: the ten ASCII digits. *)
Definition is_digit (c : ascii) : bool :=
  let n := nat_of_ascii c in (48 <=? n)%nat && (n <=? 57)%nat.

(** [$] matches at the end of the string and also just before a newline that
    is the last character; [sub] removes a match that ends at the end of its
    argument, so it is applied to the string without that newline. *)
Definition at_dollar (sub : list ascii -> list ascii) (s : list ascii) : list ascii :=
  match rev s with
  | c :: r => if Ascii.eqb c newline then sub (rev r) ++ [newline] else sub s
  | [] => sub s
  end.

Fixpoint drop_digits (r : list ascii) : list ascii :=
  match r with
  | c :: r' => if is_digit c then drop_digits r' else r
  | [] => []
  end.

(** [re.sub(r"_[\d]+$", "", s)] for a match that ends where [s] ends: the
    only possible match starts at the underscore before the last run of
    digits. *)
Definition sub_num (s : list ascii) : list ascii :=
  match rev s with
  | d :: _ =>
      if is_digit d then
        match drop_digits (rev s) with
        | c :: rest => if Ascii.eqb c underscore then rev rest else s
        | [] => s
        end
      else s
  | [] => s
  end.

(** [re.sub(r"_l$", "", s)] for a match that ends where [s] ends. *)
Definition sub_l (s : list ascii) : list ascii :=
  match rev s with
  | c1 :: c2 :: rest =>
      if Ascii.eqb c1 "l"%char && Ascii.eqb c2 underscore then rev rest else s
  | _ => s
  end.

(** [if funcName[:2] == "j_": funcName = funcName[2:]] *)
Definition strip_j (s : list ascii) : list ascii :=
  match s with
  | c1 :: c2 :: rest => if Ascii.eqb c1 "j"%char && Ascii.eqb c2 underscore then rest else s
  | _ => s
  end.

(** [re.sub(r"^_+", "", s)] *)
Fixpoint lstrip_underscores (s : list ascii) : list ascii :=
  match s with
  | c :: rest => if Ascii.eqb c underscore then lstrip_underscores rest else s
  | [] => []
  end.

(** The normalisation at the head of [_handleApiHooks]. *)
Definition normalize_chars (funcName : list ascii) : list ascii :=
  let funcName := at_dollar sub_num funcName in
  let funcName := at_dollar sub_l funcName in
  let funcName := strip_j funcName in
  lstrip_underscores funcName.

Definition normalize (funcName : string) : string :=
  string_of_list_ascii (normalize_chars (list_ascii_of_string funcName)).

(** The hook [_handleApiHooks] dispatches to, [None] when it returns False. *)
Definition resolve_api_hook (funcName : string) : option ApiHook :=
  apiHooks !! normalize funcName.

(** ** CFG path explorer *)

(** IDA's basic-block classification. *)
Inductive fc_block_type : Type :=
| fcb_normal | fcb_indjump | fcb_ret | fcb_cndret | fcb_noret | fcb_enoret | fcb_extern | fcb_error.

Definition fc_block_type_eqb (a b : fc_block_type) : bool :=
  match a, b with
  | fcb_normal, fcb_normal | fcb_indjump, fcb_indjump | fcb_ret, fcb_ret
  | fcb_cndret, fcb_cndret | fcb_noret, fcb_noret | fcb_enoret, fcb_enoret
  | fcb_extern, fcb_extern | fcb_error, fcb_error => true
  | _, _ => false
  end.

(** A basic block as the code sees it; [succs] lists the ids that
    [bb.succs()] yields, in graph order. *)
Record BasicBlock : Type := mkBB {
  start_ea : Z;
  end_ea : Z;
  type : fc_block_type;
  succs : list nat
}.

(** [idaapi.FlowChart(function)]: the blocks [0 .. size-1], looked up by id. *)
Record FlowChart : Type := mkFlowChart {
  fc_size : nat;
  fc_block : nat -> BasicBlock
}.

(** [idaapi.get_func(targetVA)] together with its flow chart. *)
Record Func : Type := mkFunc {
  func_start_ea : Z;
  flowchart : FlowChart
}.

(** The exploration attributes of the helper object.  [explorePaths] is
    [None] while the attribute does not exist ([hasattr] is False);
    [paths] is the per-function cache [self.paths]. *)
Record Explorer : Type := mkExplorer {
  explorePaths : option (list Path);
  explorePathIdx : nat;
  paths : gmap Z (list Path)
}.

(** Outcome of a call that may raise, or whose recursion the fuel cut short. *)
Inductive xres (A : Type) : Type :=
| XOk (a : A) (self : Explorer)
| XRaise (self : Explorer)
| XFuel.
Arguments XOk {A} a self.
Arguments XRaise {A} self.
Arguments XFuel {A}.

(** [isTerminatingBB] *)
Definition isTerminatingBB (fc : FlowChart) (bb : nat) : bool :=
  let b := fc_block fc bb in
  if fc_block_type_eqb (type b) fcb_ret || fc_block_type_eqb (type b) fcb_noret
     || (fc_block_type_eqb (type b) fcb_indjump && (length (succs b) =? 0)%nat)
  then true
  else existsb (fun w => fc_block_type_eqb (type (fc_block fc w)) fcb_extern) (succs b).

(** [self.explorePaths[idx].append(x)] *)
Definition path_append (ps : list Path) (idx : nat) (x : nat) : option (list Path) :=
  match ps !! idx with
  | Some p => Some (<[idx := p ++ [x]]> ps)
  | None => None
  end.

(** [self.explorePaths[idx].pop()] *)
Definition path_pop (ps : list Path) (idx : nat) : option (list Path) :=
  match ps !! idx with
  | Some ((_ :: _) as p) => Some (<[idx := removelast p]> ps)
  | _ => None
  end.

(** [self.explorePaths.append(deepcopy(self.explorePaths[idx]))] *)
Definition path_fork (ps : list Path) (idx : nat) : option (list Path) :=
  match ps !! idx with
  | Some p => Some (ps ++ [p])
  | None => None
  end.

(** The [for w in start_bb.succs()] loop of [_explore] and the [pop] that
    follows it; [rec] is the recursive call. *)
Definition explore_succs
    (rec : nat -> list Path -> nat -> option (option (option nat * list Path * nat)))
  : list nat -> list Path -> nat -> option (option (option nat * list Path * nat)) :=
  fix visit (ws : list nat) (ps : list Path) (idx : nat) :=
    match ws with
    | [] => Some (match path_pop ps idx with
                  | Some ps' => Some (None, ps', idx)
                  | None => None
                  end)
    | w :: ws' =>
        match rec w ps idx with
        | Some (Some (None, ps', idx')) => visit ws' ps' idx'
        | r => r
        end
    end.

(** [_explore], on the pair [(explorePaths, explorePathIdx)].  The outer
    [None] is a recursion cut short by [fuel], the inner one an IndexError
    from a list operation. *)
Fixpoint explore_rec (fuel : nat) (fc : FlowChart) (start_bb : nat) (end_bb : option nat)
    (ps : list Path) (idx : nat) : option (option (option nat * list Path * nat)) :=
  match fuel with
  | O => None
  | S fuel' =>
      if match end_bb with Some e => (e =? start_bb)%nat | None => false end
      then Some (match path_append ps idx start_bb with
                 | Some ps' => Some (Some idx, ps', idx)
                 | None => None
                 end)
      else
        match ps !! idx with
        | None => Some None
        | Some cur =>
            if bool_decide (start_bb ∈ cur)
            then Some (Some (None, ps ++ [cur], S idx))
            else
              match path_append ps idx start_bb with
              | None => Some None
              | Some ps1 =>
                  if isTerminatingBB fc start_bb
                  then Some (match path_fork ps1 idx with
                             | Some ps2 =>
                                 match path_pop ps2 (S idx) with
                                 | Some ps3 => Some (None, ps3, S idx)
                                 | None => None
                                 end
                             | None => None
                             end)
                  else explore_succs (fun w ps idx => explore_rec fuel' fc w end_bb ps idx)
                                     (succs (fc_block fc start_bb)) ps1 idx
              end
        end
  end.

(** The attributes [_explore] works on, created on first use. *)
Definition ensure_explorePaths (self : Explorer) : Explorer :=
  match explorePaths self with
  | Some _ => self
  | None => mkExplorer (Some [[]]) 0 (paths self)
  end.

(** [_explore] as a method. *)
Definition _explore (fuel : nat) (fc : FlowChart) (start_bb : nat) (end_bb : option nat)
    (self : Explorer) : xres (option nat) :=
  let self := ensure_explorePaths self in
  match explorePaths self with
  | None => XRaise self
  | Some ps =>
      match explore_rec fuel fc start_bb end_bb ps (explorePathIdx self) with
      | None => XFuel
      | Some None => XRaise self
      | Some (Some (r, ps', idx')) => XOk r (mkExplorer (Some ps') idx' (paths self))
      end
  end.

(** [getStartBB]: the first block that starts where the function starts. *)
Definition getStartBB (f : Func) : option nat :=
  find (fun bb => start_ea (fc_block (flowchart f) bb) =? func_start_ea f)
       (seq 0 (fc_size (flowchart f))).

(** [getBlockIdByVA]: the first block whose range holds [targetVA]. *)
Definition getBlockIdByVA (targetVA : Z) (fc : FlowChart) : option nat :=
  find (fun bb => (targetVA >=? start_ea (fc_block fc bb)) && (targetVA <? end_ea (fc_block fc bb)))
       (seq 0 (fc_size fc)).

(** [flow[bb.id] = (bb.start_ea, bb.end_ea)] for every block. *)
Definition flow_of (fc : FlowChart) : Flow :=
  fold_left (fun (flow : Flow) bb =>
               <[bb := (start_ea (fc_block fc bb), end_ea (fc_block fc bb))]> flow)
            (seq 0 (fc_size fc)) ∅.

(** [p[:p.index(x) + 1]] for a path that holds [x]. *)
Fixpoint upto (x : nat) (p : Path) : Path :=
  match p with
  | [] => []
  | y :: p' => if (y =? x)%nat then [y] else y :: upto x p'
  end.

(** The filtering of [getPaths]: keep the paths through the target,
    truncate them at it, drop duplicates, keep at most [maxPaths]. *)
Definition target_paths (target_bb : nat) (maxPaths : nat) (all : list Path) : list Path :=
  let targetPaths := filter (fun p => target_bb ∈ p) all in
  let targetPaths := map (upto target_bb) targetPaths in
  let uniqTargetPaths :=
    fold_left (fun uniq p => if bool_decide (p ∈ uniq) then uniq else uniq ++ [p])
              targetPaths [] in
  take maxPaths uniqTargetPaths.

(** [getPaths] *)
Definition getPaths (fuel : nat) (f : Func) (targetVA : Z) (maxPaths : nat) (self : Explorer)
  : xres (Flow * list Path) :=
  let fc := flowchart f in
  match getBlockIdByVA targetVA fc with
  | None => XRaise self
  | Some target_bb =>
      let finish (all : list Path) (self : Explorer) :=
        XOk (flow_of fc, target_paths target_bb maxPaths all) self in
      match paths self !! func_start_ea f with
      | Some all => finish all self
      | None =>
          match getStartBB f with
          | None => XRaise (ensure_explorePaths self)
          | Some start_bb =>
              match _explore fuel fc start_bb None self with
              | XOk _ self1 =>
                  match explorePaths self1 with
                  | Some ((_ :: _) as ps) =>
                      let all := removelast ps in
                      finish all (mkExplorer None (explorePathIdx self1)
                                             (<[func_start_ea f := all]> (paths self1)))
                  | _ => XRaise self1
                  end
              | XRaise self1 => XRaise self1
              | XFuel => XFuel
              end
          end
      end
  end.

(** [getPath]; [None] is the pair [(None, None)] the method returns when no
    path is found, in which case [explorePaths] is left in place. *)
Definition getPath (fuel : nat) (f : Func) (targetVA : Z) (self : Explorer)
  : xres (option (Flow * list Path)) :=
  let fc := flowchart f in
  match getBlockIdByVA targetVA fc with
  | None => XRaise self
  | Some target_bb =>
      match getStartBB f with
      | None => XRaise (ensure_explorePaths self)
      | Some start_bb =>
          match _explore fuel fc start_bb (Some target_bb) self with
          | XOk None self1 => XOk None self1
          | XOk (Some idx) self1 =>
              match explorePaths self1 with
              | Some ps =>
                  match ps !! idx with
                  | Some path =>
                      XOk (Some (flow_of fc, [path]))
                          (mkExplorer None (explorePathIdx self1) (paths self1))
                  | None => XRaise self1
                  end
              | None => XRaise self1
              end
          | XRaise self1 => XRaise self1
          | XFuel => XFuel
          end
      end
  end.

(** The helper as [__init__] leaves it: no exploration attribute, empty cache. *)
Definition explorer_init : Explorer := mkExplorer None 0 ∅.

(** A function of one block that ends in a return:
    [0x401000: push ebp ... 0x401010: retn]. *)
Definition single_ret_block : Func :=
  mkFunc 0x401000 (mkFlowChart 1 (fun _ => mkBB 0x401000 0x401011 fcb_ret [])).

(** An [if/else] diamond whose last block jumps back to the branch. *)
Definition diamond_loop : Func :=
  mkFunc 0x402000
    (mkFlowChart 4 (fun bb => nth bb [mkBB 0x402000 0x402010 fcb_normal [1; 2]%nat;
                                      mkBB 0x402010 0x402020 fcb_normal [3]%nat;
                                      mkBB 0x402020 0x402030 fcb_normal [3]%nat;
                                      mkBB 0x402030 0x402040 fcb_normal [0]%nat]
                                  (mkBB 0 0 fcb_error []))).

(** The list of paths a call of [getPaths] returned, if it returned. *)
Definition paths_returned (r : xres (Flow * list Path)) : option (list Path) :=
  match r with
  | XOk (_, ps) _ => Some ps
  | _ => None
  end.

(** The same for [getPath]; [Some None] is its "no path" answer. *)
Definition path_returned (r : xres (option (Flow * list Path))) : option (option (list Path)) :=
  match r with
  | XOk (Some (_, ps)) _ => Some (Some ps)
  | XOk None _ => Some None
  | _ => None
  end.

(** ** The target loop of [iterate] *)

Definition set_visitedTargets (v : list Z) (userData : UserData) : UserData :=
  mkUserData (currAddr userData) (currAddrSize userData) (targetInfo userData)
             (targetVA userData) (Some v).
Definition set_targetVA (t : Z) (userData : UserData) : UserData :=
  mkUserData (currAddr userData) (currAddrSize userData) (targetInfo userData)
             (Some t) (visitedTargets userData).
Definition set_targetInfo (ti : gmap Z (Flow * list Path)) (userData : UserData) : UserData :=
  mkUserData (currAddr userData) (currAddrSize userData) ti
             (targetVA userData) (visitedTargets userData).

(** [stopEmulation], as far as [userData] goes; reading an absent
    ["targetVA"] raises KeyError. *)
Definition stopEmulation (userData : UserData) : result UserData :=
  match visitedTargets userData with
  | Some visited =>
      match targetVA userData with
      | Some t =>
          if bool_decide (t ∈ visited) then Ok userData
          else Ok (set_visitedTargets (visited ++ [t]) userData)
      | None => Exc
      end
  | None => Ok userData
  end.

(** [_targetHit], as far as [userData] goes: the callback's exceptions are
    swallowed, then the address is appended to ["visitedTargets"]. *)
Definition _targetHit (address : Z) (userData : UserData) : result UserData :=
  match visitedTargets userData with
  | Some visited => Ok (set_visitedTargets (visited ++ [address]) userData)
  | None => Exc
  end.

(** What the hooks did to [userData] during one [uc.emu_start] call, in
    order.  The engine also returns on its own, without [stopEmulation] ever
    being called, when the program counter reaches the [until] address that
    [iterate] passes as [funcEnd]; such a run may have no call at all. *)
Inductive hook_call : Type :=
| TargetHit (address : Z)
| StopEmulation.

Fixpoint apply_calls (calls : list hook_call) (userData : UserData) : result UserData :=
  match calls with
  | [] => Ok userData
  | TargetHit a :: rest =>
      match _targetHit a userData with
      | Ok userData' => apply_calls rest userData'
      | Exc => Exc
      end
  | StopEmulation :: rest =>
      match stopEmulation userData with
      | Ok userData' => apply_calls rest userData'
      | Exc => Exc
      end
  end.

(** [for addr in userData["visitedTargets"]: del(userData["targetInfo"][addr])];
    deleting an absent key raises KeyError. *)
Fixpoint del_visited (visited : list Z) (ti : gmap Z (Flow * list Path))
  : result (gmap Z (Flow * list Path)) :=
  match visited with
  | [] => Ok ti
  | addr :: rest =>
      match ti !! addr with
      | Some _ => del_visited rest (delete addr ti)
      | None => Exc
      end
  end.

(** [sorted(targetInfo.keys(), reverse=True)[0]] *)
Definition highest_key (ti : gmap Z (Flow * list Path)) : option Z :=
  match elements (dom ti) with
  | [] => None
  | k :: ks => Some (fold_left Z.max ks k)
  end.

Section Iterate.
(** The engine and the code under emulation are not part of the program:
    [emu_start userData pathIdx] is whatever sequence of hook calls the run
    started in that state produces. *)
Context (emu_start : UserData -> nat -> list hook_call).

(** One turn of [for path in paths]: the run, then the deletions. *)
Definition run_path (pathIdx : nat) (userData : UserData) : result UserData :=
  let userData := set_visitedTargets [] userData in
  match apply_calls (emu_start userData pathIdx) userData with
  | Ok userData =>
      match visitedTargets userData with
      | Some visited =>
          match del_visited visited (targetInfo userData) with
          | Ok ti => Ok (set_targetInfo ti userData)
          | Exc => Exc
          end
      | None => Exc
      end
  | Exc => Exc
  end.

Fixpoint run_paths (paths : list Path) (pathIdx : nat) (userData : UserData)
  : result UserData :=
  match paths with
  | [] => Ok userData
  | _ :: rest =>
      match run_path pathIdx userData with
      | Ok userData' => run_paths rest (S pathIdx) userData'
      | Exc => Exc
      end
  end.

(** The hook calls of the runs of one [for path in paths] loop, in order, up
    to the run whose deletions raise. *)
Fixpoint runs_of (paths : list Path) (pathIdx : nat) (userData : UserData)
  : list (list hook_call) :=
  match paths with
  | [] => []
  | _ :: rest =>
      emu_start (set_visitedTargets [] userData) pathIdx ::
      match run_path pathIdx userData with
      | Ok userData' => runs_of rest (S pathIdx) userData'
      | Exc => []
      end
  end.

(** The body of [while len(userData["targetInfo"]) > 0]. *)
Definition iterate_body (userData : UserData) : result UserData :=
  match highest_key (targetInfo userData) with
  | None => Exc
  | Some t =>
      let userData := set_targetVA t userData in
      match targetInfo userData !! t with
      | Some (flow, paths) =>
          match flow !! 0%nat with
          | Some _ => run_paths paths 0 userData
          | None => Exc
          end
      | None => Exc
      end
  end.

(** The [while] loop; [None] when the fuel ends before the loop does. *)
Fixpoint iterate_loop (fuel : nat) (userData : UserData) : option (result UserData) :=
  if (size (targetInfo userData) =? 0)%nat then Some (Ok userData)
  else match fuel with
       | O => None
       | S fuel' =>
           match iterate_body userData with
           | Ok userData' => iterate_loop fuel' userData'
           | Exc => Some Exc
           end
       end.

End Iterate.

(** One pending target at [0x401005], on the single-block function. *)
Definition one_target : UserData :=
  mkUserData None None {[ 0x401005 := (flow_of (flowchart single_ret_block), [[0%nat]]) ]}
             None None.

(** Two pending targets of the diamond function. *)
Definition two_targets : UserData :=
  mkUserData None None
    (<[ 0x402035 := (flow_of (flowchart diamond_loop), [[0; 1; 3]%nat]) ]>
       {[ 0x402015 := (flow_of (flowchart diamond_loop), [[0; 1]%nat]) ]})
    None None.

(** A run that passes the lower target on its way and stops at the pursued one. *)
Definition run_hits_both (userData : UserData) (pathIdx : nat) : list hook_call :=
  match targetVA userData with
  | Some t => if t =? 0x402035 then [TargetHit 0x402015; TargetHit t; StopEmulation]
              else [TargetHit t; StopEmulation]
  | None => []
  end.

(** A run the engine ends at [funcEnd] before any hook stops it. *)
Definition run_to_funcEnd (userData : UserData) (pathIdx : nat) : list hook_call := [].

(** A run that is abandoned: [stopEmulation] is called, no target is hit. *)
Definition run_abandoned (userData : UserData) (pathIdx : nat) : list hook_call :=
  [StopEmulation].

(** The state an iteration leaves, or the state itself when it raises. *)
Definition after_body (emu_start : UserData -> nat -> list hook_call) (userData : UserData)
  : UserData :=
  match iterate_body emu_start userData with
  | Ok userData' => userData'
  | Exc => userData
  end.

(** Two adjacent pages, as two VirtualAlloc calls at [0x500000] and
    [0x501000] leave them; a string of 100 bytes [0x41] and its terminator
    sits at [0x501800]. *)
Definition s_adjacent : EmuHelper :=
  emu_of [(0x400000, 0x400fff); (0x500000, 0x500fff); (0x501000, 0x501fff)]
         (fun a => if (0x501800 <=? a) && (a <? 0x501800 + 100) then 0x41 else 0).

(** ** Further methods of the helper *)

Section MoreShims.
Context (idb : Idb).

(** [loadBytes] *)
Definition loadBytes (bytes : list Z) (addr : option Z) : M Z :=
  do mem <- allocEmuMem idb (Z.of_nat (length bytes)) addr;
  run mem_write mem bytes;
  mret mem.

(** [_returnHandleHook] *)
Definition _returnHandleHook (argv : list Z) : M unit := reg_write_ret 42.

(** [_returnParam1Hook] *)
Definition _returnParam1Hook (argv : list Z) : M unit :=
  do a0 <- arg argv 0;
  reg_write_ret a0.

(** [_strlenHook] *)
Definition _strlenHook (argv : list Z) : M unit :=
  do a0 <- arg argv 0;
  do u <- get_uc;
  if isValidEmuPtr a0 u then
    do s <- getEmuString a0;
    reg_write_ret (Z.of_nat (length s))
  else reg_write_ret 0.

(** [_strnlenHook] *)
Definition _strnlenHook (argv : list Z) (userData : UserData) : M unit :=
  do a1 <- arg argv 1;
  do strnlen <- _checkMemSize a1 userData;
  do a0 <- arg argv 0;
  do u <- get_uc;
  if isValidEmuPtr a0 u then
    do s <- getEmuString a0;
    let strlen := Z.of_nat (length s) in
    let strlen := Z.min strlen strnlen in
    reg_write_ret strlen
  else reg_write_ret 0.


(** [_bzeroHook] *)
Definition _bzeroHook (argv : list Z) (userData : UserData) : M unit :=
  do setSize <- arg argv 1;
  do setSize <- _checkMemSize setSize userData;
  do a0 <- arg argv 0;
  do u <- get_uc;
  let src := 0 in
  do '(dstRegion, dst) <-
     match getEmuMemRegion a0 u with
     | None => do r <- alloc_dstRegion idb setSize; mret (r, r.1)
     | Some r => mret (r, a0)
     end;
  run (if setSize <=? dstRegion.2 - dst
       then mem_write dst (repeat src (Z.to_nat setSize))
       else mret tt);
  reg_write_ret dst.



End MoreShims.

(** ** Pointers in emulator memory

    [struct.pack(self.pack_fmt, value)] with the format ["<Q"] or ["<I"] that
    [initEmuHelper] pairs with [size_pointer]: little-endian, and a
    struct.error for a value the format cannot hold. *)

Definition pack_le (size : nat) (value : Z) : list Z :=
  map (fun i => Z.land (Z.shiftr value (8 * Z.of_nat i)) 0xff) (seq 0 size).

Definition unpack_le (data : list Z) : Z :=
  fold_right (fun b acc => b + 256 * acc) 0 data.

Definition struct_pack (size : Z) (value : Z) : option (list Z) :=
  if (0 <=? value) && (value <? 2 ^ (8 * size))
  then Some (pack_le (Z.to_nat size) value)
  else None.

(** [getEmuPtr] *)
Definition getEmuPtr (va : Z) : M Z :=
  do self <- get_self;
  do data <- mem_read va (size_pointer self);
  mret (unpack_le data).

(** [writeEmuPtr] *)
Definition writeEmuPtr (va value : Z) : M unit :=
  do self <- get_self;
  do data <- key (struct_pack (size_pointer self) value);
  mem_write va data.

(** ** Loading the binary *)

(** What is left of region [r] when [[address, address+size)] is taken out. *)
Definition cut (address size : Z) (r : Z * Z) : list (Z * Z) :=
  (if r.1 <? address then [(r.1, Z.min r.2 (address - 1))] else [])
  ++ (if address + size - 1 <? r.2 then [(Z.max r.1 (address + size), r.2)] else []).

(** [uc.mem_unmap(address, size)]: nothing happens for a zero size; the
    engine refuses an address or size off the page grid and a block that is
    not mapped in full; otherwise the block is taken out of the regions it
    meets. *)
Definition uc_mem_unmap (address size : Z) (u : Uc) : option Uc :=
  if size =? 0 then Some u
  else if (0 <? size) && (address mod PAGESIZE =? 0) && (size mod PAGESIZE =? 0)
          && range_mapped u address size
  then Some (mkUc (flat_map (cut address size) (mem_regions u)) (mem_bytes u)
                  (reg_pc u) (reg_sp u) (reg_ret u))
  else None.

Definition mem_unmap (address size : Z) : M unit := lift_uc (uc_mem_unmap address size).

(** [for x in l: f(x)] *)
Fixpoint for_each {A} (f : A -> M unit) (l : list A) : M unit :=
  match l with
  | [] => mret tt
  | x :: l' => run f x; for_each f l'
  end.

(** [resetEmulatorMemory]; [uc.mem_regions()] fetches the whole table before
    it yields the first region. *)
Definition resetEmulatorMemory : M unit :=
  do u <- get_uc;
  for_each (fun region : Z * Z => mem_unmap region.1 (region.2 - region.1 + 1)) (mem_regions u).

(** What [reloadBinary] asks of the database beside the segments: the
    address range of the program, which addresses hold a value, and the
    value of those that do. *)
Record Image : Type := mkImage {
  image_idb : Idb;
  MIN_EA : Z;
  MAX_EA : Z;
  has_value : Z -> bool;
  get_byte : Z -> Z
}.

Section Loader.
Context (img : Image).

(** The [while] loop of [getSegSize]; [None] stands for a loop that is still
    running when the fuel is spent. *)
Fixpoint getSegSize_loop (fuel : nat) (ea segEnd size : Z) : option Z :=
  match fuel with
  | O => None
  | S fuel' =>
      if has_value img ea then
        if ea >=? segEnd then Some size
        else getSegSize_loop fuel' (ea + 1) segEnd (size + 1)
      else Some size
  end.

(** [getSegSize]: the loop ends at [segEnd] at the latest, so the fuel given
    here is never spent. *)
Definition getSegSize (ea segEnd : Z) : option Z :=
  getSegSize_loop (S (Z.to_nat (segEnd - ea))) ea segEnd 0.

(** [_buildStack]; the result is the value assigned to [self.stack]. *)
Definition _buildStack (stackSize : Z) : M Z :=
  do mem <- allocEmuMem (image_idb img) stackSize None;
  let stack := mem + stackSize / 2 in
  run mem_write (stack - stackSize / 2) (repeat 0 (Z.to_nat stackSize));
  mret stack.

(** The body of the segment loop of [reloadBinary]. *)
Definition load_segment (segVA : Z) : M unit :=
  let endVA := get_segm_end (image_idb img) segVA in
  let segSizeTotal := endVA - segVA in
  do segSize <- key (getSegSize segVA endVA);
  run (if segSize >? 0
       then mem_write segVA (map (get_byte img) (seqZ' segVA (Z.to_nat segSize)))
       else mret tt);
  let segLeftover := segSizeTotal - segSize in
  if segLeftover >? 0
  then mem_write (segVA + segSize) (repeat 0 (Z.to_nat segLeftover))
  else mret tt.

(** [reloadBinary]; the result holds the values assigned to [self.baseAddr]
    and [self.stack]. *)
Definition reloadBinary (stackSize : Z) : M (Z * Z) :=
  run resetEmulatorMemory;
  let baseAddr := MIN_EA img in
  let endAddr := MAX_EA img in
  let memsize := endAddr - baseAddr in
  let memsize := pageAlignUp memsize in
  do self <- get_self;
  run mem_map (Z.land baseAddr (pageMask self)) memsize;
  run for_each load_segment (Segments (image_idb img));
  do stack <- _buildStack stackSize;
  mret (baseAddr, stack).

End Loader.

(** A database for [idb0]: the program spans one page, and the first half of
    its only segment holds values. *)
Definition img0 : Image :=
  mkImage idb0 0x400000 0x401000
          (fun a => (0x400000 <=? a) && (a <? 0x400800)) (fun a => a mod 256).

(** * Properties *)

(** ** Page arithmetic *)

Definition page_aligned (v : Z) : Prop := v mod PAGESIZE = 0.

Lemma land_pagecheck v : Z.land v PAGEALIGNCHECK = v mod PAGESIZE.
Proof. change PAGEALIGNCHECK with (Z.ones 12). by rewrite Z.land_ones. Qed.

Lemma pageAlignUp_unfold v :
  pageAlignUp v = if v mod PAGESIZE =? 0 then v else v + (PAGESIZE - v mod PAGESIZE).
Proof. unfold pageAlignUp. rewrite land_pagecheck. by destruct (_ =? 0). Qed.

Lemma aligned_multiple v : page_aligned v <-> exists k, v = PAGESIZE * k.
Proof.
  unfold page_aligned, PAGESIZE. split.
  - intros H. exists (v / 4096). pose proof (Z.div_mod v 4096). lia.
  - intros [k ->]. rewrite Z.mul_comm. by apply Z.mod_mul.
Qed.

Lemma pageAlignUp_aligned v : page_aligned (pageAlignUp v).
Proof.
  rewrite pageAlignUp_unfold. destruct (Z.eqb_spec (v mod PAGESIZE) 0) as [E|E]; [done|].
  apply aligned_multiple. exists (v / PAGESIZE + 1).
  unfold PAGESIZE in *. pose proof (Z.div_mod v 4096). lia.
Qed.

Lemma pageAlignUp_bounds v : v <= pageAlignUp v < v + PAGESIZE.
Proof.
  rewrite pageAlignUp_unfold. unfold PAGESIZE.
  pose proof (Z.mod_pos_bound v 4096).
  destruct (Z.eqb_spec (v mod 4096) 0); lia.
Qed.

Lemma pageAlignUp_fixed v : page_aligned v -> pageAlignUp v = v.
Proof. intros H. rewrite pageAlignUp_unfold, H. done. Qed.

Lemma pageAlign_unfold addr : pageAlign addr = PAGESIZE * ((addr mod 2 ^ 64) / PAGESIZE).
Proof.
  unfold pageAlign, PAGESIZE.
  change 0xfffffffffffff000 with (Z.ldiff (Z.ones 64) (Z.ones 12)).
  assert (Z.land addr (Z.ldiff (Z.ones 64) (Z.ones 12))
          = Z.ldiff (Z.land addr (Z.ones 64)) (Z.ones 12)) as ->.
  { apply Z.bits_inj'. intros n Hn.
    rewrite Z.land_spec, !Z.ldiff_spec, Z.land_spec. by rewrite andb_assoc. }
  rewrite Z.land_ones, Z.ldiff_ones_r by lia.
  rewrite Z.shiftl_mul_pow2, Z.shiftr_div_pow2 by lia.
  change (2 ^ 12) with 4096. lia.
Qed.

Lemma pageAlign_aligned addr : page_aligned (pageAlign addr).
Proof. apply aligned_multiple. eexists. apply pageAlign_unfold. Qed.

Lemma pageAlign_nonneg addr : 0 <= pageAlign addr.
Proof.
  rewrite pageAlign_unfold. unfold PAGESIZE.
  pose proof (Z.mod_pos_bound addr (2 ^ 64)).
  assert (0 <= (addr mod 2 ^ 64) / 4096) by (apply Z.div_pos; lia). lia.
Qed.

Lemma pageAlign_in_range addr :
  0 <= addr < 2 ^ 64 -> pageAlign addr = addr - addr mod PAGESIZE.
Proof.
  intros H. rewrite pageAlign_unfold, Z.mod_small by done.
  unfold PAGESIZE. pose proof (Z.div_mod addr 4096). lia.
Qed.

(** ** Well-formed region tables

    The engine only ever holds page-aligned, non-empty, pairwise disjoint
    mappings inside its 64-bit address space: [uc_mem_map] refuses anything
    else. *)

Definition region_ok (r : Z * Z) : Prop :=
  page_aligned r.1 /\ page_aligned (r.2 + 1) /\ 0 <= r.1 <= r.2 /\ r.2 < 2 ^ 64.

(** Some byte belongs to both [[base, base+size)] and the region [r]. *)
Definition overlaps (base size : Z) (r : Z * Z) : Prop :=
  exists a, base <= a < base + size /\ r.1 <= a <= r.2.

Fixpoint pairwise_disjoint (rs : list (Z * Z)) : Prop :=
  match rs with
  | [] => True
  | r :: rest => Forall (fun r' => ~ overlaps r.1 (r.2 - r.1 + 1) r') rest /\ pairwise_disjoint rest
  end.

Definition uc_wf (u : Uc) : Prop :=
  Forall region_ok (mem_regions u) /\ pairwise_disjoint (mem_regions u).

Lemma meets_overlaps base size r :
  r.1 <= r.2 -> meets base size r = true <-> overlaps base size r.
Proof.
  intros Hr. unfold meets, overlaps. rewrite !andb_true_iff, Z.leb_le, !Z.ltb_lt. split.
  - intros [[H1 H2] H3]. exists (Z.max base r.1). lia.
  - intros (a & H1 & H2). lia.
Qed.



Lemma uc_mem_map_spec address size u u' :
  uc_mem_map address size u = Some u' ->
  mem_regions u' = mem_regions u ++ [(address, address + size - 1)] /\
  0 < size /\ 0 <= address /\ page_aligned address /\ page_aligned size /\
  existsb (meets address size) (mem_regions u) = false /\
  address + size <= 2 ^ 64.
Proof.
  unfold uc_mem_map. destruct (_ && _) eqn:E; [|done].
  intros [= <-]. simpl.
  rewrite !andb_true_iff, negb_true_iff in E.
  destruct E as [[[[[H1 H2] H6] H3] H4] H5].
  apply Z.ltb_lt in H1. apply Z.leb_le in H2, H6. apply Z.eqb_eq in H3, H4. done.
Qed.

Lemma uc_mem_map_accepts address size u :
  0 < size -> 0 <= address -> page_aligned address -> page_aligned size ->
  (forall r, r ∈ mem_regions u -> ~ overlaps address size r) ->
  Forall region_ok (mem_regions u) ->
  address + size <= 2 ^ 64 ->
  exists u', uc_mem_map address size u = Some u'.
Proof.
  intros H1 H2 H3 H4 H5 Hwf H6. unfold uc_mem_map.
  assert (existsb (meets address size) (mem_regions u) = false) as ->.
  { apply not_true_is_false. intros He. apply existsb_exists in He as (r & Hin & Hm).
    apply list_elem_of_In in Hin. apply (H5 r Hin).
    apply meets_overlaps; [|done].
    rewrite Forall_forall in Hwf. destruct (Hwf r Hin) as (_ & _ & ? & _). lia. }
  apply Z.ltb_lt in H1. apply Z.leb_le in H2, H6.
  unfold page_aligned in *. rewrite H1, H2, H3, H4, H6. simpl. eauto.
Qed.


(** ** allocEmuMem *)

Section MemoryManager.
Context (idb : Idb).

Lemma fold_highest {A} (f : A -> Z) (l : list A) (h0 : Z) :
  let h := fold_left (fun h x => if f x >? h then f x else h) l h0 in
  h0 <= h /\ forall x, x ∈ l -> f x <= h.
Proof.
  revert h0. induction l as [|x l IH]; simpl; intros h0.
  - split; [lia|]. intros x Hx. by apply elem_of_nil in Hx.
  - destruct (IH (if f x >? h0 then f x else h0)) as [H1 H2].
    destruct (Z.gtb_spec (f x) h0); (split; [lia|]);
      intros y Hy; apply elem_of_cons in Hy as [-> | Hy]; auto; lia.
Qed.

Lemma findUnused_regions u u' :
  mem_regions u = mem_regions u' -> _findUnusedMemRegion idb u = _findUnusedMemRegion idb u'.
Proof. unfold _findUnusedMemRegion. by intros ->. Qed.

Lemma findUnused_above u :
  page_aligned (_findUnusedMemRegion idb u) /\
  0x10000 + PAGESIZE <= _findUnusedMemRegion idb u /\
  forall r, r ∈ mem_regions u -> r.2 + PAGESIZE <= _findUnusedMemRegion idb u.
Proof.
  unfold _findUnusedMemRegion. cbv zeta.
  set (h1 := fold_left _ (mem_regions u) _).
  set (h2 := fold_left _ (Segments idb) h1).
  destruct (fold_highest (fun r : Z * Z => r.2) (mem_regions u) 0x10000) as [A1 A2].
  destruct (fold_highest (get_segm_end idb) (Segments idb) h1) as [B1 B2].
  fold h1 in A1, A2. fold h2 in B1.
  pose proof (pageAlignUp_bounds (h2 + PAGESIZE)).
  split; [apply pageAlignUp_aligned|]. split; [lia|].
  intros r Hr. specialize (A2 r Hr). lia.
Qed.

Lemma findUnused_fresh u size r :
  r ∈ mem_regions u -> ~ overlaps (_findUnusedMemRegion idb u) size r.
Proof.
  intros Hr (a & H1 & H2). destruct (findUnused_above u) as (_ & _ & H).
  specialize (H r Hr). unfold PAGESIZE in H. lia.
Qed.

(** When the scan of [allocEmuMem] leaves [isValid] true, the requested block
    meets no mapping: on page-aligned data the three tests of the loop miss
    no way for two blocks to share a byte. *)
Lemma isValid_loop_sound rs base asz :
  Forall region_ok rs -> page_aligned base -> page_aligned asz ->
  isValid_loop rs base asz = true ->
  forall r, r ∈ rs -> ~ overlaps base asz r.
Proof.
  intros Hok Hb Ha. induction Hok as [|r0 rs Hr0 Hrs IH]; simpl.
  - intros _ r Hr. by apply elem_of_nil in Hr.
  - intros Hv r Hr.
    destruct (_ || _) eqn:E1 in Hv; [done|]. destruct (_ && _) eqn:E2 in Hv; [done|].
    apply elem_of_cons in Hr as [-> | Hr]; [|by apply IH].
    intros (a & H1 & H2). destruct Hr0 as (_ & Hend & Hne).
    apply aligned_multiple in Hb as [kb Hkb]. apply aligned_multiple in Ha as [ka Hka].
    apply aligned_multiple in Hend as [ke Hke]. unfold PAGESIZE in *.
    apply orb_false_iff in E1 as [E1 E1'].
    apply andb_false_iff in E1, E1', E2.
    rewrite Z.geb_leb, Z.leb_gt, Z.ltb_ge in E1, E1'.
    rewrite Z.gtb_ltb, !Z.ltb_ge in E2. lia.
Qed.


Lemma plan_aligned u size addr :
  let '(base, asz, _) := allocEmuMem_plan idb u size addr in
  page_aligned base /\ page_aligned asz /\ 0 <= base.
Proof.
  unfold allocEmuMem_plan. destruct addr as [addr|].
  - destruct (isValid_loop _ _ _).
    + split; [apply pageAlign_aligned|]. split; [apply pageAlignUp_aligned|].
      apply pageAlign_nonneg.
    + destruct (findUnused_above u) as (H1 & H2 & _).
      split; [done|]. split; [apply pageAlignUp_aligned|]. unfold PAGESIZE in H2. lia.
  - destruct (findUnused_above u) as (H1 & H2 & _).
    split; [done|]. split; [apply pageAlignUp_aligned|]. unfold PAGESIZE in H2. lia.
Qed.

Lemma plan_fresh u size addr :
  Forall region_ok (mem_regions u) ->
  let '(base, asz, _) := allocEmuMem_plan idb u size addr in
  forall r, r ∈ mem_regions u -> ~ overlaps base asz r.
Proof.
  intros Hok. unfold allocEmuMem_plan. destruct addr as [addr|].
  - destruct (isValid_loop _ _ _) eqn:E.
    + apply isValid_loop_sound; auto using pageAlign_aligned, pageAlignUp_aligned.
    + intros r. apply findUnused_fresh.
  - intros r. apply findUnused_fresh.
Qed.

Lemma allocEmuMem_unfold size addr s :
  allocEmuMem idb size addr s =
  let '(base, asz, a) := allocEmuMem_plan idb (uc s) size addr in
  match uc_mem_map base asz (uc s) with
  | Some u' => (Ok a, mkEmu u' (allocMap s) (size_pointer s) (pageMask s))
  | None => (Exc, s)
  end.
Proof.
  unfold allocEmuMem, mbind, get_uc, mem_map, lift_uc, mret.
  destruct (allocEmuMem_plan idb (uc s) size addr) as [[base asz] a].
  by destruct (uc_mem_map base asz (uc s)).
Qed.

(** The block [allocEmuMem] is about to map lies inside the 64-bit address
    space of the engine. *)
Definition plan_fits (u : Uc) (size : Z) (addr : option Z) : Prop :=
  (allocEmuMem_plan idb u size addr).1.1 + (allocEmuMem_plan idb u size addr).1.2 <= 2 ^ 64.

Lemma plan_size u size addr : (allocEmuMem_plan idb u size addr).1.2 = pageAlignUp size.
Proof. unfold allocEmuMem_plan. destruct addr; [destruct (isValid_loop _ _ _)|]; done. Qed.

Lemma plan_fits_None u size :
  plan_fits u size None <-> _findUnusedMemRegion idb u + pageAlignUp size <= 2 ^ 64.
Proof. done. Qed.

(** A positive size is granted on a well-formed table whenever the block
    fits the address space. *)
Lemma allocEmuMem_succeeds size addr s :
  Forall region_ok (mem_regions (uc s)) -> 0 < size -> plan_fits (uc s) size addr ->
  exists a u', allocEmuMem idb size addr s
               = (Ok a, mkEmu u' (allocMap s) (size_pointer s) (pageMask s)) /\
    uc_mem_map (allocEmuMem_plan idb (uc s) size addr).1.1
               (allocEmuMem_plan idb (uc s) size addr).1.2 (uc s) = Some u' /\
    a = (allocEmuMem_plan idb (uc s) size addr).2.
Proof.
  intros Hok Hsz Hfit. rewrite allocEmuMem_unfold. unfold plan_fits in Hfit.
  pose proof (plan_aligned (uc s) size addr) as Ha.
  pose proof (plan_fresh (uc s) size addr Hok) as Hf.
  destruct (allocEmuMem_plan idb (uc s) size addr) as [[base asz] a] eqn:Ep.
  destruct Ha as (Hb & Hz & Hnn). simpl in *.
  assert (0 < asz) as Hpos.
  { assert (asz = pageAlignUp size) as ->.
    { unfold allocEmuMem_plan in Ep. destruct addr; [destruct (isValid_loop _ _ _)|];
        by inversion Ep. }
    pose proof (pageAlignUp_bounds size). lia. }
  destruct (uc_mem_map_accepts base asz (uc s) Hpos Hnn Hb Hz Hf Hok Hfit) as [u' Hu'].
  rewrite Hu'. eauto.
Qed.








End MemoryManager.

(** ** Accessible blocks *)

Lemma covered_byte rs e x : forall fuel a,
  covered fuel rs a e = true -> a <= x < e -> existsb (in_region x) rs = true.
Proof.
  induction fuel as [|fuel IH]; intros a; simpl.
  - destruct (Z.leb_spec e a); [lia|done].
  - destruct (Z.leb_spec e a); [lia|].
    destruct (find (in_region a) rs) as [r|] eqn:E; [|done].
    intros Hc Hx. apply find_some in E as [Hin Hr].
    destruct (Z.le_gt_cases x r.2).
    + apply existsb_exists. exists r. split; [done|].
      unfold in_region in *. apply andb_true_iff in Hr as [H1 H2].
      apply Z.leb_le in H1. apply andb_true_iff. rewrite !Z.leb_le. lia.
    + apply (IH (r.2 + 1)); [done|lia].
Qed.

Lemma filter_length_lt {A} (P Q : A -> bool) (l : list A) x :
  (forall y, Q y = true -> P y = true) -> In x l -> P x = true -> Q x = false ->
  (length (List.filter Q l) < length (List.filter P l))%nat.
Proof.
  intros HQP.
  assert (forall l, (length (List.filter Q l) <= length (List.filter P l))%nat) as Hle.
  { clear -HQP. intros l. induction l as [|y l IH]; simpl; [lia|].
    destruct (Q y) eqn:E.
    - rewrite (HQP y E). simpl. lia.
    - destruct (P y); simpl; lia. }
  induction l as [|y l IH]; simpl; [done|].
  intros [-> | Hin] HP HQ.
  - rewrite HP, HQ. simpl. specialize (Hle l). lia.
  - specialize (IH Hin HP HQ). destruct (Q y) eqn:E.
    + rewrite (HQP y E). simpl. lia.
    + destruct (P y); simpl; lia.
Qed.

Lemma covered_enough rs e : forall fuel a,
  (forall x, a <= x < e -> existsb (in_region x) rs = true) ->
  (length (List.filter (fun r : Z * Z => (a <=? r.2)%Z) rs) <= fuel)%nat ->
  covered fuel rs a e = true.
Proof.
  induction fuel as [|fuel IH]; intros a Hall Hlen; simpl.
  - destruct (Z.leb_spec e a); [done|]. exfalso.
    assert (existsb (in_region a) rs = true) as Hex by (apply Hall; lia).
    apply existsb_exists in Hex as (r & Hin & Hr).
    assert (In r (List.filter (fun r : Z * Z => a <=? r.2) rs)) as Hf.
    { apply filter_In. split; [done|]. unfold in_region in Hr.
      by apply andb_true_iff in Hr as [_ ?]. }
    destruct (List.filter _ rs); [done|simpl in Hlen; lia].
  - destruct (Z.leb_spec e a); [done|].
    assert (existsb (in_region a) rs = true) as Hex by (apply Hall; lia).
    destruct (find (in_region a) rs) as [r|] eqn:E.
    + apply find_some in E as [Hin Hr]. apply IH.
      * intros x Hx. apply Hall. unfold in_region in Hr.
        apply andb_true_iff in Hr as [_ Hr]. apply Z.leb_le in Hr. lia.
      * unfold in_region in Hr. apply andb_true_iff in Hr as [_ Hr].
        pose proof (filter_length_lt (fun r0 : Z * Z => a <=? r0.2)
                      (fun r0 : Z * Z => r.2 + 1 <=? r0.2) rs r) as Hlt.
        cbv beta in Hlt.
        assert ((length (List.filter (fun r0 : Z * Z => (r.2 + 1 <=? r0.2)%Z) rs)
                 < length (List.filter (fun r0 : Z * Z => (a <=? r0.2)%Z) rs))%nat); [|lia].
        apply Hlt; [|done|done|].
        -- intros y Hy. apply Z.leb_le in Hy. apply Z.leb_le in Hr. apply Z.leb_le. lia.
        -- apply Z.leb_gt. lia.
    + exfalso. apply existsb_exists in Hex as (r & Hin & Hr).
      by rewrite (find_none _ _ E r Hin) in Hr.
Qed.

(** A block is accessible exactly when each of its bytes lies in a mapping. *)
Lemma range_mapped_iff u a n :
  range_mapped u a n = true <->
  forall x, a <= x < a + n -> existsb (in_region x) (mem_regions u) = true.
Proof.
  unfold range_mapped. split.
  - intros H x Hx. by eapply covered_byte.
  - intros H. apply covered_enough; [done|]. apply List.filter_length_le.
Qed.

(** A block inside one region is accessible. *)
Lemma range_in_region u r a n :
  r ∈ mem_regions u -> r.1 <= a -> a + n <= r.2 + 1 -> range_mapped u a n = true.
Proof.
  intros Hr Hlo Hhi. apply range_mapped_iff. intros x Hx.
  apply existsb_exists. exists r. split; [by apply list_elem_of_In|].
  unfold in_region. apply andb_true_iff. rewrite !Z.leb_le. lia.
Qed.

Lemma range_mapped_regions u u' a n :
  mem_regions u' = mem_regions u -> range_mapped u' a n = range_mapped u a n.
Proof. unfold range_mapped. by intros ->. Qed.

Lemma range_mapped_sub u a n a' n' :
  range_mapped u a n = true -> a <= a' -> a' + n' <= a + n -> range_mapped u a' n' = true.
Proof.
  rewrite !range_mapped_iff. intros H H1 H2 x Hx. apply H. lia.
Qed.

(** ** Allocation shims and the size ceiling *)

(** What a method did to the region table: nothing, or one appended block
    of at most [bound] bytes. *)
Definition maps_at_most (bound : Z) (s s' : EmuHelper) : Prop :=
  mem_regions (uc s') = mem_regions (uc s) \/
  exists b sz, mem_regions (uc s') = mem_regions (uc s) ++ [(b, b + sz - 1)] /\ 0 < sz <= bound.

Definition keeps_regions {A} (m : M A) : Prop :=
  forall s, mem_regions (uc (m s).2) = mem_regions (uc s).

Definition maps_le {A} (bound : Z) (m : M A) : Prop :=
  forall s, maps_at_most bound s (m s).2.

Lemma keeps_bind {A B} (m : M A) (k : A -> M B) :
  keeps_regions m -> (forall a, keeps_regions (k a)) -> keeps_regions (mbind m k).
Proof.
  intros Hm Hk s. unfold mbind. specialize (Hm s).
  destruct (m s) as [[a|] s1]; simpl in *; [|done]. by rewrite Hk.
Qed.

Lemma keeps_then_maps {A B} bound (m : M A) (k : A -> M B) :
  keeps_regions m -> (forall a, maps_le bound (k a)) -> maps_le bound (mbind m k).
Proof.
  intros Hm Hk s. unfold mbind. specialize (Hm s).
  destruct (m s) as [[a|] s1]; simpl in *; [|by left].
  specialize (Hk a s1). unfold maps_at_most in *. by rewrite <- Hm.
Qed.

Lemma maps_then_keeps {A B} bound (m : M A) (k : A -> M B) :
  maps_le bound m -> (forall a, keeps_regions (k a)) -> maps_le bound (mbind m k).
Proof.
  intros Hm Hk s. unfold mbind. specialize (Hm s).
  destruct (m s) as [[a|] s1]; simpl in *; [|done].
  specialize (Hk a s1). unfold maps_at_most in *. by rewrite Hk.
Qed.

Lemma keeps_maps_le {A} bound (m : M A) : keeps_regions m -> maps_le bound m.
Proof. intros H s. left. apply H. Qed.

Lemma keeps_mret {A} (a : A) : keeps_regions (mret a).
Proof. done. Qed.
Lemma keeps_raise {A} : keeps_regions (@raise A).
Proof. done. Qed.
Lemma keeps_key {A} (v : option A) : keeps_regions (key v).
Proof. by destruct v. Qed.
Lemma keeps_arg argv i : keeps_regions (arg argv i).
Proof. apply keeps_key. Qed.
Lemma keeps_get_uc : keeps_regions get_uc.
Proof. done. Qed.
Lemma keeps_get_self : keeps_regions get_self.
Proof. done. Qed.
Lemma keeps_reg_write_ret v : keeps_regions (reg_write_ret v).
Proof. done. Qed.
Lemma keeps_set_allocMap k v : keeps_regions (set_allocMap k v).
Proof. done. Qed.

Lemma keeps_mem_read a n : keeps_regions (mem_read a n).
Proof. intros s. unfold mem_read. by destruct (uc_mem_read a n (uc s)). Qed.

Lemma keeps_mem_write a d : keeps_regions (mem_write a d).
Proof.
  intros s. unfold mem_write, lift_uc, uc_mem_write.
  by destruct (range_mapped (uc s) a _).
Qed.

Lemma keeps_try_except {A} (m h : M A) :
  keeps_regions m -> keeps_regions h -> keeps_regions (try_except m h).
Proof.
  intros Hm Hh s. unfold try_except. specialize (Hm s).
  destruct (m s) as [[a|] s1]; simpl in *; [done|]. by rewrite Hh.
Qed.

Lemma keeps_getEmuString a : keeps_regions (getEmuString a).
Proof. intros s. unfold getEmuString. by destruct (getEmuString_loop _ _ _ _) as [[?|]|]. Qed.

Lemma checkMemSize_spec n userData s :
  match _checkMemSize n userData s with
  | (Ok m, s') => s' = s /\ m = Z.min n MAX_ALLOC_SIZE /\
                  (MAX_ALLOC_SIZE < n -> currAddr userData <> None)
  | (Exc, s') => s' = s /\ MAX_ALLOC_SIZE < n /\ currAddr userData = None
  end.
Proof.
  unfold _checkMemSize. destruct (Z.gtb_spec n MAX_ALLOC_SIZE).
  - destruct (currAddr userData); simpl; (split; [done|]); split; try done; lia.
  - simpl. split; [done|]. split; lia.
Qed.

Lemma checkMemSize_ok n userData ca s :
  currAddr userData = Some ca -> _checkMemSize n userData s = (Ok (Z.min n MAX_ALLOC_SIZE), s).
Proof.
  intros Hca. unfold _checkMemSize. rewrite Hca.
  destruct (Z.gtb_spec n MAX_ALLOC_SIZE).
  - rewrite Z.min_r by lia. reflexivity.
  - rewrite Z.min_l by lia. reflexivity.
Qed.

Lemma checkMemSize_cases n userData s :
  _checkMemSize n userData s = (Ok (Z.min n MAX_ALLOC_SIZE), s) \/
  _checkMemSize n userData s = (Exc, s).
Proof.
  destruct (currAddr userData) as [ca|] eqn:E; [left; by apply (checkMemSize_ok _ _ ca)|].
  unfold _checkMemSize. rewrite E. destruct (Z.gtb_spec n MAX_ALLOC_SIZE); [by right|].
  left. rewrite Z.min_l by lia. reflexivity.
Qed.

Lemma checkMemSize_runs n userData s :
  (MAX_ALLOC_SIZE < n -> currAddr userData <> None) ->
  _checkMemSize n userData s = (Ok (Z.min n MAX_ALLOC_SIZE), s).
Proof.
  intros Hca. pose proof (checkMemSize_spec n userData s) as H.
  destruct (_checkMemSize n userData s) as [[m|] s'].
  - by destruct H as (-> & -> & _).
  - destruct H as (_ & Hn & Hnone). by destruct (Hca Hn).
Qed.

Lemma checkMemSize_small n userData s :
  n <= MAX_ALLOC_SIZE -> _checkMemSize n userData s = (Ok n, s).
Proof. intros Hn. unfold _checkMemSize. by destruct (Z.gtb_spec n MAX_ALLOC_SIZE); [lia|]. Qed.

Lemma keeps_checkMemSize n userData : keeps_regions (_checkMemSize n userData).
Proof.
  intros s. pose proof (checkMemSize_spec n userData s) as H.
  by destruct (_checkMemSize n userData s) as [[m|] s']; destruct H as [-> _].
Qed.

(** What follows [_checkMemSize] sees a size of at most the ceiling. *)
Lemma checked_then_maps {B} bound n userData (k : Z -> M B) :
  (forall m, m <= MAX_ALLOC_SIZE -> maps_le bound (k m)) ->
  maps_le bound (mbind (_checkMemSize n userData) k).
Proof.
  intros Hk s. unfold mbind. pose proof (checkMemSize_spec n userData s) as H.
  destruct (_checkMemSize n userData s) as [[m|] s'].
  - destruct H as (-> & -> & _). apply Hk. lia.
  - destruct H as (-> & _). by left.
Qed.

Lemma keeps_copyEmuMem dst src n userData : keeps_regions (copyEmuMem dst src n userData).
Proof.
  apply keeps_bind; [apply keeps_checkMemSize|]. intros size.
  apply keeps_try_except; [|apply keeps_raise].
  apply keeps_bind; [apply keeps_mem_read|]. intros. apply keeps_mem_write.
Qed.

Create HintDb regions.
#[local] Hint Resolve keeps_mret keeps_raise keeps_key keeps_arg keeps_get_uc keeps_get_self
  keeps_reg_write_ret keeps_set_allocMap keeps_mem_read keeps_mem_write keeps_getEmuString
  keeps_checkMemSize keeps_copyEmuMem : regions.

Lemma pageAlignUp_le x y : x <= y -> page_aligned y -> pageAlignUp x <= y.
Proof.
  intros Hxy Hy. pose proof (pageAlignUp_bounds x) as Hb.
  pose proof (pageAlignUp_aligned x) as Ha.
  apply aligned_multiple in Hy as [ky Hky]. apply aligned_multiple in Ha as [ka Hka].
  unfold PAGESIZE in *. lia.
Qed.

Lemma ceiling_aligned : page_aligned MAX_ALLOC_SIZE.
Proof. reflexivity. Qed.

Section ShimProperties.
Context (idb : Idb).

Lemma allocEmuMem_maps n addr : maps_le (pageAlignUp n) (allocEmuMem idb n addr).
Proof.
  intros s. rewrite allocEmuMem_unfold.
  pose proof (plan_size idb (uc s) n addr) as Hsz.
  destruct (allocEmuMem_plan idb (uc s) n addr) as [[base asz] a]. simpl in Hsz. subst asz.
  destruct (uc_mem_map base (pageAlignUp n) (uc s)) as [u'|] eqn:E; [|by left].
  right. exists base, (pageAlignUp n). simpl.
  apply uc_mem_map_spec in E as (-> & Hpos & _). split; [done|lia].
Qed.

Lemma maps_le_weaken {A} b b' (m : M A) : b <= b' -> maps_le b m -> maps_le b' m.
Proof.
  intros Hb Hm s. destruct (Hm s) as [H|(base & sz & H1 & H2)]; [by left|].
  right. exists base, sz. split; [done|lia].
Qed.

Lemma alloc_checked_maps m addr :
  m <= MAX_ALLOC_SIZE -> maps_le MAX_ALLOC_SIZE (allocEmuMem idb m addr).
Proof.
  intros Hm. eapply maps_le_weaken; [|apply allocEmuMem_maps].
  apply pageAlignUp_le; [done | apply ceiling_aligned].
Qed.

Ltac run_args :=
  unfold arg;
  repeat match goal with
         | |- context [key (?l !! ?i)] =>
             let v := eval cbn in (l !! i) in change (l !! i) with v
         end;
  unfold key; repeat change (mbind (mret ?v) ?k) with (k v); cbv beta.

Ltac regions_step :=
  first [ apply keeps_then_maps; [solve [auto with regions] | intros]
        | apply maps_then_keeps; [ | intros; solve [auto with regions] ]
        | apply keeps_bind; [solve [auto with regions] | intros] ].

Lemma checked_alloc_maps n userData addr (k : Z -> M unit) :
  (forall a, keeps_regions (k a)) ->
  maps_le MAX_ALLOC_SIZE
    (do allocSize <- _checkMemSize n userData;
     do memAddr <- allocEmuMem idb allocSize addr;
     k memAddr).
Proof.
  intros Hk. apply checked_then_maps. intros m Hm.
  apply maps_then_keeps; [by apply alloc_checked_maps | done].
Qed.

Lemma allocMem1_maps argv userData : maps_le MAX_ALLOC_SIZE (_allocMem1Hook idb argv userData).
Proof. unfold _allocMem1Hook. regions_step. apply checked_alloc_maps. auto with regions. Qed.

Lemma allocMem2_maps argv userData : maps_le MAX_ALLOC_SIZE (_allocMem2Hook idb argv userData).
Proof. unfold _allocMem2Hook. regions_step. apply checked_alloc_maps. auto with regions. Qed.

Lemma allocMem3_maps argv userData : maps_le MAX_ALLOC_SIZE (_allocMem3Hook idb argv userData).
Proof. unfold _allocMem3Hook. regions_step. apply checked_alloc_maps. auto with regions. Qed.

Lemma calloc_maps argv userData : maps_le MAX_ALLOC_SIZE (_callocHook idb argv userData).
Proof.
  unfold _callocHook. do 2 regions_step. cbv zeta. apply checked_alloc_maps. auto with regions.
Qed.

Lemma virtualAlloc_body_maps argv i userData :
  maps_le MAX_ALLOC_SIZE (virtualAlloc_body idb argv i userData).
Proof.
  unfold virtualAlloc_body. do 2 regions_step.
  destruct (allocMap _ !! _); [apply keeps_maps_le; auto with regions|].
  regions_step. apply checked_then_maps. intros m Hm.
  apply maps_then_keeps; [by apply alloc_checked_maps|].
  intros. apply keeps_bind; auto with regions.
Qed.

(** The realloc family sizes the new block to the larger of the truncated
    request and the block that holds the old pointer. *)
Lemma realloc_body_maps m ptr userData :
  m <= MAX_ALLOC_SIZE ->
  forall s, maps_at_most
    (Z.max MAX_ALLOC_SIZE
       (match getEmuMemRegion ptr (uc s) with
        | Some region => pageAlignUp (region.2 - region.1)
        | None => 0
        end)) s (realloc_body idb m ptr userData s).2.
Proof.
  intros Hm s. unfold realloc_body.
  change (mbind get_uc ?k s) with (k (uc s) s). cbv beta.
  destruct (getEmuMemRegion ptr (uc s)) as [region|].
  - set (bound := Z.max _ _).
    enough (maps_le bound
              (do memAddr <- allocEmuMem idb (Z.max (region.2 - region.1) m) None;
               run copyEmuMem memAddr region.1 (region.2 - region.1) userData;
               reg_write_ret memAddr)) as H by apply H.
    apply maps_then_keeps.
    + eapply maps_le_weaken; [|apply allocEmuMem_maps]. subst bound.
      pose proof (pageAlignUp_bounds (region.2 - region.1)).
      destruct (Z.max_spec (region.2 - region.1) m) as [[? ->]|[? ->]].
      * etrans; [apply pageAlignUp_le; [done | apply ceiling_aligned]|]. lia.
      * lia.
    + intros. apply keeps_bind; auto with regions.
  - enough (maps_le (Z.max MAX_ALLOC_SIZE 0)
              (do memAddr <- allocEmuMem idb m None; reg_write_ret memAddr))
      as H by apply H.
    eapply maps_le_weaken; [|regions_step; by apply alloc_checked_maps]. lia.
Qed.

Lemma reallocHook_maps argv userData s :
  match argv !! 0%nat with
  | Some ptr =>
      maps_at_most
        (Z.max MAX_ALLOC_SIZE
           (match getEmuMemRegion ptr (uc s) with
            | Some region => pageAlignUp (region.2 - region.1)
            | None => 0
            end)) s (_reallocHook idb argv userData s).2
  | None => mem_regions (uc (_reallocHook idb argv userData s).2) = mem_regions (uc s)
  end.
Proof.
  unfold _reallocHook, arg.
  destruct (argv !! 0%nat) as [ptr|]; destruct (argv !! 1%nat) as [n|]; cbn [key];
    try (by left); try done.
  - change (mbind (mret ?v) ?k s) with (k v s). cbv beta. unfold mbind at 1.
    pose proof (checkMemSize_spec n userData s) as Hc.
    destruct (_checkMemSize n userData s) as [[m|] s1];
      [destruct Hc as (-> & -> & _) | destruct Hc as (-> & _); by left].
    change (mbind (mret ?v) ?k s) with (k v s). cbv beta. apply realloc_body_maps. lia.
  - change (mbind (mret ?v) ?k s) with (k v s). cbv beta. unfold mbind at 1.
    pose proof (checkMemSize_spec n userData s) as Hc.
    by destruct (_checkMemSize n userData s) as [[m|] s1]; destruct Hc as (-> & _).
Qed.

Lemma heapReAllocHook_maps argv userData s :
  match argv !! 2%nat with
  | Some ptr =>
      maps_at_most
        (Z.max MAX_ALLOC_SIZE
           (match getEmuMemRegion ptr (uc s) with
            | Some region => pageAlignUp (region.2 - region.1)
            | None => 0
            end)) s (_heapReAllocHook idb argv userData s).2
  | None => mem_regions (uc (_heapReAllocHook idb argv userData s).2) = mem_regions (uc s)
  end.
Proof.
  unfold _heapReAllocHook, arg. cbv zeta.
  destruct (argv !! 2%nat) as [ptr|]; destruct (argv !! 1%nat) as [flags|]; cbn [key];
    try (by left); try done;
    change (mbind (mret ?v) ?k s) with (k v s); cbv beta;
    (destruct (negb _); [first [by left | done]|]);
    (destruct (argv !! 3%nat) as [n|]; cbn [key]; [|first [by left | done]]);
    change (mbind (mret ?v) ?k s) with (k v s); cbv beta; unfold mbind at 1;
    pose proof (checkMemSize_spec n userData s) as Hc;
    (destruct (_checkMemSize n userData s) as [[m|] s1];
      [destruct Hc as (-> & -> & _) | destruct Hc as (-> & _); first [by left | done]]).
  - change (mbind (mret ?v) ?k s) with (k v s). cbv beta. apply realloc_body_maps. lia.
  - done.
Qed.

Lemma alloc_grants s n addr :
  Forall region_ok (mem_regions (uc s)) -> 0 < n -> plan_fits idb (uc s) n addr ->
  exists a b u',
    allocEmuMem idb n addr s = (Ok a, mkEmu u' (allocMap s) (size_pointer s) (pageMask s)) /\
    mem_regions u' = mem_regions (uc s) ++ [(b, b + pageAlignUp n - 1)] /\
    mem_bytes u' = (fun x => if (b <=? x) && (x <? b + pageAlignUp n) then 0
                             else mem_bytes (uc s) x) /\
    (addr = None -> a = b).
Proof.
  intros Hok Hn Hfit.
  destruct (allocEmuMem_succeeds idb n addr s Hok Hn Hfit) as (a & u' & Hrun & Hmap & Ha).
  rewrite plan_size in Hmap. pose proof Hmap as Hspec.
  apply uc_mem_map_spec in Hspec as (Hr & _).
  exists a, (allocEmuMem_plan idb (uc s) n addr).1.1, u'. split; [done|]. split; [done|]. split.
  - unfold uc_mem_map in Hmap. destruct (_ && _) in Hmap; [|done]. by injection Hmap as <-.
  - intros ->. by subst a.
Qed.

(** The method returns normally and has mapped one block of [size] bytes;
    nothing else in the table changed. *)
Definition grants (size : Z) (s : EmuHelper) (m : M unit) : Prop :=
  exists s' b, m s = (Ok tt, s') /\
    mem_regions (uc s') = mem_regions (uc s) ++ [(b, b + size - 1)].

(** A request above the ceiling is granted, with a block of exactly the
    ceiling, by a hook that passes the truncated size to [allocEmuMem]. *)
Definition grants_ceiling (s : EmuHelper) (m : M unit) : Prop := grants MAX_ALLOC_SIZE s m.

Lemma alloc_then_ret_grants s n addr userData ca (k : Z -> M unit) :
  Forall region_ok (mem_regions (uc s)) -> MAX_ALLOC_SIZE < n ->
  currAddr userData = Some ca ->
  plan_fits idb (uc s) MAX_ALLOC_SIZE addr ->
  (forall a s1, exists s2, k a s1 = (Ok tt, s2) /\ mem_regions (uc s2) = mem_regions (uc s1)) ->
  grants_ceiling s (do allocSize <- _checkMemSize n userData;
                    do memAddr <- allocEmuMem idb allocSize addr;
                    k memAddr).
Proof.
  intros Hok Hn Hca Hfit Hk. unfold grants_ceiling, grants, mbind.
  rewrite (checkMemSize_ok n userData ca s Hca), Z.min_r by lia.
  destruct (alloc_grants s MAX_ALLOC_SIZE addr Hok) as (a & b & u' & Hrun & Hr & _);
    [done|done|].
  rewrite (pageAlignUp_fixed _ ceiling_aligned) in Hr. rewrite Hrun.
  destruct (Hk a (mkEmu u' (allocMap s) (size_pointer s) (pageMask s))) as (s2 & -> & Hs2).
  exists s2, b. split; [done|]. by rewrite Hs2.
Qed.

Lemma ret_keeps a s1 :
  exists s2, reg_write_ret a s1 = (Ok tt, s2) /\ mem_regions (uc s2) = mem_regions (uc s1).
Proof. eexists. split; reflexivity. Qed.

(** The block the realloc family maps for [ptr] when the request is above
    the ceiling: room for the larger of the ceiling and the region that
    holds [ptr]. *)
Definition realloc_block (ptr : Z) (u : Uc) : Z :=
  match getEmuMemRegion ptr u with
  | Some region => pageAlignUp (Z.max (region.2 - region.1) MAX_ALLOC_SIZE)
  | None => MAX_ALLOC_SIZE
  end.

Lemma realloc_body_grants s ptr userData ca :
  Forall region_ok (mem_regions (uc s)) -> currAddr userData = Some ca ->
  _findUnusedMemRegion idb (uc s) + realloc_block ptr (uc s) <= 2 ^ 64 ->
  grants (realloc_block ptr (uc s)) s (realloc_body idb MAX_ALLOC_SIZE ptr userData).
Proof.
  intros Hok Hca Hfit. unfold grants, realloc_body, realloc_block in *.
  change (mbind get_uc ?k s) with (k (uc s) s). cbv beta.
  destruct (getEmuMemRegion ptr (uc s)) as [[lo hi]|] eqn:Hreg.
  - cbn [fst snd] in *.
    pose proof Hreg as Hin. unfold getEmuMemRegion in Hin.
    destruct (find _ (mem_regions (uc s))) as [r|] eqn:Hfind; [|done].
    injection Hin as <- <-. apply find_some in Hfind as [Hin Hr].
    apply andb_true_iff in Hr as [Hr1 Hr2].
    rewrite Z.geb_leb, Z.leb_le in Hr1. apply Z.ltb_lt in Hr2.
    set (old := r.2 + 1 - r.1) in *. set (n := Z.max old MAX_ALLOC_SIZE) in *.
    destruct (alloc_grants s n None Hok) as (a & b & u' & Hrun & Hr' & Hb' & Hab);
      [unfold n, MAX_ALLOC_SIZE; lia | by apply plan_fits_None |].
    specialize (Hab eq_refl). subst a.
    unfold mbind at 1. rewrite Hrun. set (s1 := mkEmu u' _ _ _).
    unfold copyEmuMem, mbind at 1 2.
    rewrite (checkMemSize_ok old userData ca s1 Hca).
    set (m := Z.min old MAX_ALLOC_SIZE).
    assert (0 <= m <= old) as Hm by (unfold m, old, MAX_ALLOC_SIZE; lia).
    pose proof (pageAlignUp_bounds n) as Hn.
    assert (range_mapped (uc s1) r.1 m = true) as Hsrc.
    { apply (range_in_region _ r); [|lia|unfold old in Hm; lia].
      cbn [s1 uc]. rewrite Hr'. apply elem_of_app. left. by apply list_elem_of_In. }
    assert (range_mapped (uc s1) b m = true) as Hdst.
    { apply (range_in_region _ (b, b + pageAlignUp n - 1)); cbn [fst snd]; [|lia|].
      - cbn [s1 uc]. rewrite Hr'. apply elem_of_app. right. left.
      - pose proof (Z.le_max_l old MAX_ALLOC_SIZE). fold n in H. lia. }
    unfold try_except, mbind, mem_read, uc_mem_read. rewrite Hsrc.
    unfold mem_write, lift_uc, uc_mem_write.
    assert (Z.of_nat (length (map (mem_bytes (uc s1)) (seqZ' r.1 (Z.to_nat m)))) = m) as ->.
    { unfold seqZ'. rewrite !length_map, length_seq. lia. }
    rewrite Hdst. eexists _, b. split; [reflexivity|]. cbn [uc mem_regions s1].
    by rewrite Hr'.
  - destruct (alloc_grants s MAX_ALLOC_SIZE None Hok) as (a & b & u' & Hrun & Hr' & _);
      [done | by apply plan_fits_None |].
    rewrite (pageAlignUp_fixed _ ceiling_aligned) in Hr'.
    unfold mbind. rewrite Hrun. eexists _, b. split; [reflexivity|]. done.
Qed.

(** C4 (amended). Every size the allocation shims receive goes through
    [_checkMemSize]: with the current instruction recorded in [userData], a
    request above MAX_ALLOC_SIZE becomes the ceiling.  Such a request is then
    granted, never refused, whenever the block to map fits the 64-bit address
    space of the engine: by the malloc-like, calloc and VirtualAlloc shims
    with a block of exactly the ceiling (itself a whole number of pages), and
    by the realloc-like shims with a block for the larger of the ceiling and
    the region that holds the old pointer.  Whatever the arguments and
    whatever [userData] holds, the malloc-like, calloc and VirtualAlloc shims
    map at most one block, of at most the ceiling, and the realloc-like shims
    at most one block, bounded by the larger of the ceiling and the size of
    the region that holds the old pointer. *)
Theorem alloc_shims_truncate_to_ceiling s userData ca n a0 a1 rest :
  Forall region_ok (mem_regions (uc s)) ->
  currAddr userData = Some ca ->
  MAX_ALLOC_SIZE < n ->
  allocMap s !! a0 = None ->
  _findUnusedMemRegion idb (uc s) + MAX_ALLOC_SIZE <= 2 ^ 64 ->
  0 <= a0 /\ a0 + MAX_ALLOC_SIZE <= 2 ^ 64 ->
  _checkMemSize n userData s = (Ok MAX_ALLOC_SIZE, s) /\
  pageAlignUp MAX_ALLOC_SIZE = MAX_ALLOC_SIZE /\
  grants_ceiling s (_allocMem1Hook idb (n :: rest) userData) /\
  grants_ceiling s (_allocMem2Hook idb (a0 :: n :: rest) userData) /\
  grants_ceiling s (_allocMem3Hook idb (a0 :: a1 :: n :: rest) userData) /\
  grants_ceiling s (_callocHook idb (n :: 1 :: rest) userData) /\
  grants_ceiling s (_virtualAllocHook idb (a0 :: n :: rest) userData) /\
  grants_ceiling s (_virtualAllocExHook idb (a1 :: a0 :: n :: rest) userData) /\
  (forall ptr flags h tl,
     Z.land flags 0x10 = 0 ->
     _findUnusedMemRegion idb (uc s) + realloc_block ptr (uc s) <= 2 ^ 64 ->
     grants (realloc_block ptr (uc s)) s (_reallocHook idb (ptr :: n :: tl) userData) /\
     grants (realloc_block ptr (uc s)) s
            (_heapReAllocHook idb (h :: flags :: ptr :: n :: tl) userData)) /\
  (forall argv ud,
     maps_at_most MAX_ALLOC_SIZE s (_allocMem1Hook idb argv ud s).2 /\
     maps_at_most MAX_ALLOC_SIZE s (_allocMem2Hook idb argv ud s).2 /\
     maps_at_most MAX_ALLOC_SIZE s (_allocMem3Hook idb argv ud s).2 /\
     maps_at_most MAX_ALLOC_SIZE s (_callocHook idb argv ud s).2 /\
     maps_at_most MAX_ALLOC_SIZE s (_virtualAllocHook idb argv ud s).2 /\
     maps_at_most MAX_ALLOC_SIZE s (_virtualAllocExHook idb argv ud s).2) /\
  (forall ptr m flags h tl ud,
     let old := match getEmuMemRegion ptr (uc s) with
                | Some region => pageAlignUp (region.2 - region.1)
                | None => 0
                end in
     maps_at_most (Z.max MAX_ALLOC_SIZE old) s (_reallocHook idb (ptr :: m :: tl) ud s).2 /\
     maps_at_most (Z.max MAX_ALLOC_SIZE old) s
                  (_heapReAllocHook idb (h :: flags :: ptr :: m :: tl) ud s).2).
Proof.
  intros Hok Hca Hn Hfree Hroom [Ha0 Ha0'].
  assert (_checkMemSize n userData s = (Ok MAX_ALLOC_SIZE, s)) as Hcheck.
  { rewrite (checkMemSize_ok n userData ca s Hca). do 2 f_equal. lia. }
  assert (forall addr, addr = None \/ addr = Some a0 ->
            plan_fits idb (uc s) MAX_ALLOC_SIZE addr) as Hfits.
  { intros addr [-> | ->]; unfold plan_fits, allocEmuMem_plan.
    - cbn [fst snd]. by rewrite (pageAlignUp_fixed _ ceiling_aligned).
    - rewrite (pageAlignUp_fixed _ ceiling_aligned).
      destruct (isValid_loop _ _ _); cbn [fst snd]; [|done].
      assert (a0 < 2 ^ 64) by (unfold MAX_ALLOC_SIZE in *; lia).
      rewrite pageAlign_in_range by lia.
      pose proof (Z.mod_pos_bound a0 PAGESIZE eq_refl). lia. }
  split; [done|].
  split; [apply pageAlignUp_fixed, ceiling_aligned|].
  split; [eapply alloc_then_ret_grants; eauto using ret_keeps|].
  split; [eapply alloc_then_ret_grants; eauto using ret_keeps|].
  split; [eapply alloc_then_ret_grants; eauto using ret_keeps|].
  split.
  { unfold _callocHook. run_args. cbv zeta.
    rewrite Z.mul_1_r. eapply alloc_then_ret_grants; eauto using ret_keeps. }
  assert (forall i pre, length pre = i ->
            grants_ceiling s (virtualAlloc_body idb (pre ++ a0 :: n :: rest) i userData)) as Hva.
  { intros i pre Hi.
    assert ((pre ++ a0 :: n :: rest) !! i = Some a0) as H1 by by apply list_lookup_middle.
    assert ((pre ++ a0 :: n :: rest) !! S i = Some n) as H2.
    { rewrite cons_middle, app_assoc.
      apply list_lookup_middle. rewrite length_app. simpl. lia. }
    destruct (alloc_then_ret_grants s n (Some a0) userData ca
                (fun memAddr => run set_allocMap a0 (memAddr, MAX_ALLOC_SIZE);
                                reg_write_ret memAddr) Hok Hn Hca (Hfits _ (or_intror eq_refl)))
      as (s' & b & Hrun & Hr).
    { intros a s1. eexists. split; reflexivity. }
    exists s', b. split; [|done]. rewrite <- Hrun.
    unfold virtualAlloc_body, arg. rewrite H1, H2.
    cbv [mbind key mret get_self]. rewrite Hfree, Hcheck. reflexivity. }
  split; [apply (Hva 0%nat []); done|].
  split; [apply (Hva 1%nat [a1]); done|].
  split; [|split].
  - intros ptr flags h tl Hflags Hblock.
    pose proof (realloc_body_grants s ptr userData ca Hok Hca Hblock) as Hg.
    unfold grants in *. split.
    + unfold _reallocHook. run_args. unfold mbind at 1. cbv beta. by rewrite Hcheck.
    + unfold _heapReAllocHook. run_args. rewrite Hflags. cbn [Z.eqb negb].
      unfold mbind at 1. cbv beta. by rewrite Hcheck.
  - intros argv ud.
    split; [apply allocMem1_maps|]. split; [apply allocMem2_maps|].
    split; [apply allocMem3_maps|]. split; [apply calloc_maps|].
    split; apply virtualAlloc_body_maps.
  - intros ptr m flags h tl ud old. split.
    + apply (reallocHook_maps (ptr :: m :: tl) ud s).
    + apply (heapReAllocHook_maps (h :: flags :: ptr :: m :: tl) ud s).
Qed.

End ShimProperties.

(** ** Witnesses and counterexample for the memory manager *)

Lemma s_image_wf : uc_wf (uc s_image).
Proof.
  split.
  - constructor; [|constructor]. unfold region_ok, page_aligned. cbn [fst snd].
    split; [reflexivity|]. split; [reflexivity|]. split; [lia | reflexivity].
  - simpl. split; [constructor | exact I].
Defined.

Lemma s_big_wf : uc_wf (uc s_big).
Proof.
  split.
  - constructor; [|constructor]. unfold region_ok, page_aligned. cbn [fst snd].
    split; [reflexivity|]. split; [reflexivity|]. split; [lia | reflexivity].
  - simpl. split; [constructor | exact I].
Defined.



Example allocEmuMem_plan_collision :
  allocEmuMem_plan idb0 (uc s_image) 0x20 (Some 0x400010) = (0x402000, 0x1000, 0x402010).
Proof. reflexivity. Qed.

Example allocEmuMem_plan_honoured :
  allocEmuMem_plan idb0 (uc s_image) 0x20 (Some 0x500010) = (0x500000, 0x1000, 0x500010).
Proof. reflexivity. Qed.

(** At the top of the address space the engine refuses what the table alone
    would allow: a two-page block asked for at the last page. *)
Example allocEmuMem_refused_at_top :
  allocEmuMem_plan idb0 (uc s_image) 0x2000 (Some 0xfffffffffffff000)
  = (0xfffffffffffff000, 0x2000, 0xfffffffffffff000) /\
  allocEmuMem idb0 0x2000 (Some 0xfffffffffffff000) s_image = (Exc, s_image).
Proof. split; reflexivity. Qed.


Lemma alloc_shims_truncate_to_ceiling_witness :
  Forall region_ok (mem_regions (uc s_image)) /\
  currAddr ud_at_call = Some 0x400100 /\
  MAX_ALLOC_SIZE < 2 ^ 40 /\
  allocMap s_image !! 0x500000 = None /\
  grants_ceiling s_image (_allocMem1Hook idb0 [2 ^ 40] ud_at_call) /\
  grants_ceiling s_image (_virtualAllocHook idb0 [0x500000; 2 ^ 40] ud_at_call) /\
  grants (realloc_block 0x400010 (uc s_image)) s_image
         (_reallocHook idb0 [0x400010; 2 ^ 40] ud_at_call) /\
  maps_at_most MAX_ALLOC_SIZE s_image (_reallocHook idb0 [0x400010; 2 ^ 40] ud_at_call s_image).2.
Proof.
  assert (MAX_ALLOC_SIZE < 2 ^ 40) as Hn by reflexivity.
  assert (allocMap s_image !! 0x500000 = None) as Hfree by reflexivity.
  split; [exact (proj1 s_image_wf)|]. split; [reflexivity|].
  split; [exact Hn|]. split; [exact Hfree|].
  destruct (alloc_shims_truncate_to_ceiling idb0 s_image ud_at_call 0x400100 (2 ^ 40)
              0x500000 0 [] (proj1 s_image_wf) eq_refl Hn Hfree)
    as (_ & _ & H1 & _ & _ & _ & H5 & _ & H7 & _ & H9).
  { apply Z.leb_le. reflexivity. }
  { split; [lia | apply Z.leb_le; reflexivity]. }
  split; [exact H1|]. split; [exact H5|]. split.
  - apply (H7 0x400010 0 0 []); [reflexivity | apply Z.leb_le; reflexivity].
  - exact (proj1 (H9 0x400010 (2 ^ 40) 0 0 [] ud_at_call)).
Defined.

Example allocMem1Hook_above_ceiling :
  let s' := (_allocMem1Hook idb0 [2 ^ 40] ud_at_call s_image).2 in
  mem_regions (uc s') = [(0x400000, 0x400fff); (0x402000, 0xe01fff)] /\
  reg_ret (uc s') = 0x402000.
Proof. split; reflexivity. Qed.

(** Without the current instruction in [userData] the truncating branch
    raises before anything is mapped. *)
Example allocMem1Hook_without_currAddr :
  _allocMem1Hook idb0 [2 ^ 40] (mkUserData None None ∅ None None) s_image = (Exc, s_image).
Proof. reflexivity. Qed.

Section ReallocBeyondCeiling.
Context (idb : Idb).

Lemma reallocHook_unfold ptr n tl userData ca s :
  currAddr userData = Some ca ->
  _reallocHook idb (ptr :: n :: tl) userData s
  = realloc_body idb (Z.min n MAX_ALLOC_SIZE) ptr userData s.
Proof.
  intros Hca. unfold _reallocHook, arg. cbn [lookup list_lookup key].
  change (mbind (mret ?v) ?k s) with (k v s). cbv beta.
  unfold mbind at 1. by rewrite (checkMemSize_ok n userData ca s Hca).
Qed.

End ReallocBeyondCeiling.

(** C4, as stated, fails: realloc of a pointer into a 16 MiB block maps a
    new 16 MiB block, above the page-aligned ceiling of 10 MiB. *)
Lemma realloc_exceeds_ceiling :
  ~ (forall (idb : Idb) (s : EmuHelper) (argv : list Z) (userData : UserData),
       uc_wf (uc s) ->
       maps_at_most (pageAlignUp MAX_ALLOC_SIZE) s (_reallocHook idb argv userData s).2).
Proof.
  intros H. specialize (H idb0 s_big [0x400000; 2 ^ 40] ud_at_call s_big_wf).
  destruct (realloc_body_grants idb0 s_big 0x400000 ud_at_call 0x400100
              (proj1 s_big_wf) eq_refl) as (s' & b & Hrun & Hb).
  { apply Z.leb_le. reflexivity. }
  rewrite (reallocHook_unfold idb0 0x400000 (2 ^ 40) [] ud_at_call 0x400100 s_big eq_refl) in H.
  change (Z.min (2 ^ 40) MAX_ALLOC_SIZE) with MAX_ALLOC_SIZE in H. rewrite Hrun in H.
  cbn [snd] in H. unfold maps_at_most in H. rewrite Hb in H.
  destruct H as [H | (b' & sz & H & Hsz)].
  - apply (f_equal length) in H. rewrite length_app in H. simpl in H. lia.
  - apply app_inj_tail in H as [_ H]. injection H as -> H.
    change (realloc_block 0x400000 _) with 0x1000000 in H.
    change (pageAlignUp MAX_ALLOC_SIZE) with 0xa00000 in Hsz. lia.
Qed.

(** ** Engine writes *)

Lemma store_bytes_spec data : forall address m a,
  store_bytes address data m a =
  if (address <=? a) && (a <? address + Z.of_nat (length data))
  then nth (Z.to_nat (a - address)) data 0 else m a.
Proof.
  induction data as [|b data IH]; intros address m a; simpl store_bytes.
  - cbn [length]. destruct (Z.leb_spec address a), (Z.ltb_spec a (address + Z.of_nat 0));
      simpl; try done; lia.
  - rewrite IH. cbn [length]. rewrite Nat2Z.inj_succ.
    destruct (Z.leb_spec (address + 1) a), (Z.ltb_spec a (address + 1 + Z.of_nat (length data)));
      destruct (Z.leb_spec address a), (Z.ltb_spec a (address + Z.succ (Z.of_nat (length data))));
      cbn [andb]; try lia.
    all: try (destruct (Z.eqb_spec a address); [lia|done]).
    + replace (Z.to_nat (a - address)) with (S (Z.to_nat (a - (address + 1)))) by lia. done.
    + assert (a = address) as -> by lia. rewrite Z.eqb_refl, Z.sub_diag. done.
Qed.

Lemma store_bytes_outside data address m a :
  ~ (address <= a < address + Z.of_nat (length data)) -> store_bytes address data m a = m a.
Proof.
  intros H. rewrite store_bytes_spec.
  destruct (Z.leb_spec address a), (Z.ltb_spec a (address + Z.of_nat (length data))); simpl; try done.
  lia.
Qed.

Lemma find_in_region_snoc rs a r :
  existsb (in_region a) rs = false -> in_region a r = true ->
  find (in_region a) (rs ++ [r]) = Some r.
Proof.
  induction rs as [|r0 rs IH]; simpl; intros H1 H2.
  - by rewrite H2.
  - apply orb_false_iff in H1 as [H0 H1]. rewrite H0. by apply IH.
Qed.

Lemma in_region_meets a size r : 0 < size -> in_region a r = true -> meets a size r = true.
Proof.
  unfold in_region, meets. rewrite !andb_true_iff, !Z.leb_le, !Z.ltb_lt. lia.
Qed.

(** A block that was just mapped can be written in full. *)
Lemma fresh_block_mapped address size u u' n :
  uc_mem_map address size u = Some u' -> 0 <= n <= size ->
  range_mapped u' address n = true.
Proof.
  intros Hm Hn. apply uc_mem_map_spec in Hm as (Hr & Hpos & _ & _ & _ & Hex & _).
  unfold range_mapped. rewrite Hr, length_app. simpl length.
  replace (length (mem_regions u) + 1)%nat with (S (length (mem_regions u))) by lia.
  simpl covered. destruct (Z.leb_spec (address + n) address); [done|].
  rewrite (find_in_region_snoc _ _ (address, address + size - 1)).
  - simpl. destruct (length (mem_regions u)); simpl;
      destruct (Z.leb_spec (address + n) (address + size - 1 + 1)); try done; lia.
  - apply not_true_is_false. intros He. apply existsb_exists in He as (r & Hin & Hr0).
    assert (existsb (meets address size) (mem_regions u) = true); [|congruence].
    apply existsb_exists. exists r. split; [done|]. by apply in_region_meets.
  - unfold in_region. simpl. apply andb_true_iff. rewrite !Z.leb_le. lia.
Qed.

(** ** The invalid-memory hook *)

Lemma land_pageMask (mask bits address : Z) :
  mask = Z.ldiff (Z.ones bits) (Z.ones 12) -> 12 <= bits -> 0 <= address < 2 ^ bits ->
  Z.land address mask = address - address mod PAGESIZE.
Proof.
  intros -> Hb Hr.
  assert (Z.land address (Z.ldiff (Z.ones bits) (Z.ones 12))
          = Z.ldiff (Z.land address (Z.ones bits)) (Z.ones 12)) as ->.
  { apply Z.bits_inj'. intros n Hn.
    rewrite Z.land_spec, !Z.ldiff_spec, Z.land_spec. by rewrite andb_assoc. }
  rewrite Z.land_ones, Z.ldiff_ones_r by lia.
  rewrite Z.shiftl_mul_pow2, Z.shiftr_div_pow2 by lia.
  rewrite Z.mod_small by done. unfold PAGESIZE. change (2 ^ 12) with 4096.
  pose proof (Z.div_mod address 4096). lia.
Qed.

(** C6. With the current instruction recorded in [userData], the hook always
    returns True.  When the engine accepts the mapping of the page that holds
    the faulting address, exactly that page is added, every byte of it is
    zero, no other byte changes and the program counter is left alone; only
    when the mapping call raises is the table left as it was and the program
    counter set to the current address plus the current instruction size. *)
Theorem hookMemInvalid_maps_page s address userData ca cs :
  currAddr userData = Some ca ->
  currAddrSize userData = Some cs ->
  (pageMask s = 0xfffffffffffff000 /\ 0 <= address < 2 ^ 64) \/
  (pageMask s = 0xfffff000 /\ 0 <= address < 2 ^ 32) ->
  let page := address - address mod PAGESIZE in
  page_aligned page /\ page <= address < page + PAGESIZE /\
  exists s', _hookMemInvalid address userData s = (Ok true, s') /\
    match uc_mem_map page PAGESIZE (uc s) with
    | Some _ =>
        mem_regions (uc s') = mem_regions (uc s) ++ [(page, page + PAGESIZE - 1)] /\
        (forall a, page <= a < page + PAGESIZE -> mem_bytes (uc s') a = 0) /\
        (forall a, ~ (page <= a < page + PAGESIZE) -> mem_bytes (uc s') a = mem_bytes (uc s) a) /\
        reg_pc (uc s') = reg_pc (uc s)
    | None =>
        mem_regions (uc s') = mem_regions (uc s) /\
        (forall a, mem_bytes (uc s') a = mem_bytes (uc s) a) /\
        reg_pc (uc s') = ca + cs
    end.
Proof.
  intros Hca Hcs Hmask page.
  assert (Z.land address (pageMask s) = page) as Hpage.
  { destruct Hmask as [[-> Hr] | [-> Hr]].
    - by apply (land_pageMask _ 64).
    - by apply (land_pageMask _ 32). }
  pose proof (Z.mod_pos_bound address PAGESIZE eq_refl) as Hmod.
  split.
  { apply aligned_multiple. exists (address / PAGESIZE).
    subst page. pose proof (Z.div_mod address PAGESIZE). unfold PAGESIZE in *. lia. }
  split; [subst page; lia|].
  unfold _hookMemInvalid. rewrite Hca, Hcs.
  cbv [key mbind mret get_self try_except mem_map mem_write lift_uc]. rewrite Hpage.
  destruct (uc_mem_map page PAGESIZE (uc s)) as [u1|] eqn:Hmap.
  - cbn [uc]. unfold uc_mem_write. rewrite repeat_length.
    rewrite (fresh_block_mapped page PAGESIZE (uc s) u1) by (done || (unfold PAGESIZE; lia)).
    eexists. split; [reflexivity|]. cbn [uc mem_regions mem_bytes reg_pc].
    pose proof Hmap as Hspec. apply uc_mem_map_spec in Hspec as (Hr & _).
    unfold uc_mem_map in Hmap. destruct (_ && _) in Hmap; [|done].
    injection Hmap as <-. cbn [mem_regions mem_bytes reg_pc] in *.
    split; [done|]. split; [|split; [|done]].
    + intros a Ha. rewrite store_bytes_spec, repeat_length.
      destruct (Z.leb_spec page a), (Z.ltb_spec a (page + Z.of_nat (Z.to_nat PAGESIZE)));
        cbn [andb]; try (exfalso; unfold PAGESIZE in *; lia).
      apply nth_repeat.
    + intros a Ha. rewrite store_bytes_outside by (rewrite repeat_length; unfold PAGESIZE in *; lia).
      destruct (Z.leb_spec page a), (Z.ltb_spec a (page + PAGESIZE)); cbn [andb]; try done. lia.
  - eexists. split; [reflexivity|]. done.
Qed.

Lemma hookMemInvalid_maps_page_witness :
  currAddr (mkUserData (Some 0x400100) (Some 3) ∅ None None) = Some 0x400100 /\
  currAddrSize (mkUserData (Some 0x400100) (Some 3) ∅ None None) = Some 3 /\
  exists s', _hookMemInvalid 0x7ffe1234 (mkUserData (Some 0x400100) (Some 3) ∅ None None) s_image
             = (Ok true, s') /\
    mem_regions (uc s') = mem_regions (uc s_image) ++ [(0x7ffe1000, 0x7ffe1fff)].
Proof.
  split; [reflexivity|]. split; [reflexivity|].
  destruct (hookMemInvalid_maps_page s_image 0x7ffe1234
              (mkUserData (Some 0x400100) (Some 3) ∅ None None) 0x400100 3 eq_refl eq_refl)
    as (_ & _ & s' & Hrun & Hcase).
  { left. split; [reflexivity|]. split; [discriminate | reflexivity]. }
  exists s'. split; [exact Hrun|]. exact (proj1 Hcase).
Defined.

Example hookMemInvalid_skips_when_mapped :
  let s' := (_hookMemInvalid 0x400ffe (mkUserData (Some 0x400100) (Some 3) ∅ None None) s_image).2 in
  mem_regions (uc s') = mem_regions (uc s_image) /\ reg_pc (uc s') = 0x400103.
Proof. split; reflexivity. Qed.

(** ** Name normalisation *)

(** The decorations the normalisation removes: an optional [j_] thunk prefix
    and leading underscores in front, an optional [_l] and an optional
    [_<digits>] behind (an empty [ds] stands for no numeric suffix). *)
Definition decorate (j : bool) (k : nat) (l : bool) (ds : list ascii) (base : list ascii)
  : list ascii :=
  ((if j then ["j"; "_"]%char else []) ++ repeat underscore k)
  ++ base
  ++ ((if l then ["_"; "l"]%char else []) ++ match ds with [] => [] | _ => underscore :: ds end).

(** A name that carries none of the decorations itself. *)
Definition plain_head (base : list ascii) : bool :=
  match base with
  | [] => false
  | c :: r =>
      negb (Ascii.eqb c underscore)
      && negb (Ascii.eqb c "j"%char
               && match r with c2 :: _ => Ascii.eqb c2 underscore | [] => false end)
  end.

Definition plain_tail (base : list ascii) : bool :=
  match rev base with
  | [] => false
  | c :: r =>
      negb (is_digit c) && negb (Ascii.eqb c newline)
      && (negb (Ascii.eqb c "l"%char)
          || match r with c2 :: _ => negb (Ascii.eqb c2 underscore) | [] => false end)
  end.

Lemma at_dollar_plain sub x c :
  Ascii.eqb c newline = false -> at_dollar sub (x ++ [c]) = sub (x ++ [c]).
Proof. intros H. unfold at_dollar. rewrite rev_unit. by rewrite H. Qed.

Lemma drop_digits_run ds r :
  forallb is_digit ds = true -> drop_digits (rev ds ++ underscore :: r) = underscore :: r.
Proof.
  intros H. assert (forallb is_digit (rev ds) = true) as Hr.
  { apply forallb_forall. intros c Hc. apply in_rev in Hc.
    by apply (proj1 (forallb_forall _ _) H). }
  clear H. induction (rev ds) as [|d l IH]; simpl in *; [done|].
  apply andb_true_iff in Hr as [-> Hr]. by apply IH.
Qed.

Lemma sub_num_strips x d ds :
  forallb is_digit (d :: ds) = true -> sub_num (x ++ underscore :: d :: ds) = x.
Proof.
  intros H. unfold sub_num.
  assert (exists c l, rev (d :: ds) = c :: l /\ is_digit c = true) as (c & l & Hrev & Hc).
  { destruct (rev (d :: ds)) as [|c l] eqn:E.
    - apply (f_equal (@length _)) in E. rewrite length_rev in E. done.
    - exists c, l. split; [done|]. apply (proj1 (forallb_forall _ _) H).
      apply in_rev. rewrite E. by left. }
  assert (rev (x ++ underscore :: d :: ds) = rev (d :: ds) ++ underscore :: rev x) as Hr.
  { rewrite rev_app_distr. change (underscore :: d :: ds) with ([underscore] ++ (d :: ds)).
    rewrite rev_app_distr. simpl rev at 2. by rewrite <- app_assoc. }
  rewrite Hr, (drop_digits_run (d :: ds)) by done. rewrite Hrev. cbn [app].
  rewrite Hc, Ascii.eqb_refl. apply rev_involutive.
Qed.

Lemma sub_num_keeps x c : is_digit c = false -> sub_num (x ++ [c]) = x ++ [c].
Proof. intros H. unfold sub_num. rewrite rev_unit. by rewrite H. Qed.

Lemma sub_l_strips x : sub_l (x ++ ["_"; "l"]%char) = x.
Proof.
  unfold sub_l. change ["_"; "l"]%char with (["_"]%char ++ ["l"]%char).
  rewrite app_assoc, !rev_unit. simpl. apply rev_involutive.
Qed.

Lemma sub_l_keeps x : 
  match rev x with
  | c :: c2 :: _ => Ascii.eqb c "l"%char && Ascii.eqb c2 underscore = false
  | _ => True
  end -> sub_l x = x.
Proof. unfold sub_l. destruct (rev x) as [|c [|c2 r]]; try done. by intros ->. Qed.

Lemma lstrip_repeat k base :
  plain_head base = true -> lstrip_underscores (repeat underscore k ++ base) = base.
Proof.
  intros H. induction k as [|k IH]; simpl.
  - destruct base as [|c r]; [done|]. simpl in *.
    apply andb_true_iff in H as [H _]. apply negb_true_iff in H. by rewrite H.
  - done.
Qed.

Lemma strip_j_lstrip (j : bool) k base :
  plain_head base = true ->
  lstrip_underscores (strip_j ((if j then ["j"; "_"]%char else []) ++ repeat underscore k ++ base))
  = base.
Proof.
  intros H. destruct j.
  - simpl. by apply lstrip_repeat.
  - cbn [app]. destruct k as [|k]; cbn [repeat app].
    + destruct base as [|c [|c2 r]]; [done|..]; simpl in *.
      * apply andb_true_iff in H as [H _]. apply negb_true_iff in H. by rewrite H.
      * apply andb_true_iff in H as [H1 H2]. apply negb_true_iff in H1, H2.
        rewrite H2. simpl. by rewrite H1.
    + assert (strip_j (underscore :: repeat underscore k ++ base)
              = underscore :: repeat underscore k ++ base) as ->.
      { unfold strip_j. by destruct (repeat underscore k ++ base). }
      cbn [lstrip_underscores]. rewrite Ascii.eqb_refl. by apply lstrip_repeat.
Qed.

Lemma plain_tail_split base :
  plain_tail base = true ->
  exists x c, base = x ++ [c] /\ is_digit c = false /\ Ascii.eqb c newline = false /\
    (Ascii.eqb c "l"%char = false \/ exists y c2, x = y ++ [c2] /\ Ascii.eqb c2 underscore = false).
Proof.
  unfold plain_tail. destruct (rev base) as [|c r] eqn:E; [done|].
  intros H. apply andb_true_iff in H as [H H3]. apply andb_true_iff in H as [H1 H2].
  apply negb_true_iff in H1, H2.
  assert (base = rev r ++ [c]) as Hb.
  { rewrite <- (rev_involutive base), E. done. }
  exists (rev r), c. split; [done|]. split; [done|]. split; [done|].
  apply orb_true_iff in H3 as [H3|H3]; [left; by apply negb_true_iff|].
  destruct r as [|c2 r']; [done|]. right. exists (rev r'), c2.
  split; [done|]. by apply negb_true_iff.
Qed.

(** After the suffixes are gone the two [re.sub] calls leave a plain name,
    whatever stands in front of it, alone. *)
Lemma suffix_passes_keep pre base :
  plain_tail base = true ->
  at_dollar sub_num (pre ++ base) = pre ++ base /\ at_dollar sub_l (pre ++ base) = pre ++ base.
Proof.
  intros H. destruct (plain_tail_split base H) as (x & c & -> & Hd & Hn & Hl).
  rewrite app_assoc. rewrite !at_dollar_plain by done. split; [by apply sub_num_keeps|].
  apply sub_l_keeps. rewrite rev_unit.
  destruct (rev (pre ++ x)) as [|c2 r] eqn:E; [done|].
  destruct Hl as [-> | (y & c2' & -> & Hc2)]; [done|].
  rewrite app_assoc, rev_unit in E. injection E as <- _. rewrite Hc2. apply andb_false_r.
Qed.

Lemma at_dollar_l x : at_dollar sub_l (x ++ ["_"; "l"]%char) = x.
Proof.
  change ["_"; "l"]%char with (["_"]%char ++ ["l"]%char).
  rewrite app_assoc, at_dollar_plain by done. rewrite <- app_assoc. apply sub_l_strips.
Qed.

Lemma at_dollar_num_keeps_l x :
  at_dollar sub_num (x ++ ["_"; "l"]%char) = x ++ ["_"; "l"]%char.
Proof.
  change ["_"; "l"]%char with (["_"]%char ++ ["l"]%char).
  rewrite app_assoc, at_dollar_plain by done. by apply sub_num_keeps.
Qed.

Lemma at_dollar_num x d ds :
  forallb is_digit (d :: ds) = true -> at_dollar sub_num (x ++ underscore :: d :: ds) = x.
Proof.
  intros Hds.
  assert (exists y c, underscore :: d :: ds = y ++ [c] /\ is_digit c = true) as (y & c & Hy & Hc).
  { destruct (rev (d :: ds)) as [|c r] eqn:E.
    - apply (f_equal (@length _)) in E. rewrite length_rev in E. done.
    - exists (underscore :: rev r), c. split.
      + rewrite <- (rev_involutive (d :: ds)), E. done.
      + apply (proj1 (forallb_forall _ _) Hds). apply in_rev. rewrite E. by left. }
  assert (Ascii.eqb c newline = false) as Hcn.
  { destruct (Ascii.eqb_spec c newline) as [->|]; done. }
  rewrite Hy, app_assoc, at_dollar_plain by done.
  rewrite <- app_assoc, <- Hy. by apply sub_num_strips.
Qed.

Lemma normalize_chars_decorate j k l ds base :
  plain_head base = true -> plain_tail base = true -> forallb is_digit ds = true ->
  normalize_chars (decorate j k l ds base) = base.
Proof.
  intros Hh Ht Hds. unfold normalize_chars, decorate.
  set (pre := (if j then _ else _) ++ repeat underscore k).
  assert (at_dollar sub_l (at_dollar sub_num
            (pre ++ base ++ (if l then ["_"; "l"]%char else [])
                 ++ match ds with [] => [] | _ => underscore :: ds end)) = pre ++ base) as ->.
  { destruct (suffix_passes_keep pre base Ht) as [Hk1 Hk2].
    destruct ds as [|d ds], l; rewrite ?app_nil_r, ?app_nil_l.
    - rewrite app_assoc, at_dollar_num_keeps_l. apply at_dollar_l.
    - by rewrite Hk1, Hk2.
    - rewrite (app_assoc base), (app_assoc pre), at_dollar_num by done.
      rewrite app_assoc. apply at_dollar_l.
    - rewrite app_assoc, at_dollar_num by done. done. }
  subst pre. rewrite <- app_assoc. by apply strip_j_lstrip.
Qed.

(** C8. [_strcpy_0], [j_strcpy] and [strcpy] normalise to the key [strcpy]
    and so reach the same registered hook, [_strcpyHook]; in general, for a
    name that carries no decoration of its own, the normalisation removes a
    [_<digits>] suffix, an [_l] suffix before it, a leading [j_] and the
    underscores in front, and returns the name. *)
Theorem normalize_strips_decorations j k l ds base :
  plain_head base = true -> plain_tail base = true -> forallb is_digit ds = true ->
  normalize_chars (decorate j k l ds base) = base /\
  normalize "_strcpy_0" = "strcpy"%string /\
  normalize "j_strcpy" = "strcpy"%string /\
  normalize "strcpy" = "strcpy"%string /\
  resolve_api_hook "_strcpy_0" = Some H_strcpyHook /\
  resolve_api_hook "j_strcpy" = Some H_strcpyHook /\
  resolve_api_hook "strcpy" = Some H_strcpyHook.
Proof.
  intros Hh Ht Hds. split; [by apply normalize_chars_decorate|].
  repeat split; vm_compute; reflexivity.
Qed.

Lemma normalize_strips_decorations_witness :
  plain_head (list_ascii_of_string "strncpy") = true /\
  plain_tail (list_ascii_of_string "strncpy") = true /\
  forallb is_digit (list_ascii_of_string "12") = true /\
  normalize_chars (list_ascii_of_string "j__strncpy_l_12") = list_ascii_of_string "strncpy".
Proof.
  split; [reflexivity|]. split; [reflexivity|]. split; [reflexivity|].
  exact (proj1 (normalize_strips_decorations true 1 true (list_ascii_of_string "12")
                  (list_ascii_of_string "strncpy") eq_refl eq_refl eq_refl)).
Defined.

Example normalize_order_matters :
  normalize "_j_strcpy" = "j_strcpy"%string /\ normalize "strcpy_0_l" = "strcpy_0"%string /\
  resolve_api_hook "_j_strcpy" = None.
Proof. repeat split; vm_compute; reflexivity. Qed.

(** ** Path exploration *)

Lemma path_append_last (front : list Path) cur x :
  path_append (front ++ [cur]) (length front) x = Some (front ++ [cur ++ [x]]).
Proof.
  unfold path_append. rewrite list_lookup_middle by done.
  rewrite insert_app_r_alt by lia. by rewrite Nat.sub_diag.
Qed.

Lemma path_fork_last (front : list Path) cur :
  path_fork (front ++ [cur]) (length front) = Some ((front ++ [cur]) ++ [cur]).
Proof. unfold path_fork. by rewrite list_lookup_middle. Qed.

Lemma path_pop_last (front : list Path) cur x :
  path_pop (front ++ [cur ++ [x]]) (length front) = Some (front ++ [cur]).
Proof.
  unfold path_pop. rewrite list_lookup_middle by done.
  assert (exists y l, cur ++ [x] = y :: l) as (y & l & E) by (destruct cur; simpl; eauto).
  rewrite E, <- E, removelast_last, insert_app_r_alt by done. by rewrite Nat.sub_diag.
Qed.

(** A duplicate-free list of ids below [n] has at most [n] elements. *)
Lemma nodup_bounded_length (l : list nat) n :
  NoDup l -> (forall x, x ∈ l -> (x < n)%nat) -> (length l <= n)%nat.
Proof.
  intros Hnd Hlt.
  assert (length l <= length (seq 0 n))%nat as H; [|by rewrite length_seq in H].
  apply NoDup_incl_length; [by apply NoDup_ListNoDup|]. intros x Hx.
  apply in_seq. apply list_elem_of_In in Hx. specialize (Hlt x Hx). lia.
Qed.

Lemma NoDup_snoc_fresh (l : list nat) x : NoDup l -> x ∉ l -> NoDup (l ++ [x]).
Proof.
  intros Hnd Hx. apply NoDup_app. split; [done|]. split; [|apply NoDup_singleton].
  intros y Hy Hy'. apply list_elem_of_singleton in Hy'. by subst.
Qed.

(** Every successor id of a block of the chart is a block of the chart. *)
Definition fc_closed (fc : FlowChart) : Prop :=
  forall bb w, (bb < fc_size fc)%nat -> w ∈ succs (fc_block fc bb) -> (w < fc_size fc)%nat.

(** What one call of [_explore] does to [explorePaths] when the in-progress
    path [cur] is its last element: completed paths [done] are left behind;
    without a hit the in-progress path is back to [cur], and a hit leaves it
    extended up to the target. *)
Definition explore_post (front : list Path) (cur : Path) (end_bb : option nat)
    (out : option nat * list Path * nat) : Prop :=
  let '(r, ps', idx') := out in
  exists done,
    Forall NoDup done /\ idx' = length (front ++ done) /\
    match r with
    | None => ps' = front ++ done ++ [cur]
    | Some i =>
        i = idx' /\ exists ext e, end_bb = Some e /\
          ps' = front ++ done ++ [cur ++ ext ++ [e]] /\ NoDup (cur ++ ext ++ [e])
    end.

Section Explore.
Context (fc : FlowChart) (Hclosed : fc_closed fc).

Lemma explore_succs_spec fuel end_bb cur bb :
  (forall w front,
     (w < fc_size fc)%nat ->
     exists out, explore_rec fuel fc w end_bb (front ++ [cur ++ [bb]]) (length front)
                 = Some (Some out) /\ explore_post front (cur ++ [bb]) end_bb out) ->
  NoDup (cur ++ [bb]) ->
  forall ws front,
    (forall w, w ∈ ws -> (w < fc_size fc)%nat) ->
    exists out,
      explore_succs (fun w ps idx => explore_rec fuel fc w end_bb ps idx) ws
                    (front ++ [cur ++ [bb]]) (length front) = Some (Some out) /\
      explore_post front cur end_bb out.
Proof.
  intros Hrec Hnd. induction ws as [|w ws IH]; intros front Hws; simpl.
  - rewrite path_pop_last. eexists. split; [reflexivity|].
    exists []. split; [constructor|]. by rewrite app_nil_r.
  - destruct (Hrec w front) as ([[r ps'] idx'] & Hrun & Hpost).
    { apply Hws. by left. }
    rewrite Hrun. destruct Hpost as (done & Hdone & Hidx & Hr). destruct r as [i|].
    + eexists. split; [reflexivity|].
      destruct Hr as (-> & ext & e & He & -> & Hnd').
      exists done. split; [done|]. split; [done|]. split; [done|].
      exists (bb :: ext), e. split; [done|].
      rewrite <- !app_assoc in *. simpl in *. done.
    + subst ps' idx'. rewrite app_assoc.
      destruct (IH (front ++ done)) as ([[r ps'] idx'] & Hrun' & Hpost').
      { intros w' Hw'. apply Hws. by right. }
      eexists. split; [exact Hrun'|].
      destruct Hpost' as (done' & Hdone' & Hidx' & Hr').
      assert (Forall NoDup (done ++ done')) as Hall by by apply Forall_app.
      exists (done ++ done'). split; [done|]. rewrite !app_assoc in *. split; [done|].
      destruct r as [i|]; [|done].
      destruct Hr' as (-> & ext & e & He & -> & Hnd').
      split; [done|]. exists ext, e. by rewrite !app_assoc in *.
Qed.

Lemma explore_rec_spec fuel : forall bb end_bb front cur,
  (bb < fc_size fc)%nat ->
  NoDup cur -> (forall x, x ∈ cur -> (x < fc_size fc)%nat) ->
  (forall e, end_bb = Some e -> e ∉ cur) ->
  (fc_size fc - length cur < fuel)%nat ->
  exists out, explore_rec fuel fc bb end_bb (front ++ [cur]) (length front) = Some (Some out) /\
              explore_post front cur end_bb out.
Proof.
  induction fuel as [|fuel IH]; intros bb end_bb front cur Hbb Hnd Hlt Hend Hfuel; [lia|].
  simpl explore_rec.
  destruct (match end_bb with Some e => (e =? bb)%nat | None => false end) eqn:Ehit.
  { destruct end_bb as [e|]; [|done]. apply Nat.eqb_eq in Ehit. subst e.
    rewrite path_append_last. eexists. split; [reflexivity|].
    exists []. split; [constructor|]. rewrite app_nil_r. split; [done|]. split; [done|].
    exists [], bb. split; [done|]. split; [done|].
    apply NoDup_snoc_fresh; [done|]. by apply Hend. }
  rewrite list_lookup_middle by done.
  destruct (bool_decide (bb ∈ cur)) eqn:Eloop.
  { eexists. split; [reflexivity|]. exists [cur]. split; [by constructor|].
    rewrite !length_app. simpl. split; [lia|]. by rewrite <- app_assoc. }
  apply bool_decide_eq_false in Eloop.
  rewrite path_append_last.
  assert (NoDup (cur ++ [bb])) as Hnd' by by apply NoDup_snoc_fresh.
  destruct (isTerminatingBB fc bb).
  { rewrite path_fork_last.
    replace (S (length front)) with (length (front ++ [cur ++ [bb]]))
      by (rewrite length_app; simpl; lia).
    replace ((front ++ [cur ++ [bb]]) ++ [cur ++ [bb]])
      with ((front ++ [cur ++ [bb]]) ++ [cur ++ [bb]]) by done.
    rewrite path_pop_last. eexists. split; [reflexivity|].
    exists [cur ++ [bb]]. split; [by constructor|]. split; [done|].
    by rewrite <- app_assoc. }
  assert (length (bb :: cur) <= fc_size fc)%nat as Hpigeon.
  { apply nodup_bounded_length.
    - by constructor.
    - intros x Hx. apply elem_of_cons in Hx as [-> | Hx]; auto. }
  simpl in Hpigeon.
  destruct (explore_succs_spec fuel end_bb cur bb) with (ws := succs (fc_block fc bb))
    (front := front) as ([[r ps'] idx'] & Hrun & Hpost).
  - intros w front' Hw. apply IH; try done.
    + intros x Hx. apply elem_of_app in Hx as [Hx | Hx]; [auto|].
      apply list_elem_of_singleton in Hx. by subst.
    + intros e He Hin. apply elem_of_app in Hin as [Hin | Hin]; [by apply (Hend e)|].
      apply list_elem_of_singleton in Hin. subst e. rewrite He in Ehit.
      by rewrite Nat.eqb_refl in Ehit.
    + rewrite length_app. simpl. lia.
  - done.
  - intros w Hw. by apply (Hclosed bb).
  - by exists (r, ps', idx').
Qed.

End Explore.

(** ** getPaths and getPath *)

(** The state the two methods keep between calls: cached paths without
    repeats and, when a failed [getPath] left [explorePaths] behind, its last
    element empty and the index on it. *)
Definition explorer_inv (self : Explorer) : Prop :=
  (forall k all, paths self !! k = Some all -> Forall NoDup all) /\
  match explorePaths self with
  | None => True
  | Some ps => exists front,
      ps = front ++ [[]] /\ explorePathIdx self = length front /\ Forall NoDup front
  end.

Lemma explorer_init_inv : explorer_inv explorer_init.
Proof. split; [|done]. intros k all H. simpl in H. by rewrite lookup_empty in H. Qed.

Lemma ensure_inv self : explorer_inv self -> explorer_inv (ensure_explorePaths self).
Proof.
  intros [Hc Hp]. unfold ensure_explorePaths. destruct (explorePaths self) eqn:E.
  - split; [done|]. by rewrite E.
  - split; [done|]. simpl. exists []. by repeat split.
Qed.

Lemma upto_prefix x p : exists k, p = upto x p ++ k.
Proof.
  induction p as [|y p [k IH]]; simpl; [by exists []|].
  destruct (y =? x)%nat; [by exists p|]. exists k. simpl. by rewrite <- IH.
Qed.

Lemma NoDup_upto x p : NoDup p -> NoDup (upto x p).
Proof.
  intros H. destruct (upto_prefix x p) as [k Hk]. rewrite Hk in H.
  by apply NoDup_app in H as [H _].
Qed.

Lemma uniq_fold_elem (l : list (list nat)) : forall acc p,
  p ∈ fold_left (fun uniq q => if bool_decide (q ∈ uniq) then uniq else uniq ++ [q]) l acc ->
  p ∈ acc \/ p ∈ l.
Proof.
  induction l as [|q l IH]; simpl; intros acc p H; [by left|].
  apply IH in H as [H|H]; [|right; by right].
  destruct (bool_decide (q ∈ acc)); [by left|].
  apply elem_of_app in H as [H|H]; [by left|].
  apply list_elem_of_singleton in H. subst. right. by left.
Qed.

Lemma target_paths_nodup target_bb maxPaths all :
  Forall NoDup all -> Forall NoDup (target_paths target_bb maxPaths all).
Proof.
  intros Hall. unfold target_paths. apply Forall_forall. intros p Hp.
  apply elem_of_take in Hp as (i & Hp & _). apply list_elem_of_lookup_2 in Hp.
  apply uniq_fold_elem in Hp as [Hp|Hp]; [by apply elem_of_nil in Hp|].
  apply list_elem_of_In, in_map_iff in Hp as (q & <- & Hq).
  apply NoDup_upto. apply list_elem_of_In, list_elem_of_filter in Hq as [_ Hq].
  by apply (proj1 (Forall_forall _ _) Hall).
Qed.

Lemma getStartBB_bound f bb : getStartBB f = Some bb -> (bb < fc_size (flowchart f))%nat.
Proof.
  unfold getStartBB. intros H. apply find_some in H as [H _]. apply in_seq in H. lia.
Qed.

Section ExplorerMethods.
Context (f : Func) (fuel : nat).
Context (Hclosed : fc_closed (flowchart f)) (Hfuel : (fc_size (flowchart f) < fuel)%nat).

(** On a chart of the database, with fuel above the number of blocks,
    [_explore] neither raises nor runs out of fuel. *)
Lemma explore_method_spec bb end_bb self :
  (bb < fc_size (flowchart f))%nat -> explorer_inv self ->
  exists r front ps' idx',
    _explore fuel (flowchart f) bb end_bb self
      = XOk r (mkExplorer (Some ps') idx' (paths self)) /\
    Forall NoDup front /\ explore_post front [] end_bb (r, ps', idx').
Proof.
  intros Hbb Hinv. apply ensure_inv in Hinv as [Hc Hp]. unfold _explore.
  assert (paths (ensure_explorePaths self) = paths self) as Hpaths.
  { unfold ensure_explorePaths. by destruct (explorePaths self). }
  destruct (explorePaths (ensure_explorePaths self)) as [ps|] eqn:E.
  2:{ unfold ensure_explorePaths in E.
      destruct (explorePaths self) eqn:E2; simpl in E; congruence. }
  destruct Hp as (front & -> & -> & Hfront).
  destruct (explore_rec_spec (flowchart f) Hclosed fuel bb end_bb front [])
    as ([[r ps'] idx'] & Hrun & Hpost); try done.
  - apply NoDup_nil_2.
  - intros x Hx. by apply elem_of_nil in Hx.
  - intros e _ He. by apply elem_of_nil in He.
  - simpl. lia.
  - rewrite Hrun, Hpaths. by exists r, front, ps', idx'.
Qed.

(** C3. On a closed flow chart, from any state the two methods can leave
    behind: every path [getPaths] and [getPath] return is free of repeated
    block ids, the calls end without an exception unless the database has no
    block for the target or for the function start, and the state they leave
    is again such a state.  In [_explore], a block that is already on the
    in-progress path is handled like a terminating block: the result is None,
    the path so far stays in the list as a completed path and a copy of the
    path as it was before the block becomes the new in-progress path (the
    terminating block itself is kept at the end of its completed path). *)
Theorem explored_paths_have_no_repeats targetVA maxPaths self :
  explorer_inv self ->
  match getPaths fuel f targetVA maxPaths self with
  | XOk (_, ps) self' => Forall NoDup ps /\ explorer_inv self'
  | XRaise self' =>
      explorer_inv self' /\
      (getBlockIdByVA targetVA (flowchart f) = None \/ getStartBB f = None)
  | XFuel => False
  end /\
  match getPath fuel f targetVA self with
  | XOk (Some (_, ps)) self' => Forall NoDup ps /\ explorer_inv self'
  | XOk None self' => explorer_inv self'
  | XRaise self' =>
      explorer_inv self' /\
      (getBlockIdByVA targetVA (flowchart f) = None \/ getStartBB f = None)
  | XFuel => False
  end /\
  (forall n bb end_bb (front : list (list nat)) cur,
     end_bb <> Some bb -> bb ∈ cur ->
     explore_rec (S n) (flowchart f) bb end_bb (front ++ [cur]) (length front)
     = Some (Some (None, front ++ [cur] ++ [cur], S (length front)))) /\
  (forall n bb end_bb (front : list (list nat)) cur,
     end_bb <> Some bb -> bb ∉ cur -> isTerminatingBB (flowchart f) bb = true ->
     explore_rec (S n) (flowchart f) bb end_bb (front ++ [cur]) (length front)
     = Some (Some (None, front ++ [cur ++ [bb]] ++ [cur], S (length front)))).
Proof.
  intros Hinv. pose proof Hinv as [Hc Hp]. split; [|split; [|split]].
  - unfold getPaths. destruct (getBlockIdByVA targetVA (flowchart f)) as [target_bb|] eqn:Et.
    2:{ split; [done|]. by left. }
    destruct (paths self !! func_start_ea f) as [all|] eqn:Ecache.
    { split; [|done]. apply target_paths_nodup. by apply (Hc _ _ Ecache). }
    destruct (getStartBB f) as [start_bb|] eqn:Es.
    2:{ split; [by apply ensure_inv|]. by right. }
    destruct (explore_method_spec start_bb None self (getStartBB_bound _ _ Es) Hinv)
      as (r & front & ps' & idx' & -> & Hfront & done & Hdone & Hidx & Hr).
    destruct r as [i|]; [by destruct Hr as (_ & ? & ? & ? & _)|].
    subst ps'. cbn [explorePaths explorePathIdx paths].
    assert (exists y l, front ++ done ++ [[]] = y :: l) as (y & l & E).
    { destruct front; simpl; [destruct done; simpl|]; eauto. }
    rewrite E, <- E. rewrite app_assoc, removelast_last.
    assert (Forall NoDup (front ++ done)) as Hall by by apply Forall_app.
    split; [by apply target_paths_nodup|]. split; [|done]. simpl.
    intros k all Hk. destruct (decide (k = func_start_ea f)) as [->|Hne].
    + rewrite lookup_insert_eq in Hk. by injection Hk as <-.
    + rewrite lookup_insert_ne in Hk by done. by apply (Hc k).
  - unfold getPath. destruct (getBlockIdByVA targetVA (flowchart f)) as [target_bb|] eqn:Et.
    2:{ split; [done|]. by left. }
    destruct (getStartBB f) as [start_bb|] eqn:Es.
    2:{ split; [by apply ensure_inv|]. by right. }
    destruct (explore_method_spec start_bb (Some target_bb) self (getStartBB_bound _ _ Es) Hinv)
      as (r & front & ps' & idx' & -> & Hfront & done & Hdone & Hidx & Hr).
    assert (Forall NoDup (front ++ done)) as Hall by by apply Forall_app.
    destruct r as [i|].
    + destruct Hr as (-> & ext & e & He & -> & Hnd). cbn [explorePaths explorePathIdx paths].
      subst idx'. rewrite app_assoc, list_lookup_middle by done.
      split; [|by split]. constructor; [done|constructor].
    + subst ps'. split; [done|]. simpl. exists (front ++ done). by rewrite <- app_assoc.
  - intros n bb end_bb front cur Hne Hin. simpl.
    destruct end_bb as [e|].
    + destruct (Nat.eqb_spec e bb) as [->|_]; [done|].
      rewrite list_lookup_middle by done. rewrite bool_decide_eq_true_2 by done.
      by rewrite <- app_assoc.
    + rewrite list_lookup_middle by done. rewrite bool_decide_eq_true_2 by done.
      by rewrite <- app_assoc.
  - intros n bb end_bb front cur Hne Hin Hterm. simpl.
    assert (match end_bb with Some e => (e =? bb)%nat | None => false end = false) as ->.
    { destruct end_bb as [e|]; [|done]. destruct (Nat.eqb_spec e bb) as [->|_]; done. }
    rewrite list_lookup_middle by done. rewrite bool_decide_eq_false_2 by done.
    rewrite path_append_last, Hterm, path_fork_last.
    replace (S (length front)) with (length (front ++ [cur ++ [bb]]))
      by (rewrite length_app; simpl; lia).
    rewrite path_pop_last. by rewrite <- app_assoc.
Qed.

End ExplorerMethods.

Lemma diamond_loop_closed : fc_closed (flowchart diamond_loop).
Proof.
  intros bb w Hbb Hw. simpl in *.
  destruct bb as [|[|[|[|bb]]]]; simpl in Hw; [..|lia];
    repeat (apply elem_of_cons in Hw as [-> | Hw]; [lia|]); by apply elem_of_nil in Hw.
Defined.

Lemma explored_paths_have_no_repeats_witness :
  fc_closed (flowchart diamond_loop) /\
  (fc_size (flowchart diamond_loop) < 5)%nat /\
  explorer_inv explorer_init /\
  match getPaths 5 diamond_loop 0x402035 5 explorer_init with
  | XOk (_, ps) self' => Forall NoDup ps /\ explorer_inv self'
  | XRaise self' =>
      explorer_inv self' /\
      (getBlockIdByVA 0x402035 (flowchart diamond_loop) = None \/ getStartBB diamond_loop = None)
  | XFuel => False
  end.
Proof.
  assert (fc_size (flowchart diamond_loop) < 5)%nat as Hfuel by (simpl; lia).
  split; [exact diamond_loop_closed|]. split; [exact Hfuel|].
  split; [exact explorer_init_inv|].
  exact (proj1 (explored_paths_have_no_repeats diamond_loop 5 diamond_loop_closed Hfuel
                  0x402035 5%nat explorer_init explorer_init_inv)).
Defined.

Example getPaths_diamond_loop :
  paths_returned (getPaths 5 diamond_loop 0x402035 5 explorer_init)
  = Some [[0; 1; 3]; [0; 2; 3]]%nat /\
  path_returned (getPath 5 diamond_loop 0x402035 explorer_init) = Some (Some [[0; 1; 3]%nat]).
Proof. split; vm_compute; reflexivity. Qed.

(** ** Functions of a single block *)

Section SingleBlock.
Context (f : Func) (targetVA : Z) (fuel : nat).
Context (Hsize : fc_size (flowchart f) = 1%nat).
Context (Hsuccs : succs (fc_block (flowchart f) 0) = []).
Context (Hstart : start_ea (fc_block (flowchart f) 0) = func_start_ea f).
Context (Htarget : start_ea (fc_block (flowchart f) 0) <= targetVA
                     < end_ea (fc_block (flowchart f) 0)).

Lemma single_block_lookups :
  getBlockIdByVA targetVA (flowchart f) = Some 0%nat /\ getStartBB f = Some 0%nat.
Proof.
  unfold getBlockIdByVA, getStartBB. rewrite Hsize. simpl. rewrite Hstart, Z.eqb_refl.
  split; [|done].
  destruct (Z.geb_spec targetVA (func_start_ea f)); [|lia].
  destruct (Z.ltb_spec targetVA (end_ea (fc_block (flowchart f) 0))); [done|lia].
Qed.

(** What the two methods return for a function of one block without
    successors, on a fresh helper: [getPath] finds the one-element path;
    [getPaths] returns no path only when the block is not a terminating one,
    and the path [[0]] when it is (a return, a no-return or an indirect jump). *)
Lemma single_block_paths maxPaths :
  path_returned (getPath (S fuel) f targetVA explorer_init) = Some (Some [[0%nat]]) /\
  paths_returned (getPaths (S fuel) f targetVA maxPaths explorer_init)
  = Some (if isTerminatingBB (flowchart f) 0 then take maxPaths [[0%nat]] else []).
Proof.
  destruct single_block_lookups as [Ht Hs]. split.
  - unfold getPath. rewrite Ht, Hs. reflexivity.
  - unfold getPaths. rewrite Ht, Hs. cbn [paths explorer_init]. rewrite lookup_empty.
    unfold _explore. simpl. destruct (isTerminatingBB (flowchart f) 0).
    + reflexivity.
    + rewrite Hsuccs. by destruct maxPaths.
Qed.

End SingleBlock.

(** C2, at a function of one block that ends in a return: [getPath] returns
    the one-element path, but [getPaths] returns that path too, not the empty
    list its header comment promises. *)
Theorem getPaths_single_ret_block :
  path_returned (getPath 2 single_ret_block 0x401005 explorer_init) = Some (Some [[0%nat]]) /\
  paths_returned (getPaths 2 single_ret_block 0x401005 1 explorer_init) = Some [[0%nat]].
Proof. split; vm_compute; reflexivity. Qed.

(** ** The target loop *)

Lemma fold_max_spec (ks : list Z) : forall k,
  let m := fold_left Z.max ks k in
  (m = k \/ m ∈ ks) /\ k <= m /\ forall x, x ∈ ks -> x <= m.
Proof.
  induction ks as [|y ks IH]; intros k; simpl.
  - split; [by left|]. split; [lia|]. intros x Hx. by apply elem_of_nil in Hx.
  - destruct (IH (Z.max k y)) as (Hm & Hle & Hall). split; [|split].
    + destruct Hm as [Hm|Hm]; [|right; by right]. rewrite Hm.
      destruct (Z.max_spec k y) as [[_ ->]|[_ ->]]; [right; by left | by left].
    + lia.
    + intros x Hx. apply elem_of_cons in Hx as [-> | Hx]; [lia|auto].
Qed.

Lemma highest_key_spec (ti : gmap Z (Flow * list Path)) t :
  highest_key ti = Some t -> t ∈ dom ti /\ forall k, k ∈ dom ti -> k <= t.
Proof.
  unfold highest_key. destruct (elements (dom ti)) as [|k ks] eqn:E; [done|].
  intros [= <-]. destruct (fold_max_spec ks k) as (Hm & Hle & Hall). split.
  - apply elem_of_elements. rewrite E. destruct Hm as [-> | Hm]; [by left | by right].
  - intros x Hx. apply elem_of_elements in Hx. rewrite E in Hx.
    apply elem_of_cons in Hx as [-> | Hx]; auto.
Qed.

Lemma highest_key_nonempty (ti : gmap Z (Flow * list Path)) :
  size ti <> 0%nat -> exists t, highest_key ti = Some t.
Proof.
  intros Hne. unfold highest_key. destruct (elements (dom ti)) as [|k ks] eqn:E; [|eauto].
  exfalso. apply Hne. apply elements_empty_inv in E.
  apply map_size_empty_iff. apply dom_empty_inv_L. by apply leibniz_equiv.
Qed.

Lemma del_visited_spec visited : forall (ti ti' : gmap Z (Flow * list Path)),
  del_visited visited ti = Ok ti' ->
  dom ti' = dom ti ∖ list_to_set visited /\ ti' ⊆ ti /\
  forall a, a ∈ visited -> a ∈ dom ti /\ a ∉ dom ti'.
Proof.
  induction visited as [|a visited IH]; simpl; intros ti ti' H.
  - injection H as <-. split; [set_solver|]. split; [done|].
    intros a Ha. by apply elem_of_nil in Ha.
  - destruct (ti !! a) as [v|] eqn:E; [|done].
    apply IH in H as (Hdom & Hsub & Hall). rewrite dom_delete_L in Hdom.
    split; [set_solver|]. split; [etrans; [done|apply delete_subseteq]|].
    intros b Hb. apply elem_of_cons in Hb as [-> | Hb].
    + split; [by apply elem_of_dom|]. set_solver.
    + destruct (Hall b Hb) as [H1 H2]. rewrite dom_delete_L in H1. set_solver.
Qed.

Lemma apply_calls_spec calls : forall userData visited,
  visitedTargets userData = Some visited ->
  match targetVA userData with
  | None => StopEmulation ∉ calls
  | Some _ => True
  end ->
  exists visited',
    apply_calls calls userData
    = Ok (set_visitedTargets visited' userData) /\
    (forall a, a ∈ visited -> a ∈ visited') /\
    (forall a, TargetHit a ∈ calls -> a ∈ visited') /\
    (forall t, StopEmulation ∈ calls -> targetVA userData = Some t -> t ∈ visited') /\
    (forall a, a ∈ visited' ->
       a ∈ visited \/ TargetHit a ∈ calls \/
       (StopEmulation ∈ calls /\ targetVA userData = Some a)).
Proof.
  induction calls as [|c calls IH]; intros userData visited Hv Ht; simpl.
  - exists visited. split; [by destruct userData; simpl in *; subst|].
    split; [done|]. split; [|split]; try (intros ? H; by apply elem_of_nil in H).
    intros a Ha. by left.
  - destruct c as [a|].
    + unfold _targetHit. rewrite Hv.
      destruct (IH (set_visitedTargets (visited ++ [a]) userData) (visited ++ [a]))
        as (v' & Hrun & H1 & H2 & H3 & H4); [done| |].
      { simpl. destruct (targetVA userData); [done|]. set_solver. }
      exists v'. split; [by rewrite Hrun|]. split; [set_solver|].
      split; [|split].
      * intros b Hb. apply elem_of_cons in Hb as [[= ->] | Hb]; [set_solver|auto].
      * intros t Hs Htv. apply elem_of_cons in Hs as [Hs | Hs]; [done|]. by apply H3.
      * intros b Hb. destruct (H4 b Hb) as [Hin | [Hin | [Hin Hb']]].
        -- apply elem_of_app in Hin as [Hin | Hin]; [by left|].
           apply list_elem_of_singleton in Hin as ->. right. left. left.
        -- right. left. by right.
        -- right. right. split; [by right | done].
    + unfold stopEmulation. rewrite Hv.
      destruct (targetVA userData) as [t|] eqn:Et; [|set_solver].
      destruct (bool_decide (t ∈ visited)) eqn:Ein.
      * apply bool_decide_eq_true in Ein.
        destruct (IH userData visited) as (v' & Hrun & H1 & H2 & H3 & H4);
          [done|by rewrite Et|].
        exists v'. split; [done|]. split; [done|]. split; [|split].
        -- intros b Hb. apply elem_of_cons in Hb as [Hb | Hb]; [done|auto].
        -- intros t' _ [= <-]. auto.
        -- intros b Hb. destruct (H4 b Hb) as [Hin | [Hin | [Hin Hb']]].
           ++ by left.
           ++ right. left. by right.
           ++ right. right. split; [by right | simpl in Hb'; congruence].
      * destruct (IH (set_visitedTargets (visited ++ [t]) userData) (visited ++ [t]))
          as (v' & Hrun & H1 & H2 & H3 & H4); [done|by simpl; rewrite Et|].
        exists v'. split; [by rewrite Hrun|]. split; [set_solver|]. split; [|split].
        -- intros b Hb. apply elem_of_cons in Hb as [Hb | Hb]; [done|auto].
        -- intros t' _ [= <-]. set_solver.
        -- intros b Hb. destruct (H4 b Hb) as [Hin | [Hin | [Hin Hb']]].
           ++ apply elem_of_app in Hin as [Hin | Hin]; [by left|].
              apply list_elem_of_singleton in Hin as ->. right. right. split; [left | congruence].
           ++ right. left. by right.
           ++ right. right. split; [by right | simpl in Hb'; congruence].
Qed.

Section IterateProperties.
Context (emu_start : UserData -> nat -> list hook_call).

(** What one run and its deletions do: the targets recorded during the run
    are exactly the keys removed, and they are the targets whose callback
    fired and, when [stopEmulation] was called, the pursued one. *)
Lemma run_path_spec pathIdx userData userData' t :
  targetVA userData = Some t ->
  run_path emu_start pathIdx userData = Ok userData' ->
  exists visited,
    visitedTargets userData' = Some visited /\
    targetVA userData' = Some t /\
    dom (targetInfo userData') = dom (targetInfo userData) ∖ list_to_set visited /\
    targetInfo userData' ⊆ targetInfo userData /\
    (forall a, a ∈ visited -> a ∈ dom (targetInfo userData) /\ a ∉ dom (targetInfo userData')) /\
    (forall a, TargetHit a ∈ emu_start (set_visitedTargets [] userData) pathIdx -> a ∈ visited) /\
    (StopEmulation ∈ emu_start (set_visitedTargets [] userData) pathIdx -> t ∈ visited) /\
    (forall a, a ∈ visited ->
       TargetHit a ∈ emu_start (set_visitedTargets [] userData) pathIdx \/
       (a = t /\ StopEmulation ∈ emu_start (set_visitedTargets [] userData) pathIdx)).
Proof.
  intros Ht. unfold run_path.
  destruct (apply_calls_spec (emu_start (set_visitedTargets [] userData) pathIdx)
              (set_visitedTargets [] userData) []) as (v & -> & _ & Hhit & Hstop & Hback);
    [done | by simpl; rewrite Ht |].
  cbn [visitedTargets set_visitedTargets targetInfo].
  destruct (del_visited v (targetInfo userData)) as [ti|] eqn:Edel; [|done].
  intros [= <-]. apply del_visited_spec in Edel as (Hdom & Hsub & Hall).
  exists v. simpl. repeat split; try done.
  - by apply (Hall a).
  - by apply (Hall a).
  - intros Hs. by apply Hstop.
  - intros a Ha. destruct (Hback a Ha) as [Hin | [Hin | [Hin Hb]]].
    + by apply elem_of_nil in Hin.
    + by left.
    + right. simpl in Hb. rewrite Ht in Hb. by injection Hb as ->.
Qed.

(** The runs of one [for path in paths] loop, taken together: a target is
    gone after the loop exactly when its callback fired during one of the
    runs or when it is the pursued one and [stopEmulation] was called during
    one of them. *)
Lemma run_paths_spec paths : forall pathIdx userData userData' t,
  targetVA userData = Some t ->
  run_paths emu_start paths pathIdx userData = Ok userData' ->
  targetVA userData' = Some t /\
  targetInfo userData' ⊆ targetInfo userData /\
  dom (targetInfo userData') ⊆ dom (targetInfo userData) /\
  (forall calls a, calls ∈ runs_of emu_start paths pathIdx userData -> TargetHit a ∈ calls ->
     a ∈ dom (targetInfo userData) /\ a ∉ dom (targetInfo userData')) /\
  (forall calls, calls ∈ runs_of emu_start paths pathIdx userData -> StopEmulation ∈ calls ->
     t ∈ dom (targetInfo userData) /\ t ∉ dom (targetInfo userData')) /\
  (forall k, k ∈ dom (targetInfo userData) -> k ∉ dom (targetInfo userData') ->
     exists calls, calls ∈ runs_of emu_start paths pathIdx userData /\
                   (TargetHit k ∈ calls \/ (k = t /\ StopEmulation ∈ calls))).
Proof.
  induction paths as [|p paths IH]; cbn [run_paths runs_of];
    intros pathIdx userData userData' t Ht H.
  - injection H as <-. split; [done|]. split; [done|]. split; [done|].
    split; [|split]; try (intros ? ? Hc; by apply elem_of_nil in Hc).
    + intros ? Hc. by apply elem_of_nil in Hc.
    + intros k Hk Hk'. done.
  - destruct (run_path emu_start pathIdx userData) as [ud1|] eqn:E; [|done].
    destruct (run_path_spec _ _ _ t Ht E)
      as (v & _ & Ht1 & Hdom & Hsub & Hall & Hhit & Hstop & Hback).
    destruct (IH _ _ _ t Ht1 H) as (Ht2 & Hsub2 & Hdom2 & Hhit2 & Hstop2 & Hback2).
    assert (dom (targetInfo ud1) ⊆ dom (targetInfo userData)) as Hd1
      by (rewrite Hdom; by apply subseteq_difference_l).
    split; [done|]. split; [by etrans|]. split; [by etrans|]. split; [|split].
    + intros calls a Hc Ha. apply elem_of_cons in Hc as [-> | Hc].
      * destruct (Hall a (Hhit a Ha)) as [H1 H2]. split; [done|].
        intros Hx. by apply H2, Hdom2.
      * destruct (Hhit2 calls a Hc Ha) as [H1 H2]. split; [by apply Hd1 | done].
    + intros calls Hc Hs. apply elem_of_cons in Hc as [-> | Hc].
      * destruct (Hall t (Hstop Hs)) as [H1 H2]. split; [done|].
        intros Hx. by apply H2, Hdom2.
      * destruct (Hstop2 calls Hc Hs) as [H1 H2]. split; [by apply Hd1 | done].
    + intros k Hk Hk'. destruct (decide (k ∈ dom (targetInfo ud1))) as [Hin | Hout].
      * destruct (Hback2 k Hin Hk') as (calls & Hc & Hcalls). exists calls. split; [by right|done].
      * assert (k ∈ v) as Hv.
        { rewrite Hdom in Hout. apply dec_stable. intros Hnv. apply Hout.
          apply elem_of_difference. split; [done|]. by rewrite elem_of_list_to_set. }
        exists (emu_start (set_visitedTargets [] userData) pathIdx). split; [left|].
        by apply Hback.
Qed.

(** What one iteration of the outer loop does, when it runs to its end. *)
Lemma iterate_body_spec userData userData' :
  iterate_body emu_start userData = Ok userData' ->
  exists t flow paths,
    highest_key (targetInfo userData) = Some t /\
    targetInfo userData !! t = Some (flow, paths) /\
    run_paths emu_start paths 0 (set_targetVA t userData) = Ok userData'.
Proof.
  unfold iterate_body. intros H.
  destruct (highest_key (targetInfo userData)) as [t|] eqn:Ek; [|done].
  cbn [targetInfo set_targetVA] in H.
  destruct (targetInfo userData !! t) as [[flow paths]|] eqn:Et; [|done].
  destruct (flow !! 0%nat); [|done]. by exists t, flow, paths.
Qed.

(** C9. In an iteration of the outer loop that runs to its end, the target
    pursued is the largest key of targetInfo.  After each run, the targets
    recorded in visitedTargets during that run (those whose callback fired
    and, when [stopEmulation] was called, the pursued one) are deleted from
    the map.  Over the runs of the iteration: every target whose callback
    fired during a run was pending and is gone afterwards, so is the pursued
    target when [stopEmulation] was called during a run, and no other key is
    removed; the map after the iteration is a part of the map before it, the
    number of pending targets never grows, and it decreases as soon as a
    callback fired or [stopEmulation] was called. *)
Theorem iterate_pursues_highest_and_shrinks userData userData' :
  iterate_body emu_start userData = Ok userData' ->
  exists t flow paths,
    highest_key (targetInfo userData) = Some t /\ targetVA userData' = Some t /\
    t ∈ dom (targetInfo userData) /\
    (forall k, k ∈ dom (targetInfo userData) -> k <= t) /\
    targetInfo userData !! t = Some (flow, paths) /\
    let runs := runs_of emu_start paths 0 (set_targetVA t userData) in
    (forall pathIdx ud ud1 t',
       targetVA ud = Some t' -> run_path emu_start pathIdx ud = Ok ud1 ->
       let calls := emu_start (set_visitedTargets [] ud) pathIdx in
       exists visited,
         visitedTargets ud1 = Some visited /\
         (forall a, TargetHit a ∈ calls -> a ∈ visited) /\
         (StopEmulation ∈ calls -> t' ∈ visited) /\
         (forall a, a ∈ visited -> TargetHit a ∈ calls \/ (a = t' /\ StopEmulation ∈ calls)) /\
         (forall a, a ∈ visited -> a ∈ dom (targetInfo ud) /\ a ∉ dom (targetInfo ud1)) /\
         dom (targetInfo ud1) = dom (targetInfo ud) ∖ list_to_set visited) /\
    (forall calls a, calls ∈ runs -> TargetHit a ∈ calls ->
       a ∈ dom (targetInfo userData) /\ a ∉ dom (targetInfo userData')) /\
    (forall calls, calls ∈ runs -> StopEmulation ∈ calls -> t ∉ dom (targetInfo userData')) /\
    (forall k, k ∈ dom (targetInfo userData) -> k ∉ dom (targetInfo userData') ->
       exists calls, calls ∈ runs /\ (TargetHit k ∈ calls \/ (k = t /\ StopEmulation ∈ calls))) /\
    targetInfo userData' ⊆ targetInfo userData /\
    dom (targetInfo userData') ⊆ dom (targetInfo userData) /\
    (size (targetInfo userData') <= size (targetInfo userData))%nat /\
    ((exists calls, calls ∈ runs /\ (StopEmulation ∈ calls \/ exists a, TargetHit a ∈ calls)) ->
     (size (targetInfo userData') < size (targetInfo userData))%nat).
Proof.
  intros H. destruct (iterate_body_spec _ _ H) as (t & flow & paths & Ek & Et & Hrun).
  destruct (run_paths_spec paths 0 (set_targetVA t userData) userData' t eq_refl Hrun)
    as (Ht & Hsub & Hdom & Hhit & Hstop & Hback).
  cbn [targetInfo set_targetVA] in *.
  destruct (highest_key_spec _ _ Ek) as [Hin Hmax].
  exists t, flow, paths. cbv zeta.
  split; [done|]. split; [done|]. split; [done|]. split; [done|]. split; [done|].
  split; [|split; [done|split; [|split; [done|split; [done|split; [done|split]]]]]].
  - intros pathIdx ud ud1 t' Ht' Hrun'.
    destruct (run_path_spec _ _ _ t' Ht' Hrun')
      as (v & Hv & _ & Hd & _ & Hall & Hh & Hs & Hb).
    exists v. by repeat split; try done; apply Hall.
  - intros calls Hc Hs. by apply (Hstop calls Hc Hs).
  - by apply map_subseteq_size.
  - intros (calls & Hc & Hcalls).
    assert (exists a, a ∈ dom (targetInfo userData) /\ a ∉ dom (targetInfo userData'))
      as (a & Ha & Ha').
    { destruct Hcalls as [Hs | [a Ha]].
      - exists t. by apply (Hstop calls).
      - exists a. by apply (Hhit calls). }
    apply map_subset_size. split; [done|]. intros Hb. apply Ha'.
    apply elem_of_dom in Ha as [x Hx]. apply elem_of_dom. exists x. by eapply lookup_weaken.
Qed.

(** The paths list of every pending target is non-empty, as [iterate] builds
    it ([targetInfo[t] = (flow, [path])]). *)
Definition has_paths (ti : gmap Z (Flow * list Path)) : Prop :=
  forall k flow paths, ti !! k = Some (flow, paths) -> paths <> [].

Lemma has_paths_subseteq (ti ti' : gmap Z (Flow * list Path)) :
  ti' ⊆ ti -> has_paths ti -> has_paths ti'.
Proof. intros Hsub H k flow paths Hk. apply (H k flow). by eapply lookup_weaken. Qed.

Lemma iterate_body_progress userData userData' :
  (forall ud idx, StopEmulation ∈ emu_start ud idx) ->
  has_paths (targetInfo userData) ->
  iterate_body emu_start userData = Ok userData' ->
  exists t, highest_key (targetInfo userData) = Some t /\
            (t ∉ dom (targetInfo userData')) /\
            targetInfo userData' ⊆ targetInfo userData /\
            (size (targetInfo userData') < size (targetInfo userData))%nat.
Proof.
  intros Hstop Hpaths H.
  destruct (iterate_body_spec _ _ H) as (t & flow & paths & Ek & Et & Hrun).
  destruct (run_paths_spec paths 0 (set_targetVA t userData) userData' t eq_refl Hrun)
    as (_ & Hsub & _ & _ & Hs & _).
  cbn [targetInfo set_targetVA] in *.
  destruct paths as [|path0 paths]; [by apply Hpaths in Et|]. cbn [runs_of] in Hs.
  destruct (Hs _ ltac:(left) (Hstop _ _)) as [Hin Hgone].
  exists t. split; [done|]. split; [done|]. split; [done|].
  apply map_subset_size. split; [done|]. intros Hback.
  apply Hgone. apply elem_of_dom. apply elem_of_dom in Hin as [x Hx].
  exists x. by eapply lookup_weaken.
Qed.

(** [stopEmulation] records the pursued target in visitedTargets unless it
    is there already, so a run during which [stopEmulation] is called ends
    with the pursued target recorded, whether or not the target callback
    fired.  When every run is such a run and every pending target has a
    path, an iteration that runs to its end deletes the pursued target, the
    map strictly shrinks, and the loop ends within as many iterations as
    there are pending targets (normally, or with the KeyError of a
    deletion). *)
Theorem iterate_terminates_when_runs_stop userData :
  (forall ud idx, StopEmulation ∈ emu_start ud idx) ->
  has_paths (targetInfo userData) ->
  (forall ud t visited,
     targetVA ud = Some t -> visitedTargets ud = Some visited ->
     exists visited', stopEmulation ud = Ok (set_visitedTargets visited' ud) /\ t ∈ visited') /\
  (forall userData',
     iterate_body emu_start userData = Ok userData' ->
     exists t, highest_key (targetInfo userData) = Some t /\
               (t ∉ dom (targetInfo userData')) /\
               (size (targetInfo userData') < size (targetInfo userData))%nat) /\
  exists r, iterate_loop emu_start (size (targetInfo userData)) userData = Some r.
Proof.
  intros Hstop Hpaths. split; [|split].
  - intros ud t visited Ht Hv. unfold stopEmulation. rewrite Hv, Ht.
    destruct (bool_decide (t ∈ visited)) eqn:E.
    + apply bool_decide_eq_true in E. exists visited. split; [|done].
      f_equal. destruct ud; simpl in *; by subst.
    + exists (visited ++ [t]). split; [done|]. set_solver.
  - intros userData' H.
    destruct (iterate_body_progress _ _ Hstop Hpaths H) as (t & ? & ? & _ & ?). eauto.
  - assert (forall n ud, (size (targetInfo ud) <= n)%nat -> has_paths (targetInfo ud) ->
              exists r, iterate_loop emu_start n ud = Some r) as Hloop.
    { induction n as [|n IH]; intros ud Hn Hp; simpl.
      - assert (size (targetInfo ud) = 0%nat) as -> by lia. eauto.
      - destruct (Nat.eqb_spec (size (targetInfo ud)) 0); [eauto|].
        destruct (iterate_body emu_start ud) as [ud'|] eqn:E; [|eauto].
        destruct (iterate_body_progress _ _ Hstop Hp E) as (t & _ & _ & Hsub & Hlt).
        apply IH; [lia|]. by eapply has_paths_subseteq. }
    by apply Hloop.
Qed.

End IterateProperties.

(** ** Witnesses for the target loop *)

Example iterate_body_two_targets :
  iterate_body run_hits_both two_targets = Ok (after_body run_hits_both two_targets) /\
  targetVA (after_body run_hits_both two_targets) = Some 0x402035 /\
  visitedTargets (after_body run_hits_both two_targets) = Some [0x402015; 0x402035] /\
  size (targetInfo (after_body run_hits_both two_targets)) = 0%nat.
Proof. repeat split; vm_compute; reflexivity. Qed.

Lemma two_targets_highest : highest_key (targetInfo two_targets) = Some 0x402035.
Proof. vm_compute. reflexivity. Defined.

Lemma two_targets_pursued :
  targetInfo two_targets !! 0x402035 = Some (flow_of (flowchart diamond_loop), [[0; 1; 3]%nat]).
Proof. apply lookup_insert_eq. Defined.

(** On the two targets of the diamond, the one run towards the higher
    target passes the lower one: both callbacks fire, both targets are
    deleted, and the map goes from two entries to none. *)
Lemma iterate_pursues_highest_and_shrinks_witness :
  let userData' := after_body run_hits_both two_targets in
  iterate_body run_hits_both two_targets = Ok userData' /\
  highest_key (targetInfo two_targets) = Some 0x402035 /\
  targetVA userData' = Some 0x402035 /\
  runs_of run_hits_both [[0; 1; 3]%nat] 0 (set_targetVA 0x402035 two_targets)
  = [[TargetHit 0x402015; TargetHit 0x402035; StopEmulation]] /\
  (0x402015 ∈ dom (targetInfo two_targets) /\ 0x402015 ∉ dom (targetInfo userData')) /\
  (0x402035 ∈ dom (targetInfo two_targets) /\ 0x402035 ∉ dom (targetInfo userData')) /\
  (size (targetInfo userData') < size (targetInfo two_targets))%nat.
Proof.
  intros userData'.
  assert (iterate_body run_hits_both two_targets = Ok userData') as H by (vm_compute; reflexivity).
  assert (runs_of run_hits_both [[0; 1; 3]%nat] 0 (set_targetVA 0x402035 two_targets)
          = [[TargetHit 0x402015; TargetHit 0x402035; StopEmulation]]) as Hruns
    by (vm_compute; reflexivity).
  destruct (iterate_pursues_highest_and_shrinks run_hits_both two_targets userData' H)
    as (t & flow & paths & Ek & Ht & _ & _ & Et & _ & Hhit & _ & _ & _ & _ & _ & Hlt).
  rewrite two_targets_highest in Ek. injection Ek as <-.
  rewrite two_targets_pursued in Et. injection Et as <- <-.
  rewrite Hruns in Hhit, Hlt.
  split; [exact H|]. split; [exact two_targets_highest|]. split; [exact Ht|].
  split; [exact Hruns|].
  split; [apply (Hhit _ 0x402015 ltac:(left)); left|].
  split; [apply (Hhit _ 0x402035 ltac:(left)); right; left|].
  apply Hlt. eexists. split; [left|]. left. right. right. left.
Defined.

Lemma two_targets_has_paths : has_paths (targetInfo two_targets).
Proof.
  intros k flow paths H. simpl in H.
  apply lookup_insert_Some in H as [[_ H] | [_ H]].
  - by injection H as _ <-.
  - apply lookup_singleton_Some in H as [_ H]. by injection H as _ <-.
Defined.

Lemma iterate_terminates_when_runs_stop_witness :
  (forall ud idx, StopEmulation ∈ run_abandoned ud idx) /\
  has_paths (targetInfo two_targets) /\
  exists r, iterate_loop run_abandoned (size (targetInfo two_targets)) two_targets = Some r.
Proof.
  assert (forall ud idx, StopEmulation ∈ run_abandoned ud idx) as Hstop
    by (intros ud idx; apply list_elem_of_here).
  split; [exact Hstop|]. split; [exact two_targets_has_paths|].
  exact (proj2 (proj2 (iterate_terminates_when_runs_stop run_abandoned two_targets
                         Hstop two_targets_has_paths))).
Defined.

Example iterate_loop_abandoned_runs :
  exists userData', iterate_loop run_abandoned 2 two_targets = Some (Ok userData') /\
                    size (targetInfo userData') = 0%nat.
Proof. eexists. split; vm_compute; reflexivity. Qed.

Lemma one_target_has_paths : has_paths (targetInfo one_target).
Proof.
  intros k flow paths H. simpl in H.
  apply lookup_singleton_Some in H as [_ H]. by injection H as _ <-.
Qed.

(** A run that the engine ends at [funcEnd] records nothing, so the
    iteration deletes nothing. *)
Lemma body_without_stop_keeps_target userData :
  targetInfo userData = targetInfo one_target ->
  exists userData', iterate_body run_to_funcEnd userData = Ok userData' /\
                    targetInfo userData' = targetInfo one_target /\
                    visitedTargets userData' = Some [].
Proof.
  intros H. unfold iterate_body. rewrite H.
  assert (highest_key (targetInfo one_target) = Some 0x401005) as -> by (vm_compute; reflexivity).
  cbn [targetInfo set_targetVA]. rewrite H.
  assert (targetInfo one_target !! 0x401005
          = Some (flow_of (flowchart single_ret_block), [[0%nat]])) as ->
    by apply lookup_singleton_eq.
  assert (flow_of (flowchart single_ret_block) !! 0%nat = Some (0x401000, 0x401011)) as ->
    by (vm_compute; reflexivity).
  simpl. unfold run_path, run_to_funcEnd. simpl. eexists. split; [reflexivity|]. done.
Qed.

(** C10, at one pending target whose run the engine ends at [funcEnd], the
    [until] address [iterate] passes to [emu_start], before any hook calls
    [stopEmulation]: every target has a path, the run ends with nothing
    recorded in visitedTargets, the iteration runs to its end and deletes
    nothing, and so the outer loop pursues the same target again and again:
    it does not end, whatever the number of iterations allowed. *)
Theorem iterate_spins_on_unrecorded_target :
  has_paths (targetInfo one_target) /\
  size (targetInfo one_target) = 1%nat /\
  (forall userData pathIdx, run_to_funcEnd userData pathIdx = []) /\
  (exists userData',
     iterate_body run_to_funcEnd one_target = Ok userData' /\
     targetVA userData' = Some 0x401005 /\
     visitedTargets userData' = Some [] /\
     targetInfo userData' = targetInfo one_target) /\
  (forall fuel, iterate_loop run_to_funcEnd fuel one_target = None) /\
  ~ (forall (emu_start : UserData -> nat -> list hook_call) (userData : UserData),
       has_paths (targetInfo userData) ->
       exists fuel r, iterate_loop emu_start fuel userData = Some r).
Proof.
  assert (forall n ud, targetInfo ud = targetInfo one_target ->
            iterate_loop run_to_funcEnd n ud = None) as Hspin.
  { induction n as [|n IH]; intros ud Hud; simpl; rewrite Hud.
    - reflexivity.
    - assert ((size (targetInfo one_target) =? 0)%nat = false) as -> by (vm_compute; reflexivity).
      destruct (body_without_stop_keeps_target ud Hud) as (ud' & -> & Hud' & _). by apply IH. }
  split; [exact one_target_has_paths|].
  split; [vm_compute; reflexivity|].
  split; [done|].
  split; [exists (after_body run_to_funcEnd one_target); repeat split; vm_compute; reflexivity|].
  split; [intros fuel; by apply Hspin|].
  intros H. destruct (H run_to_funcEnd one_target one_target_has_paths) as (fuel & r & Hr).
  rewrite Hspin in Hr; done.
Qed.

(** ** Copy shims *)

Example s_adjacent_reachable :
  let s0 := emu_of [(0x400000, 0x400fff)] (fun _ => 0) in
  let s1 := (_virtualAllocHook idb0 [0x500000; 0x1000] ud_at_call s0).2 in
  let s2 := (_virtualAllocHook idb0 [0x501000; 0x1000] ud_at_call s1).2 in
  mem_regions (uc s2) = mem_regions (uc s_adjacent).
Proof. reflexivity. Qed.

(** C5, at [strncpy(0x500ff0, 0x501800, 8)] with a 100-byte source: the
    destination region is [0x500000, 0x501000) and has room for the 8 bytes
    asked for, the check passes, and the hook then writes the whole source:
    bytes of the next region, outside the destination region, are
    overwritten. *)
Theorem strncpyHook_writes_past_region :
  forall userData : UserData,
  let argv := [0x500ff0; 0x501800; 8] in
  let s' := (_strncpyHook idb0 argv userData s_adjacent).2 in
  getEmuMemRegion 0x500ff0 (uc s_adjacent) = Some (0x500000, 0x501000) /\
  _checkMemSize 8 userData s_adjacent = (Ok 8, s_adjacent) /\
  8 <= 0x501000 - 0x500ff0 /\
  mem_bytes (uc s_adjacent) 0x501000 = 0 /\
  mem_bytes (uc s') 0x501000 = 0x41 /\
  mem_bytes (uc s') 0x501053 = 0x41 /\
  reg_ret (uc s') = 0x500ff0.
Proof. intros userData. repeat split; vm_compute; first [reflexivity | discriminate]. Qed.

Example strcpyHook_aborts_on_overflow :
  let s' := (_strcpyHook idb0 [0x500ff0; 0x501800] s_adjacent).2 in
  mem_bytes (uc s') = mem_bytes (uc s_adjacent) /\
  reg_ret (uc s') = 0xffffffffffffffff.
Proof. split; reflexivity. Qed.

(** ** String scans end *)

Lemma top_of_above u r : r ∈ mem_regions u -> r.2 <= top_of u.
Proof.
  unfold top_of. generalize 0. induction (mem_regions u) as [|r0 rs IH]; intros h Hr.
  - by apply elem_of_nil in Hr.
  - assert (forall l h', h' <= fold_left (fun h (x : Z * Z) => Z.max h x.2) l h') as Hmono.
    { induction l as [|x l IHl]; intros h'; simpl; [lia|]. specialize (IHl (Z.max h' x.2)). lia. }
    simpl. apply elem_of_cons in Hr as [-> | Hr]; [|by apply IH].
    specialize (Hmono rs (Z.max h r0.2)). lia.
Qed.

Lemma read_above_top u a : top_of u < a -> uc_mem_read a 1 u = None.
Proof.
  intros Ha. unfold uc_mem_read, range_mapped.
  assert (find (in_region a) (mem_regions u) = None) as Hfind.
  { destruct (find (in_region a) (mem_regions u)) as [r|] eqn:E; [|done].
    apply find_some in E as [Hin Hr]. apply list_elem_of_In, top_of_above in Hin.
    unfold in_region in Hr. apply andb_true_iff in Hr as [_ Hr]. apply Z.leb_le in Hr. lia. }
  destruct (length (mem_regions u)); simpl;
    destruct (Z.leb_spec (a + 1) a); try lia; [done|]. by rewrite Hfind.
Qed.

(** The fuel [getEmuString] hands to its loop is never spent: the scan ends
    at a zero byte or raises at the first unmapped byte, which comes no later
    than one past the last mapped byte. *)
Lemma getEmuString_loop_total u : forall n addr out,
  top_of u + 1 - addr <= Z.of_nat n -> getEmuString_loop (S n) u addr out <> None.
Proof.
  induction n as [|n IH]; intros addr out Hn; cbn [getEmuString_loop].
  - destruct (uc_mem_read addr 1 u) as [b|] eqn:E; [|done].
    destruct (bool_decide (b = [0])); [done|].
    assert (top_of u < addr) as Hlt by lia. by rewrite (read_above_top u addr Hlt) in E.
  - destruct (uc_mem_read addr 1 u) as [b|] eqn:E; [|done].
    destruct (bool_decide (b = [0])); [done|]. apply IH. lia.
Qed.

Lemma getEmuString_total addr s :
  getEmuString_loop (S (Z.to_nat (top_of (uc s) + 1 - addr))) (uc s) addr [] <> None.
Proof. apply getEmuString_loop_total. lia. Qed.

(** ** strcpy and memcpy stay inside the destination region *)

(** No byte outside [[lo, hi)] differs between the two states. *)
Definition bytes_kept_outside (lo hi : Z) (s s' : EmuHelper) : Prop :=
  forall a, ~ (lo <= a < hi) -> mem_bytes (uc s') a = mem_bytes (uc s) a.


Lemma reg_write_ret_bytes v s :
  mem_bytes (uc (reg_write_ret v s).2) = mem_bytes (uc s) /\
  mem_regions (uc (reg_write_ret v s).2) = mem_regions (uc s) /\
  reg_ret (uc (reg_write_ret v s).2) = v.
Proof. done. Qed.

Lemma mem_write_bytes address data s :
  match mem_write address data s with
  | (Ok _, s') =>
      mem_regions (uc s') = mem_regions (uc s) /\
      bytes_kept_outside address (address + Z.of_nat (length data)) s s'
  | (Exc, s') => s' = s
  end.
Proof.
  unfold mem_write, lift_uc, uc_mem_write.
  destruct (range_mapped (uc s) address _); [|done]. split; [done|].
  intros a Ha. simpl. by apply store_bytes_outside.
Qed.

Section CopyShims.
Context (idb : Idb).

(** A destination that does not exist is created: one block of whole pages
    that holds [n] bytes, found again by [getEmuMemRegion], writable in full. *)
Lemma alloc_dstRegion_spec n s :
  match alloc_dstRegion idb n s with
  | (Ok r, s') =>
      exists b, r = (b, b + pageAlignUp n) /\ n <= pageAlignUp n /\
        mem_regions (uc s') = mem_regions (uc s) ++ [(b, b + pageAlignUp n - 1)] /\
        bytes_kept_outside b (b + pageAlignUp n) s s' /\
        (forall m, 0 <= m <= pageAlignUp n -> range_mapped (uc s') b m = true) /\
        size_pointer s' = size_pointer s /\
        (forall r, r ∈ mem_regions (uc s) -> r.2 + PAGESIZE <= b) /\
        (forall a, b <= a < b + pageAlignUp n -> mem_bytes (uc s') a = 0)
  | (Exc, s') => s' = s
  end.
Proof.
  unfold alloc_dstRegion, mbind at 1. rewrite allocEmuMem_unfold.
  unfold allocEmuMem_plan.
  destruct (findUnused_above idb (uc s)) as (Hal & _ & Habove).
  set (b := _findUnusedMemRegion idb (uc s)) in *.
  destruct (uc_mem_map b (pageAlignUp n) (uc s)) as [u'|] eqn:Emap; [|done].
  pose proof Emap as Hspec. apply uc_mem_map_spec in Hspec as (Hr & Hpos & _ & _ & Hsz & _).
  cbv [mbind get_uc key mret]. cbn [uc].
  assert (getEmuMemRegion b u' = Some (b, b + pageAlignUp n)) as ->.
  { unfold getEmuMemRegion. rewrite Hr.
    assert (forall rs, (forall r, r ∈ rs -> r.2 + PAGESIZE <= b) ->
              find (fun region : Z * Z => (b >=? region.1) && (b <? region.2))
                   (rs ++ [(b, b + pageAlignUp n - 1)]) = Some (b, b + pageAlignUp n - 1)) as Hfind.
    { induction rs as [|r rs IH]; intros Hrs; simpl.
      - apply aligned_multiple in Hsz as [k Hk]. unfold PAGESIZE in *.
        destruct (Z.geb_spec b b); [|lia].
        destruct (Z.ltb_spec b (b + pageAlignUp n - 1)); [done|lia].
      - assert (r.2 + PAGESIZE <= b) as Hle by (apply Hrs; by left). unfold PAGESIZE in Hle.
        destruct (Z.ltb_spec b r.2); [lia|]. rewrite andb_false_r.
        apply IH. intros r' Hr'. apply Hrs. by right. }
    rewrite Hfind by done. simpl. f_equal. f_equal. lia. }
  exists b. split; [done|]. split; [apply pageAlignUp_bounds|]. cbn [uc].
  split; [done|]. split; [|split; [|split; [done|split; [done|]]]].
  - intros a Ha. unfold uc_mem_map in Emap. destruct (_ && _) in Emap; [|done].
    injection Emap as <-. simpl.
    destruct (Z.leb_spec b a), (Z.ltb_spec a (b + pageAlignUp n)); simpl; try done. lia.
  - intros m Hm. by apply (fresh_block_mapped b (pageAlignUp n) (uc s)).
  - intros a Ha. unfold uc_mem_map in Emap. destruct (_ && _) in Emap; [|done].
    injection Emap as <-. simpl.
    destruct (Z.leb_spec b a), (Z.ltb_spec a (b + pageAlignUp n)); simpl; try done; lia.
Qed.



Lemma mbind_ok {A B} (m : M A) (k : A -> M B) s a s1 :
  m s = (Ok a, s1) -> mbind m k s = k a s1.
Proof. unfold mbind. by intros ->. Qed.

Lemma mbind_exc {A B} (m : M A) (k : A -> M B) s s1 :
  m s = (Exc, s1) -> mbind m k s = (Exc, s1).
Proof. unfold mbind. by intros ->. Qed.

End CopyShims.


(** ** Strings in emulator memory *)

(** [str] is the zero-terminated string at [addr]: its bytes are the
    non-zero bytes found from [addr] on, the byte after them is zero, and
    all of them, terminator included, are mapped. *)
Definition string_at (u : Uc) (addr : Z) (str : list Z) : Prop :=
  str = map (mem_bytes u) (seqZ' addr (length str)) /\
  Forall (fun b => b <> 0) str /\
  mem_bytes u (addr + Z.of_nat (length str)) = 0 /\
  forall i, 0 <= i <= Z.of_nat (length str) -> range_mapped u (addr + i) 1 = true.

Lemma seqZ'_cons a n : seqZ' a (S n) = a :: seqZ' (a + 1) n.
Proof.
  unfold seqZ'. simpl. f_equal; [lia|].
  rewrite <- seq_shift, map_map. apply map_ext. intros i. lia.
Qed.

Lemma seqZ'_snoc a n : seqZ' a (S n) = seqZ' a n ++ [a + Z.of_nat n].
Proof. unfold seqZ'. by rewrite seq_S, map_app. Qed.

Lemma uc_mem_read_one a u :
  uc_mem_read a 1 u = if range_mapped u a 1 then Some [mem_bytes u a] else None.
Proof.
  unfold uc_mem_read. destruct (range_mapped u a 1); [|done].
  change (Z.to_nat 1) with 1%nat. rewrite seqZ'_cons. done.
Qed.

Lemma string_at_nil u addr :
  range_mapped u addr 1 = true -> mem_bytes u addr = 0 -> string_at u addr [].
Proof.
  intros Hm Hz. split; [done|]. split; [constructor|]. simpl. rewrite Z.add_0_r.
  split; [done|]. intros i Hi. by replace i with 0 by lia; rewrite Z.add_0_r.
Qed.

Lemma string_at_cons u addr b str :
  range_mapped u addr 1 = true -> mem_bytes u addr = b -> b <> 0 ->
  string_at u (addr + 1) str -> string_at u addr (b :: str).
Proof.
  intros Hm Hb Hnz (H1 & H2 & H3 & H4). split; [|split; [|split]].
  - cbn [length]. rewrite seqZ'_cons. simpl. by rewrite Hb, <- H1.
  - by constructor.
  - cbn [length]. rewrite <- H3. f_equal. lia.
  - intros i Hi. cbn [length] in Hi. destruct (Z.eq_dec i 0) as [-> | Hne].
    + by rewrite Z.add_0_r.
    + replace (addr + i) with (addr + 1 + (i - 1)) by lia. apply H4. lia.
Qed.

Lemma string_at_inv u addr str :
  string_at u addr str ->
  range_mapped u addr 1 = true /\
  match str with
  | [] => mem_bytes u addr = 0
  | b :: str' => mem_bytes u addr = b /\ b <> 0 /\ string_at u (addr + 1) str'
  end.
Proof.
  intros (H1 & H2 & H3 & H4). split.
  { rewrite <- (Z.add_0_r addr). apply H4. lia. }
  destruct str as [|b str'].
  - simpl in H3. by rewrite Z.add_0_r in H3.
  - cbn [length] in *. rewrite seqZ'_cons in H1. simpl in H1. injection H1 as Hb Hstr.
    inversion H2; subst. split; [done|]. split; [congruence|].
    split; [|split; [|split]].
    + done.
    + done.
    + rewrite <- H3. f_equal. lia.
    + intros i Hi. replace (addr + 1 + i) with (addr + (i + 1)) by lia. apply H4. lia.
Qed.

Lemma getEmuString_loop_sound u : forall fuel addr out res,
  getEmuString_loop fuel u addr out = Some (Ok res) ->
  exists str, res = out ++ str /\ string_at u addr str.
Proof.
  induction fuel as [|fuel IH]; intros addr out res; cbn [getEmuString_loop]; [done|].
  rewrite uc_mem_read_one. destruct (range_mapped u addr 1) eqn:Hm; [|done].
  destruct (bool_decide ([mem_bytes u addr] = [0])) eqn:Hz.
  - apply bool_decide_eq_true in Hz. intros [= <-]. exists []. rewrite app_nil_r.
    split; [done|]. apply string_at_nil; [done|congruence].
  - apply bool_decide_eq_false in Hz. intros Hrec.
    destruct (IH _ _ _ Hrec) as (str & -> & Hstr).
    exists (mem_bytes u addr :: str). rewrite <- app_assoc. split; [done|].
    apply string_at_cons; try done. congruence.
Qed.

Lemma getEmuString_loop_complete u str : forall fuel addr out,
  string_at u addr str -> (length str < fuel)%nat ->
  getEmuString_loop fuel u addr out = Some (Ok (out ++ str)).
Proof.
  induction str as [|b str IH]; intros fuel addr out Hs Hf;
    (destruct fuel as [|fuel]; [simpl in Hf; lia|]);
    cbn [getEmuString_loop]; rewrite uc_mem_read_one;
    apply string_at_inv in Hs as [Hm Hs]; rewrite Hm.
  - rewrite Hs. rewrite bool_decide_eq_true_2 by done. by rewrite app_nil_r.
  - destruct Hs as (Hb & Hnz & Hs). rewrite bool_decide_eq_false_2 by congruence.
    rewrite (IH fuel (addr + 1) (out ++ [mem_bytes u addr]) Hs) by (simpl in Hf; lia).
    rewrite <- app_assoc. by rewrite Hb.
Qed.

Lemma mapped_below_top u a : range_mapped u a 1 = true -> a <= top_of u.
Proof.
  intros Hm. destruct (Z.le_gt_cases a (top_of u)) as [|Hgt]; [done|].
  pose proof (read_above_top u a Hgt) as Hr. rewrite uc_mem_read_one, Hm in Hr. done.
Qed.

Lemma getEmuString_string_at addr s :
  (forall str, getEmuString addr s = (Ok str, s) <-> string_at (uc s) addr str) /\
  (getEmuString addr s = (Exc, s) <-> forall str, ~ string_at (uc s) addr str).
Proof.
  assert (forall str, getEmuString addr s = (Ok str, s) <-> string_at (uc s) addr str) as Hok.
  { intros str. unfold getEmuString. split.
    - destruct (getEmuString_loop _ _ _ _) as [[res|]|] eqn:E; try done.
      intros [= <-]. by destruct (getEmuString_loop_sound _ _ _ _ _ E) as (str & -> & Hs).
    - intros Hs. rewrite (getEmuString_loop_complete (uc s) str _ addr [] Hs); [done|].
      destruct Hs as (_ & _ & _ & Hm).
      specialize (Hm (Z.of_nat (length str))). apply mapped_below_top in Hm; lia. }
  split; [done|]. split.
  - intros He str Hs. apply Hok in Hs. congruence.
  - intros Hno. unfold getEmuString.
    destruct (getEmuString_loop _ _ _ _) as [[res|]|] eqn:E; try done.
    destruct (getEmuString_loop_sound _ _ _ _ _ E) as (str & -> & Hs). by destruct (Hno str).
Qed.

(** [getEmuString] returns the zero-terminated string at [addr] when there
    is one, and raises exactly when there is none: the scan met an unmapped
    byte before any zero. *)
Theorem getEmuString_spec addr s :
  (forall str, getEmuString addr s = (Ok str, s) <-> string_at (uc s) addr str) /\
  (getEmuString addr s = (Exc, s) <-> forall str, ~ string_at (uc s) addr str).
Proof. exact (getEmuString_string_at addr s). Qed.

(** ** What the copy shims may touch *)









Lemma key_state {A} (v : option A) s : (key v s).2 = s.
Proof. by destruct v. Qed.



Lemma mbind_mret {A B} (a : A) (k : A -> M B) s : mbind (mret a) k s = k a s.
Proof. done. Qed.


Lemma mbind_get_uc {B} (k : Uc -> M B) s : mbind get_uc k s = k (uc s) s.
Proof. done. Qed.

Lemma mbind_get_self {B} (k : EmuHelper -> M B) s : mbind get_self k s = k s s.
Proof. done. Qed.


(** Nothing is mapped and no byte changes. *)
Definition memory_unchanged (s s' : EmuHelper) : Prop :=
  mem_regions (uc s') = mem_regions (uc s) /\ bytes_kept_outside 0 0 s s'.




Lemma unchanged_ret v s : memory_unchanged s (reg_write_ret v s).2.
Proof. split; [done|]. by intros x _. Qed.

Section Confinement.
Context (idb : Idb).









End Confinement.

(** ** Round trips through emulator memory *)

Lemma read_back data : forall d m, map (store_bytes d data m) (seqZ' d (length data)) = data.
Proof.
  induction data as [|b data IH]; intros d m; [done|].
  cbn [length]. rewrite seqZ'_cons. cbn [map]. f_equal.
  - rewrite store_bytes_spec. cbn [length].
    destruct (Z.leb_spec d d), (Z.ltb_spec d (d + Z.of_nat (S (length data)))); try lia.
    cbn [andb]. by rewrite Z.sub_diag.
  - cbn [store_bytes]. apply IH.
Qed.


Lemma mem_write_ok a data s s' :
  mem_write a data s = (Ok tt, s') ->
  range_mapped (uc s) a (Z.of_nat (length data)) = true /\
  mem_regions (uc s') = mem_regions (uc s) /\
  mem_bytes (uc s') = store_bytes a data (mem_bytes (uc s)) /\
  reg_ret (uc s') = reg_ret (uc s) /\ size_pointer s' = size_pointer s.
Proof.
  unfold mem_write, lift_uc, uc_mem_write.
  destruct (range_mapped (uc s) a _); [|done]. by intros [= <-].
Qed.




Section RoundTrips.
Context (idb : Idb).

Lemma dst_select {B} (d n : Z) (K : Z * Z -> Z -> M B) s :
  (do '(dstRegion, dst) <-
      match getEmuMemRegion d (uc s) with
      | None => do r <- alloc_dstRegion idb n; mret (r, r.1)
      | Some r => mret (r, d)
      end;
   K dstRegion dst) s =
  match getEmuMemRegion d (uc s) with
  | Some r => K r d s
  | None => match alloc_dstRegion idb n s with
            | (Ok r, s1) => K r r.1 s1
            | (Exc, s1) => (Exc, s1)
            end
  end.
Proof.
  destruct (getEmuMemRegion d (uc s)); [done|].
  unfold mbind. by destruct (alloc_dstRegion idb n s) as [[r|] s1].
Qed.

(** Where a shim that picked or made its destination leaves the pointer it
    returns: at the destination it was given, or at the start of the block
    it mapped above every mapping. *)
Definition returned_destination (d : Z) (s s' : EmuHelper) : Prop :=
  match getEmuMemRegion d (uc s) with
  | Some _ => reg_ret (uc s') = d
  | None => forall r, r ∈ mem_regions (uc s) -> r.2 < reg_ret (uc s')
  end.



(** Without a preferred address [allocEmuMem] either raises and leaves the
    state alone, or returns the start of one new block: whole pages, at
    least [size] bytes, a page or more above every mapping, zero-filled and
    accessible in full; no byte outside the block changes. *)
Lemma allocEmuMem_fresh_block size s :
  match allocEmuMem idb size None s with
  | (Ok b, s') =>
      let asz := pageAlignUp size in
      b = _findUnusedMemRegion idb (uc s) /\ 0 < asz /\ size <= asz /\
      mem_regions (uc s') = mem_regions (uc s) ++ [(b, b + asz - 1)] /\
      (forall r, r ∈ mem_regions (uc s) -> r.2 + PAGESIZE <= b) /\
      (forall a, b <= a < b + asz -> mem_bytes (uc s') a = 0) /\
      bytes_kept_outside b (b + asz) s s' /\
      (forall a n, b <= a -> a + n <= b + asz -> range_mapped (uc s') a n = true) /\
      reg_ret (uc s') = reg_ret (uc s) /\ allocMap s' = allocMap s /\
      size_pointer s' = size_pointer s
  | (Exc, s') => s' = s
  end.
Proof.
  rewrite allocEmuMem_unfold. unfold allocEmuMem_plan.
  destruct (findUnused_above idb (uc s)) as (_ & _ & Habove).
  set (b := _findUnusedMemRegion idb (uc s)) in *.
  destruct (uc_mem_map b (pageAlignUp size) (uc s)) as [u'|] eqn:Emap; [|done].
  pose proof Emap as Hspec. apply uc_mem_map_spec in Hspec as (Hr & Hpos & _).
  pose proof (fresh_block_mapped _ _ _ _ (pageAlignUp size) Emap) as Hall.
  unfold uc_mem_map in Emap. destruct (_ && _) in Emap; [|done]. injection Emap as <-.
  cbv zeta. cbn [uc mem_regions mem_bytes reg_ret allocMap size_pointer] in *.
  split; [done|]. split; [done|]. split; [apply pageAlignUp_bounds|]. split; [done|].
  split; [done|]. split; [|split; [|split; [|done]]].
  - intros a Ha.
    destruct (Z.leb_spec b a), (Z.ltb_spec a (b + pageAlignUp size)); simpl; try done; lia.
  - intros a Ha. simpl.
    destruct (Z.leb_spec b a), (Z.ltb_spec a (b + pageAlignUp size)); simpl; try done; lia.
  - intros a n Ha Hn. eapply range_mapped_sub; [apply Hall; lia|lia|lia].
Qed.





Lemma nth_map_seqZ' (f : Z -> Z) a n i :
  (i < n)%nat -> nth i (map f (seqZ' a n)) 0 = f (a + Z.of_nat i).
Proof.
  intros Hi. unfold seqZ'. rewrite map_map.
  rewrite (nth_indep _ 0 (f (a + Z.of_nat 0))) by (by rewrite length_map, length_seq).
  rewrite (map_nth (fun x => f (a + Z.of_nat x)) (seq 0 n) 0%nat i).
  by rewrite seq_nth.
Qed.

Lemma copyEmuMem_moves dst src size userData s :
  0 <= size ->
  (MAX_ALLOC_SIZE < size -> currAddr userData <> None) ->
  let n := Z.min size MAX_ALLOC_SIZE in
  if range_mapped (uc s) src n && range_mapped (uc s) dst n
  then exists s', copyEmuMem dst src size userData s = (Ok tt, s') /\
         mem_regions (uc s') = mem_regions (uc s) /\
         reg_ret (uc s') = reg_ret (uc s) /\
         (forall i, 0 <= i < n -> mem_bytes (uc s') (dst + i) = mem_bytes (uc s) (src + i)) /\
         bytes_kept_outside dst (dst + n) s s'
  else copyEmuMem dst src size userData s = (Exc, s).
Proof.
  intros Hsize Hca n.
  assert (0 <= n) as Hn by (unfold n, MAX_ALLOC_SIZE; lia).
  unfold copyEmuMem. rewrite (mbind_ok _ _ _ _ _ (checkMemSize_runs size userData s Hca)).
  fold n. unfold try_except, mbind, mem_read, uc_mem_read.
  destruct (range_mapped (uc s) src n); [|done]. cbn [andb].
  unfold mem_write, lift_uc, uc_mem_write.
  rewrite !length_map. unfold seqZ' at 1 3. rewrite length_map, length_seq, Z2Nat.id by done.
  destruct (range_mapped (uc s) dst n); [|done].
  eexists. split; [done|]. cbn [uc mem_regions mem_bytes reg_ret].
  split; [done|]. split; [done|]. split.
  - intros i Hi. rewrite store_bytes_spec, length_map.
    unfold seqZ' at 1. rewrite length_map, length_seq, Z2Nat.id by done.
    destruct (Z.leb_spec dst (dst + i)), (Z.ltb_spec (dst + i) (dst + n)); try lia.
    cbn [andb]. rewrite nth_map_seqZ' by lia. f_equal. lia.
  - intros x Hx. apply store_bytes_outside. rewrite length_map.
    unfold seqZ'. by rewrite length_map, length_seq, Z2Nat.id.
Qed.

(** [copyEmuMem] moves [min(size, MAX_ALLOC_SIZE)] bytes when source and
    destination are both mapped in full, reading all of the source before
    it writes, so that overlapping blocks are copied correctly; otherwise
    it raises and leaves the memory as it was. *)
Theorem copyEmuMem_spec dst src size userData s :
  0 <= size ->
  (MAX_ALLOC_SIZE < size -> currAddr userData <> None) ->
  let n := Z.min size MAX_ALLOC_SIZE in
  if range_mapped (uc s) src n && range_mapped (uc s) dst n
  then exists s', copyEmuMem dst src size userData s = (Ok tt, s') /\
         mem_regions (uc s') = mem_regions (uc s) /\
         reg_ret (uc s') = reg_ret (uc s) /\
         (forall i, 0 <= i < n -> mem_bytes (uc s') (dst + i) = mem_bytes (uc s) (src + i)) /\
         bytes_kept_outside dst (dst + n) s s'
  else copyEmuMem dst src size userData s = (Exc, s).
Proof. exact (copyEmuMem_moves dst src size userData s). Qed.

(** Whatever address was asked for, a [loadBytes] that returns normally
    leaves the bytes readable at the address it returns. *)
Lemma loadBytes_reads_back bytes addr s mem s' :
  loadBytes idb bytes addr s = (Ok mem, s') ->
  uc_mem_read mem (Z.of_nat (length bytes)) (uc s') = Some bytes.
Proof.
  unfold loadBytes, mbind.
  destruct (allocEmuMem idb _ addr s) as [[b|] s1]; [|done].
  destruct (mem_write b bytes s1) as [[[]|] s2] eqn:Ew; [|done].
  intros [= <- <-]. apply mem_write_ok in Ew as (Hm & Hr & Hb & _).
  unfold uc_mem_read. rewrite (range_mapped_regions _ _ _ _ Hr), Hm, Hb, Nat2Z.id.
  by rewrite read_back.
Qed.

(** [loadBytes] without a preferred address, on a table of proper regions
    and for a non-empty byte string, returns an address above every mapping
    at which the bytes read back as they were given; no byte of an older
    mapping changes. *)
Theorem loadBytes_round_trip bytes s :
  Forall region_ok (mem_regions (uc s)) -> bytes <> [] ->
  _findUnusedMemRegion idb (uc s) + pageAlignUp (Z.of_nat (length bytes)) <= 2 ^ 64 ->
  exists mem s', loadBytes idb bytes None s = (Ok mem, s') /\
    uc_mem_read mem (Z.of_nat (length bytes)) (uc s') = Some bytes /\
    (forall r, r ∈ mem_regions (uc s) -> r.2 < mem) /\
    (forall a, a < mem -> mem_bytes (uc s') a = mem_bytes (uc s) a).
Proof.
  intros Hok Hne Hfit.
  assert (0 < Z.of_nat (length bytes)) as Hpos by (destruct bytes; [done|simpl; lia]).
  destruct (allocEmuMem_succeeds idb _ None s Hok Hpos) as (a & u' & Hrun & _);
    [by apply plan_fits_None|].
  pose proof (allocEmuMem_fresh_block (Z.of_nat (length bytes)) s) as Hspec.
  rewrite Hrun in Hspec. cbv zeta in Hspec.
  destruct Hspec as (_ & _ & Hsz & _ & Habove & _ & Hkept & Hmap & _).
  assert (exists s', loadBytes idb bytes None s = (Ok a, s') /\
            mem_bytes (uc s') = store_bytes a bytes (mem_bytes u')) as (s' & Hload & Hb).
  { unfold loadBytes, mbind. rewrite Hrun.
    unfold mem_write, lift_uc, uc_mem_write. rewrite Hmap by lia. eauto. }
  exists a, s'. split; [done|]. split; [by eapply loadBytes_reads_back|]. split.
  - intros r Hr. specialize (Habove r Hr). unfold PAGESIZE in Habove. lia.
  - intros x Hx. rewrite Hb, store_bytes_outside by lia. apply Hkept. lia.
Qed.

Lemma nth_repeat_lt (v : Z) k i : (i < k)%nat -> nth i (repeat v k) 0 = v.
Proof. intros Hi. rewrite (nth_indep _ 0 v) by (by rewrite repeat_length). apply nth_repeat. Qed.

(** The tail memset and bzero share. *)
Lemma fill_spec (d n v : Z) s :
  let m := do '(dstRegion, dst) <-
              match getEmuMemRegion d (uc s) with
              | None => do r <- alloc_dstRegion idb n; mret (r, r.1)
              | Some r => mret (r, d)
              end;
           run (if n <=? dstRegion.2 - dst
                then mem_write dst (repeat v (Z.to_nat n))
                else mret tt);
           reg_write_ret dst in
  (m s).1 = Ok tt ->
  returned_destination d s (m s).2 /\
  match getEmuMemRegion d (uc s) with
  | Some r =>
      if n <=? r.2 - d
      then forall i, 0 <= i < n -> mem_bytes (uc (m s).2) (d + i) = v
      else memory_unchanged s (m s).2
  | None => forall i, 0 <= i < n -> mem_bytes (uc (m s).2) (reg_ret (uc (m s).2) + i) = v
  end.
Proof.
  cbv zeta. rewrite dst_select. unfold returned_destination.
  assert (forall b s1 s2 i, mem_write b (repeat v (Z.to_nat n)) s1 = (Ok tt, s2) ->
            0 <= i < n -> mem_bytes (uc (reg_write_ret b s2).2) (b + i) = v) as Hfill.
  { intros b s1 s2 i Hw Hi. apply mem_write_ok in Hw as (_ & _ & Hb & _).
    change (mem_bytes (uc s2) (b + i) = v). rewrite Hb, store_bytes_spec, repeat_length.
    destruct (Z.leb_spec b (b + i)), (Z.ltb_spec (b + i) (b + Z.of_nat (Z.to_nat n))); try lia.
    cbn [andb]. apply nth_repeat_lt. lia. }
  destruct (getEmuMemRegion d (uc s)) as [r|].
  - unfold mbind. destruct (Z.leb_spec n (r.2 - d)).
    + destruct (mem_write d _ s) as [[[]|] s1] eqn:Ew; [|done].
      intros _. split; [done|]. intros i Hi. by eapply Hfill.
    + intros _. split; [done|]. apply unchanged_ret.
  - pose proof (alloc_dstRegion_spec idb n s) as Hspec.
    destruct (alloc_dstRegion idb n s) as [[r|] s1]; [|done].
    destruct Hspec as (b & -> & Hn & _ & _ & _ & _ & Habove & _). cbn [fst snd].
    destruct (Z.leb_spec n (b + pageAlignUp n - b)); [|lia].
    unfold mbind. destruct (mem_write b _ s1) as [[[]|] s2] eqn:Ew; [|done].
    intros _. split.
    + intros r Hr. specialize (Habove r Hr). unfold PAGESIZE in Habove. simpl. lia.
    + intros i Hi. by eapply Hfill.
Qed.


(** bzero behaves as memset with a zero byte. *)
Lemma bzeroHook_fills argv userData s d n0 :
  argv !! 0%nat = Some d -> argv !! 1%nat = Some n0 ->
  (_bzeroHook idb argv userData s).1 = Ok tt ->
  let s' := (_bzeroHook idb argv userData s).2 in
  let n := Z.min n0 MAX_ALLOC_SIZE in
  returned_destination d s s' /\
  match getEmuMemRegion d (uc s) with
  | Some r =>
      if n <=? r.2 - d
      then forall i, 0 <= i < n -> mem_bytes (uc s') (d + i) = 0
      else memory_unchanged s s'
  | None => forall i, 0 <= i < n -> mem_bytes (uc s') (reg_ret (uc s') + i) = 0
  end.
Proof.
  intros Hd Hn. unfold _bzeroHook, arg. rewrite Hd, Hn. cbn [key].
  rewrite mbind_mret.
  destruct (checkMemSize_cases n0 userData s) as [Hm|Hm];
    [rewrite (mbind_ok _ _ _ _ _ Hm) | by rewrite (mbind_exc _ _ _ _ Hm)].
  rewrite !mbind_mret, mbind_get_uc.
  apply (fill_spec d (Z.min n0 MAX_ALLOC_SIZE) 0 s).
Qed.


End RoundTrips.

(** ** Witnesses for the copy shims *)




Lemma copyEmuMem_spec_witness :
  exists s', copyEmuMem 0x500000 0x501800 16 ud_at_call s_adjacent = (Ok tt, s') /\
             mem_bytes (uc s') 0x500000 = 0x41.
Proof.
  pose proof (copyEmuMem_spec 0x500000 0x501800 16 ud_at_call s_adjacent
                ltac:(lia) ltac:(discriminate)) as H.
  cbv zeta in H.
  assert (range_mapped (uc s_adjacent) 0x501800 (Z.min 16 MAX_ALLOC_SIZE)
          && range_mapped (uc s_adjacent) 0x500000 (Z.min 16 MAX_ALLOC_SIZE) = true) as E
    by reflexivity.
  rewrite E in H. destruct H as (s' & Hrun & _ & _ & Hb & _).
  exists s'. split; [exact Hrun|]. apply (Hb 0). vm_compute. split; [discriminate|reflexivity].
Defined.

Lemma loadBytes_round_trip_witness :
  exists mem s', loadBytes idb0 [1; 2; 3] None s_image = (Ok mem, s') /\
    uc_mem_read mem 3 (uc s') = Some [1; 2; 3].
Proof.
  destruct (loadBytes_round_trip idb0 [1; 2; 3] s_image) as (mem & s' & H1 & H2 & _).
  - apply s_image_wf.
  - discriminate.
  - apply Z.leb_le. reflexivity.
  - exists mem, s'. split; [exact H1 | exact H2].
Defined.




(** ** Page arithmetic, in full *)

(** [pageAlignUp v] is the least multiple of the page size that is not
    below [v], for negative [v] too. *)
Theorem pageAlignUp_least v :
  page_aligned (pageAlignUp v) /\ v <= pageAlignUp v /\
  forall w, page_aligned w -> v <= w -> pageAlignUp v <= w.
Proof.
  split; [apply pageAlignUp_aligned|]. split; [apply pageAlignUp_bounds|].
  intros w Hw Hle. pose proof (pageAlignUp_bounds v) as [_ Hlt].
  pose proof (pageAlignUp_aligned v) as Ha.
  apply aligned_multiple in Hw as [k Hk]. apply aligned_multiple in Ha as [k' Hk'].
  unfold PAGESIZE in *. lia.
Qed.

(** [pageAlign] keeps bits 12 to 63 of the address: inside the 64-bit range
    it rounds down to the page that holds the address; bits above bit 63 are
    dropped, so that a larger address lands on the page of its low 64
    bits. *)
Theorem pageAlign_rounds_down addr :
  page_aligned (pageAlign addr) /\ 0 <= pageAlign addr < 2 ^ 64 /\
  pageAlign addr = pageAlign (addr mod 2 ^ 64) /\
  pageAlign addr <= addr mod 2 ^ 64 < pageAlign addr + PAGESIZE.
Proof.
  pose proof (Z.mod_pos_bound addr (2 ^ 64) eq_refl) as Hm.
  split; [apply pageAlign_aligned|].
  assert (pageAlign addr = pageAlign (addr mod 2 ^ 64)) as Heq.
  { rewrite !pageAlign_unfold. by rewrite Z.mod_mod. }
  rewrite Heq, (pageAlign_in_range (addr mod 2 ^ 64)) by done.
  pose proof (Z.mod_pos_bound (addr mod 2 ^ 64) PAGESIZE eq_refl).
  pose proof (Z.mod_le (addr mod 2 ^ 64) PAGESIZE). unfold PAGESIZE in *.
  split; [lia|]. split; [done|]. lia.
Qed.

Section MemoryManagerMore.
Context (idb : Idb).

Lemma fold_highest_attained {A} (f : A -> Z) (l : list A) (h0 : Z) :
  let h := fold_left (fun h x => if f x >? h then f x else h) l h0 in
  h = h0 \/ exists x, x ∈ l /\ h = f x.
Proof.
  revert h0. induction l as [|x l IH]; simpl; intros h0; [by left|].
  destruct (IH (if f x >? h0 then f x else h0)) as [-> | (y & Hy & ->)].
  - destruct (f x >? h0); [right; exists x; split; [left|done] | by left].
  - right. exists y. split; [by right|done].
Qed.

(** The base [_findUnusedMemRegion] picks is a page boundary at least one
    page above [0x10000], above the last byte of every mapping and above the
    end of every segment of the database, and less than two pages above the
    highest of these. *)
Theorem findUnused_guard_page u :
  let b := _findUnusedMemRegion idb u in
  page_aligned b /\ 0x10000 + PAGESIZE <= b /\
  (forall r, r ∈ mem_regions u -> r.2 + PAGESIZE <= b) /\
  (forall segVA, segVA ∈ Segments idb -> get_segm_end idb segVA + PAGESIZE <= b) /\
  (b < 0x10000 + 2 * PAGESIZE \/
   (exists r, r ∈ mem_regions u /\ b < r.2 + 2 * PAGESIZE) \/
   (exists segVA, segVA ∈ Segments idb /\ b < get_segm_end idb segVA + 2 * PAGESIZE)).
Proof.
  unfold _findUnusedMemRegion. cbv zeta.
  set (h1 := fold_left _ (mem_regions u) _).
  set (h2 := fold_left _ (Segments idb) h1).
  destruct (fold_highest (fun r : Z * Z => r.2) (mem_regions u) 0x10000) as [A1 A2].
  destruct (fold_highest (get_segm_end idb) (Segments idb) h1) as [B1 B2].
  pose proof (fold_highest_attained (fun r : Z * Z => r.2) (mem_regions u) 0x10000) as A3.
  pose proof (fold_highest_attained (get_segm_end idb) (Segments idb) h1) as B3.
  cbv zeta in A3, B3. fold h1 in A1, A2, A3, B3. fold h2 in B1, B2, B3.
  pose proof (pageAlignUp_bounds (h2 + PAGESIZE)) as Hb.
  split; [apply pageAlignUp_aligned|]. split; [lia|]. split; [|split].
  - intros r Hr. specialize (A2 r Hr). simpl in A2. lia.
  - intros seg Hseg. specialize (B2 seg Hseg). lia.
  - destruct B3 as [B3 | (seg & Hseg & B3)].
    + destruct A3 as [A3 | (r & Hr & A3)].
      * left. lia.
      * right. left. exists r. split; [done|]. lia.
    + right. right. exists seg. split; [done|]. lia.
Qed.

(** On a table of proper regions, the scan of [allocEmuMem] accepts a
    preferred block exactly when the block shares no byte with any mapping
    and does not end right where a mapping begins: a free block that touches
    the mapping above it is turned down as well. *)
Theorem isValid_loop_iff rs base asz :
  Forall region_ok rs -> page_aligned base -> page_aligned asz -> 0 < asz ->
  (isValid_loop rs base asz = true <->
   forall r, r ∈ rs -> ~ overlaps base asz r /\ base + asz <> r.1).
Proof.
  intros Hok Hb Ha Hpos. induction Hok as [|r0 rs Hr0 Hrs IH]; simpl.
  - split; [|done]. intros _ r Hr. by apply elem_of_nil in Hr.
  - destruct Hr0 as (Hs & He & Hne).
    apply aligned_multiple in Hb as [kb Hkb]. apply aligned_multiple in Ha as [ka Hka].
    apply aligned_multiple in He as [ke Hke]. apply aligned_multiple in Hs as [ks Hks].
    split.
    + intros Hv. destruct (_ || _) eqn:E1 in Hv; [done|].
      destruct (_ && _) eqn:E2 in Hv; [done|].
      apply orb_false_iff in E1 as [E1 E1']. apply andb_false_iff in E1, E1', E2.
      rewrite Z.geb_leb, Z.leb_gt, Z.ltb_ge in E1, E1'.
      rewrite Z.gtb_ltb, !Z.ltb_ge in E2.
      intros r Hr. apply elem_of_cons in Hr as [-> | Hr]; [|by apply IH].
      unfold PAGESIZE in *. split; [intros (a & H1 & H2)|]; lia.
    + intros Hall. destruct (Hall r0 ltac:(left)) as [Hno Hadj].
      assert (base + asz <= r0.1 \/ r0.2 < base) as Hside.
      { destruct (Z.le_gt_cases (base + asz) r0.1) as [|H1]; [by left|].
        destruct (Z.lt_ge_cases r0.2 base) as [|H2]; [by right|].
        exfalso. apply Hno. exists (Z.max base r0.1). lia. }
      assert (((base >=? r0.1) && (base <? r0.2)
               || (base + asz >=? r0.1) && (base + asz <? r0.2)) = false) as ->.
      { apply orb_false_iff. rewrite !andb_false_iff, !Z.geb_leb, !Z.leb_gt, !Z.ltb_ge.
        unfold PAGESIZE in *. lia. }
      assert ((base <? r0.1) && (base + asz >? r0.2) = false) as ->.
      { rewrite andb_false_iff, Z.gtb_ltb, !Z.ltb_ge. unfold PAGESIZE in *. lia. }
      apply IH. intros r Hr. apply Hall. by right.
Qed.

End MemoryManagerMore.

Lemma isValid_loop_iff_witness :
  isValid_loop [(0x400000, 0x400fff)] 0x402000 0x1000 = true /\
  isValid_loop [(0x400000, 0x400fff)] 0x3ff000 0x1000 = false.
Proof.
  split.
  - apply (isValid_loop_iff [(0x400000, 0x400fff)] 0x402000 0x1000);
      [apply s_image_wf | reflexivity | reflexivity | reflexivity |].
    intros r Hr. apply list_elem_of_singleton in Hr as ->.
    split; [intros (a & H1 & H2); cbn [fst snd] in *; lia | cbn [fst snd]; lia].
  - reflexivity.
Defined.

(** ** Pointers the helper calls valid *)

Lemma disjoint_unique rs : forall r r' p,
  pairwise_disjoint rs -> r ∈ rs -> r' ∈ rs ->
  r.1 <= p <= r.2 -> r'.1 <= p <= r'.2 -> r = r'.
Proof.
  induction rs as [|r0 rs IH]; intros r r' p Hdis Hr Hr' Hp Hp'.
  - by apply elem_of_nil in Hr.
  - destruct Hdis as [Hhead Hrest]. rewrite Forall_forall in Hhead.
    apply elem_of_cons in Hr as [-> | Hr]; apply elem_of_cons in Hr' as [-> | Hr'].
    + done.
    + exfalso. apply (Hhead r' Hr'). exists p. lia.
    + exfalso. apply (Hhead r Hr). exists p. lia.
    + by apply (IH r r' p).
Qed.

(** Every byte of a region is mapped, and for every byte but the last
    [isValidEmuPtr] answers True and [getEmuMemRegion] returns the region
    with its end made exclusive.  The last byte of a region is mapped as
    well, yet [isValidEmuPtr] answers False for it and [getEmuMemRegion]
    finds no region: both compare with [<] against an end that is already
    the address of the last byte. *)
Theorem region_last_byte_not_valid u r p :
  uc_wf u -> r ∈ mem_regions u -> r.1 <= p <= r.2 ->
  range_mapped u p 1 = true /\
  isValidEmuPtr p u = negb (p =? r.2) /\
  getEmuMemRegion p u = if p =? r.2 then None else Some (r.1, r.2 + 1).
Proof.
  intros [_ Hdis] Hr Hp.
  set (f := fun region : Z * Z => (p >=? region.1) && (p <? region.2)).
  assert (forall r', r' ∈ mem_regions u -> f r' = true -> r' = r /\ p < r.2) as Huniq.
  { intros r' Hr' Hf. unfold f in Hf. apply andb_true_iff in Hf as [H1 H2].
    rewrite Z.geb_leb, Z.leb_le in H1. apply Z.ltb_lt in H2.
    assert (r' = r) as -> by (apply (disjoint_unique _ r' r p Hdis); auto; lia). done. }
  split; [|split].
  - apply range_mapped_iff. intros x Hx. assert (x = p) as -> by lia.
    apply existsb_exists. exists r. split; [by apply list_elem_of_In|].
    unfold in_region. apply andb_true_iff. rewrite !Z.leb_le. lia.
  - unfold isValidEmuPtr. fold f. destruct (Z.eqb_spec p r.2) as [Heq | Hne]; simpl.
    + apply not_true_is_false. intros He. apply existsb_exists in He as (r' & Hin & Hf).
      apply list_elem_of_In in Hin. destruct (Huniq r' Hin Hf). lia.
    + apply existsb_exists. exists r. split; [by apply list_elem_of_In|].
      unfold f. apply andb_true_iff. rewrite Z.geb_leb, Z.leb_le, Z.ltb_lt. lia.
  - unfold getEmuMemRegion. fold f. destruct (find f (mem_regions u)) as [r'|] eqn:E.
    + apply find_some in E as [Hin Hf]. apply list_elem_of_In in Hin.
      destruct (Huniq r' Hin Hf) as [-> Hlt].
      destruct (Z.eqb_spec p r.2); [lia|done].
    + destruct (Z.eqb_spec p r.2) as [|Hne]; [done|]. exfalso.
      assert (f r = true) as Hf.
      { unfold f. apply andb_true_iff. rewrite Z.geb_leb, Z.leb_le, Z.ltb_lt. lia. }
      apply list_elem_of_In in Hr. by rewrite (find_none _ _ E r Hr) in Hf.
Qed.

Lemma region_last_byte_not_valid_witness :
  range_mapped (uc s_image) 0x400fff 1 = true /\
  isValidEmuPtr 0x400fff (uc s_image) = false /\
  getEmuMemRegion 0x400fff (uc s_image) = None.
Proof.
  apply (region_last_byte_not_valid (uc s_image) (0x400000, 0x400fff) 0x400fff).
  - apply s_image_wf.
  - left.
  - simpl. lia.
Defined.

(** ** realloc and VirtualAlloc *)

Section ReallocVirtualAlloc.
Context (idb : Idb).


(** Once VirtualAlloc has returned normally for an address, another call for
    the same address, whatever size it asks for, changes nothing: no block
    is mapped and the return register already holds the address it
    answers. *)
Theorem virtualAllocHook_remembers argv argv' userData userData' s a :
  argv !! 0%nat = Some a -> argv' !! 0%nat = Some a ->
  (_virtualAllocHook idb argv userData s).1 = Ok tt ->
  let s1 := (_virtualAllocHook idb argv userData s).2 in
  (exists size, allocMap s1 !! a = Some (reg_ret (uc s1), size)) /\
  _virtualAllocHook idb argv' userData' s1 = (Ok tt, s1).
Proof.
  intros Ha Ha'. unfold _virtualAllocHook, virtualAlloc_body, arg. rewrite Ha, Ha'. cbn [key].
  rewrite !mbind_mret, !mbind_get_self.
  destruct (allocMap s !! a) as [[m sz]|] eqn:Emap.
  - intros _. cbn [reg_write_ret snd allocMap uc reg_ret fst]. rewrite Emap.
    split; [by exists sz|]. by destruct s as [[] ? ? ?].
  - destruct (argv !! 1%nat) as [n0|]; [|done]. cbn [key]. rewrite mbind_mret.
    destruct (checkMemSize_cases n0 userData s) as [Hm|Hm];
      [rewrite (mbind_ok _ _ _ _ _ Hm) | by rewrite (mbind_exc _ _ _ _ Hm)].
    unfold mbind.
    destruct (allocEmuMem idb (Z.min n0 MAX_ALLOC_SIZE) (Some a) s) as [[m|] s0]; [|done].
    intros _. cbn [set_allocMap reg_write_ret snd allocMap uc reg_ret fst].
    rewrite lookup_insert_eq. split; [by eexists|]. done.
Qed.

End ReallocVirtualAlloc.


Lemma virtualAllocHook_remembers_witness :
  let s1 := (_virtualAllocHook idb0 [0x600000; 0x2000] ud_at_call s_image).2 in
  _virtualAllocHook idb0 [0x600000; 0x100000] ud_at_call s1 = (Ok tt, s1).
Proof.
  exact (proj2 (virtualAllocHook_remembers idb0 [0x600000; 0x2000] [0x600000; 0x100000]
                  ud_at_call ud_at_call s_image 0x600000 eq_refl eq_refl eq_refl)).
Defined.


Lemma s_adjacent_wf : uc_wf (uc s_adjacent).
Proof.
  split.
  - repeat constructor; reflexivity || (cbn [fst snd]; lia).
  - simpl. repeat split; repeat constructor; intros (a & H1 & H2); simpl in *; lia.
Defined.

(** ** Pointers written and read back *)

Lemma pack_le_S n v :
  pack_le (S n) v = Z.land v 0xff :: pack_le n (Z.shiftr v 8).
Proof.
  unfold pack_le. cbn [seq map]. f_equal.
  rewrite <- seq_shift, map_map. apply map_ext. intros i.
  rewrite Z.shiftr_shiftr by lia. do 2 f_equal. lia.
Qed.

Lemma pack_le_length n v : length (pack_le n v) = n.
Proof. unfold pack_le. by rewrite length_map, length_seq. Qed.

Lemma unpack_pack_le n : forall v, 0 <= v -> unpack_le (pack_le n v) = v mod 2 ^ (8 * Z.of_nat n).
Proof.
  induction n as [|n IH]; intros v Hv.
  - simpl. by rewrite Z.mod_1_r.
  - rewrite pack_le_S. cbn [unpack_le fold_right]. fold (unpack_le (pack_le n (Z.shiftr v 8))).
    rewrite IH by (apply Z.shiftr_nonneg; lia).
    change 0xff with (Z.ones 8). rewrite Z.land_ones, Z.shiftr_div_pow2 by lia.
    replace (8 * Z.of_nat (S n)) with (8 + 8 * Z.of_nat n) by lia.
    rewrite Z.pow_add_r by lia. change (2 ^ 8) with 256.
    rewrite Z.rem_mul_r by (try apply Z.pow_pos_nonneg; lia). done.
Qed.

(** A pointer written by [writeEmuPtr] is the pointer [getEmuPtr] reads
    back at the same address; a value that does not fit the pointer size is
    refused with an exception and nothing is written. *)
Theorem writeEmuPtr_getEmuPtr va value s :
  0 <= size_pointer s ->
  match writeEmuPtr va value s with
  | (Ok _, s') =>
      0 <= value < 2 ^ (8 * size_pointer s) /\
      getEmuPtr va s' = (Ok value, s') /\
      mem_regions (uc s') = mem_regions (uc s) /\
      bytes_kept_outside va (va + size_pointer s) s s'
  | (Exc, s') =>
      s' = s /\
      (value < 0 \/ 2 ^ (8 * size_pointer s) <= value \/
       range_mapped (uc s) va (size_pointer s) = false)
  end.
Proof.
  intros Hsz. unfold writeEmuPtr, struct_pack. rewrite mbind_get_self.
  destruct (Z.leb_spec 0 value); [|split; [done|by left]].
  destruct (Z.ltb_spec value (2 ^ (8 * size_pointer s))); [|split; [done|right; by left]].
  cbn [andb key]. rewrite mbind_mret.
  set (data := pack_le (Z.to_nat (size_pointer s)) value).
  assert (Z.of_nat (length data) = size_pointer s) as Hlen
    by (unfold data; rewrite pack_le_length; lia).
  destruct (mem_write va data s) as [[[]|] s'] eqn:Ew.
  - pose proof (mem_write_bytes va data s) as Hkept. rewrite Ew, Hlen in Hkept.
    apply mem_write_ok in Ew as (Hm & Hr & Hb & _ & Hsp).
    split; [done|]. split; [|done].
    unfold getEmuPtr. rewrite mbind_get_self. unfold mbind, mem_read, uc_mem_read.
    rewrite Hsp, (range_mapped_regions _ _ _ _ Hr), <- Hlen, Hm, Hb, Nat2Z.id, read_back.
    unfold mret, data. rewrite unpack_pack_le by done.
    rewrite Z2Nat.id, Z.mod_small by lia. done.
  - unfold mem_write, lift_uc, uc_mem_write in Ew. rewrite Hlen in Ew.
    destruct (range_mapped (uc s) va (size_pointer s)); [done|].
    injection Ew as <-. split; [done|]. right. by right.
Qed.

(** ** Unmapping everything *)

Lemma cut_self r : r.1 <= r.2 -> cut r.1 (r.2 - r.1 + 1) r = [].
Proof.
  intros Hr. unfold cut.
  destruct (Z.ltb_spec r.1 r.1); [lia|].
  destruct (Z.ltb_spec (r.1 + (r.2 - r.1 + 1) - 1) r.2); [lia|]. done.
Qed.

Lemma cut_other r r' :
  r.1 <= r.2 -> r'.1 <= r'.2 -> ~ overlaps r.1 (r.2 - r.1 + 1) r' ->
  cut r.1 (r.2 - r.1 + 1) r' = [r'].
Proof.
  intros Hr Hr' Hno. unfold cut.
  assert (r'.2 < r.1 \/ r.2 < r'.1) as [Hbelow | Habove].
  { destruct (Z.lt_ge_cases r'.2 r.1) as [|H1]; [by left|].
    destruct (Z.lt_ge_cases r.2 r'.1) as [|H2]; [by right|].
    exfalso. apply Hno. exists (Z.max r.1 r'.1). lia. }
  - destruct (Z.ltb_spec r'.1 r.1); [|lia].
    destruct (Z.ltb_spec (r.1 + (r.2 - r.1 + 1) - 1) r'.2); [lia|].
    rewrite Z.min_l by lia. by destruct r'.
  - destruct (Z.ltb_spec r'.1 r.1); [lia|].
    destruct (Z.ltb_spec (r.1 + (r.2 - r.1 + 1) - 1) r'.2); [|lia].
    rewrite Z.max_l by lia. by destruct r'.
Qed.

Lemma unmap_head u r rest :
  mem_regions u = r :: rest -> uc_wf u ->
  exists u', uc_mem_unmap r.1 (r.2 - r.1 + 1) u = Some u' /\
    mem_regions u' = rest /\ mem_bytes u' = mem_bytes u /\ reg_ret u' = reg_ret u /\ uc_wf u'.
Proof.
  intros Hrs [Hok Hdis]. rewrite Hrs in Hok, Hdis.
  inversion Hok as [|? ? Hr Hrest]; subst. destruct Hdis as [Hhead Htail].
  destruct Hr as (Hs & He & Hne). unfold uc_mem_unmap.
  destruct (Z.eqb_spec (r.2 - r.1 + 1) 0); [lia|].
  assert (range_mapped u r.1 (r.2 - r.1 + 1) = true) as ->.
  { apply range_mapped_iff. intros x Hx. rewrite Hrs. simpl. apply orb_true_iff. left.
    unfold in_region. apply andb_true_iff. rewrite !Z.leb_le. lia. }
  assert ((r.2 - r.1 + 1) mod PAGESIZE = 0) as Hsz.
  { apply aligned_multiple in Hs as [k Hk]. apply aligned_multiple in He as [k' Hk'].
    apply aligned_multiple. exists (k' - k). lia. }
  unfold page_aligned in Hs. rewrite Hs, Hsz.
  destruct (Z.ltb_spec 0 (r.2 - r.1 + 1)); [|lia]. cbn [andb Z.eqb].
  eexists. split; [done|]. cbn [mem_regions mem_bytes reg_ret].
  assert (flat_map (cut r.1 (r.2 - r.1 + 1)) (mem_regions u) = rest) as Hcut.
  { rewrite Hrs. cbn [flat_map]. rewrite cut_self by lia. cbn [app].
    clear Hrs Htail. induction rest as [|r' rest IH]; [done|].
    inversion Hrest as [|? ? Hr' Hrest']; subst.
    inversion Hhead as [|? ? Hno Hhead']; subst.
    cbn [flat_map]. rewrite cut_other; [|lia|destruct Hr' as (_ & _ & ?); lia|done].
    cbn [app]. f_equal. apply IH; [|done|done].
    by inversion Hok; subst; constructor; [|inversion H2]. }
  split; [done|]. split; [done|]. split; [done|].
  unfold uc_wf. cbn [mem_regions]. rewrite Hcut. done.
Qed.

Lemma unmap_all : forall rest s,
  mem_regions (uc s) = rest -> uc_wf (uc s) ->
  exists s', for_each (fun region : Z * Z => mem_unmap region.1 (region.2 - region.1 + 1)) rest s
             = (Ok tt, s') /\
    mem_regions (uc s') = [] /\ mem_bytes (uc s') = mem_bytes (uc s) /\
    reg_ret (uc s') = reg_ret (uc s) /\
    allocMap s' = allocMap s /\ size_pointer s' = size_pointer s /\ pageMask s' = pageMask s.
Proof.
  induction rest as [|r rest IH]; intros s Hrs Hwf.
  - exists s. by rewrite Hrs.
  - destruct (unmap_head (uc s) r rest Hrs Hwf) as (u' & Hun & Hr' & Hb' & Hret' & Hwf').
    cbn [for_each]. unfold mbind at 1. unfold mem_unmap at 1, lift_uc. rewrite Hun.
    destruct (IH (mkEmu u' (allocMap s) (size_pointer s) (pageMask s)) Hr' Hwf')
      as (s' & Hrun & H1 & H2 & H3 & H4 & H5 & H6).
    exists s'. rewrite Hrun. cbn [uc allocMap size_pointer pageMask] in *.
    repeat split; congruence.
Qed.

Section Reset.
Context (idb : Idb).

(** On the tables the engine can hold, [resetEmulatorMemory] returns
    normally and leaves nothing mapped.  It leaves [allocMap] as it was, so
    that a VirtualAlloc of an address remembered there answers, after the
    reset, with the remembered pointer and maps nothing: the pointer it
    returns is unmapped. *)
Theorem resetEmulatorMemory_clears s :
  uc_wf (uc s) ->
  exists s', resetEmulatorMemory s = (Ok tt, s') /\
    mem_regions (uc s') = [] /\ allocMap s' = allocMap s /\
    forall argv userData a entry, argv !! 0%nat = Some a -> allocMap s !! a = Some entry ->
      let s'' := (_virtualAllocHook idb argv userData s').2 in
      reg_ret (uc s'') = entry.1 /\ mem_regions (uc s'') = [] /\
      isValidEmuPtr entry.1 (uc s'') = false.
Proof.
  intros Hwf. unfold resetEmulatorMemory. rewrite mbind_get_uc.
  destruct (unmap_all (mem_regions (uc s)) s eq_refl Hwf) as (s' & Hrun & Hr & _ & _ & Hmap & _).
  exists s'. split; [done|]. split; [done|]. split; [done|].
  intros argv userData a entry Ha Hentry.
  unfold _virtualAllocHook, virtualAlloc_body, arg. rewrite Ha. cbn [key].
  rewrite mbind_mret, mbind_get_self, Hmap, Hentry.
  cbn [reg_write_ret snd uc reg_ret mem_regions]. split; [done|]. split; [done|].
  unfold isValidEmuPtr. cbn [mem_regions]. by rewrite Hr.
Qed.

End Reset.

Lemma resetEmulatorMemory_clears_witness :
  exists s', resetEmulatorMemory s_adjacent = (Ok tt, s') /\ mem_regions (uc s') = [].
Proof.
  destruct (resetEmulatorMemory_clears idb0 s_adjacent s_adjacent_wf) as (s' & H1 & H2 & _).
  exists s'. split; [exact H1 | exact H2].
Defined.

Lemma writeEmuPtr_getEmuPtr_witness :
  exists s', writeEmuPtr 0x500008 0x1122334455667788 s_adjacent = (Ok tt, s') /\
             getEmuPtr 0x500008 s' = (Ok 0x1122334455667788, s').
Proof.
  pose proof (writeEmuPtr_getEmuPtr 0x500008 0x1122334455667788 s_adjacent ltac:(simpl; lia))
    as H.
  destruct (writeEmuPtr 0x500008 0x1122334455667788 s_adjacent) as [[[]|] s'] eqn:E.
  - exists s'. split; [reflexivity|]. exact (proj1 (proj2 H)).
  - exfalso. destruct H as [_ [H | [H | H]]].
    + lia.
    + revert H. apply Z.lt_nge. reflexivity.
    + discriminate H.
Defined.

(** ** Loading the binary *)

Lemma mem_write_succeeds a data s :
  range_mapped (uc s) a (Z.of_nat (length data)) = true ->
  exists s', mem_write a data s = (Ok tt, s') /\
    mem_regions (uc s') = mem_regions (uc s) /\
    mem_bytes (uc s') = store_bytes a data (mem_bytes (uc s)).
Proof.
  intros Hm. unfold mem_write, lift_uc, uc_mem_write. rewrite Hm. eauto.
Qed.

Section LoaderProperties.
Context (img : Image).

Lemma getSegSize_loop_spec segEnd : forall fuel ea size,
  (Z.to_nat (segEnd - ea) < fuel)%nat ->
  exists n, getSegSize_loop img fuel ea segEnd size = Some (size + n) /\
    0 <= n <= Z.max 0 (segEnd - ea) /\
    (forall a, ea <= a < ea + n -> has_value img a = true) /\
    (n = Z.max 0 (segEnd - ea) \/ has_value img (ea + n) = false).
Proof.
  induction fuel as [|fuel IH]; intros ea size Hf; [lia|]. cbn [getSegSize_loop].
  destruct (has_value img ea) eqn:Hv.
  - destruct (Z.geb_spec ea segEnd).
    + exists 0. rewrite Z.add_0_r. split; [done|]. split; [lia|]. split; [intros; lia|]. left. lia.
    + destruct (IH (ea + 1) (size + 1)) as (n & Hrun & Hn & Hall & Hend); [lia|].
      exists (n + 1). rewrite Hrun. split; [f_equal; lia|]. split; [lia|]. split.
      * intros a Ha. destruct (Z.eq_dec a ea) as [-> | Hne]; [done|]. apply Hall. lia.
      * destruct Hend as [-> | Hend]; [left; lia|]. right. rewrite <- Hend. f_equal. lia.
  - exists 0. rewrite !Z.add_0_r. split; [done|]. split; [lia|]. split; [intros; lia|]. by right.
Qed.

Lemma getSegSize_counts ea segEnd :
  exists n, getSegSize img ea segEnd = Some n /\
    0 <= n <= Z.max 0 (segEnd - ea) /\
    (forall a, ea <= a < ea + n -> has_value img a = true) /\
    (n = Z.max 0 (segEnd - ea) \/ has_value img (ea + n) = false).
Proof.
  unfold getSegSize.
  destruct (getSegSize_loop_spec segEnd (S (Z.to_nat (segEnd - ea))) ea 0) as (n & H); [lia|].
  exists n. by rewrite Z.add_0_l in H.
Qed.

(** [getSegSize] always returns: the number of addresses from [ea] on that
    hold a value, counted up to the first address without one, and to
    [segEnd] at the latest. *)
Theorem getSegSize_spec ea segEnd :
  exists n, getSegSize img ea segEnd = Some n /\
    0 <= n <= Z.max 0 (segEnd - ea) /\
    (forall a, ea <= a < ea + n -> has_value img a = true) /\
    (n = Z.max 0 (segEnd - ea) \/ has_value img (ea + n) = false).
Proof. exact (getSegSize_counts ea segEnd). Qed.

(** What a loaded segment holds at [a]: the database value inside the
    leading run of addresses with a value, zero after it. *)
Definition segment_byte (segVA a : Z) : Z :=
  match getSegSize img segVA (get_segm_end (image_idb img) segVA) with
  | Some n => if a <? segVA + n then get_byte img a else 0
  | None => 0
  end.

Definition in_segment (segVA a : Z) : bool :=
  (segVA <=? a) && (a <? get_segm_end (image_idb img) segVA).

Lemma load_segment_spec segVA s r :
  r ∈ mem_regions (uc s) -> r.1 <= segVA -> get_segm_end (image_idb img) segVA <= r.2 + 1 ->
  exists s', load_segment img segVA s = (Ok tt, s') /\
    mem_regions (uc s') = mem_regions (uc s) /\
    forall a, mem_bytes (uc s') a
              = if in_segment segVA a then segment_byte segVA a else mem_bytes (uc s) a.
Proof.
  intros Hr Hlo Hhi. unfold load_segment, segment_byte, in_segment. cbv zeta.
  set (endVA := get_segm_end (image_idb img) segVA) in *.
  destruct (getSegSize_counts segVA endVA) as (n & -> & Hn & _). cbn [key]. rewrite mbind_mret.
  assert (exists s1, (if n >? 0
                      then mem_write segVA (map (get_byte img) (seqZ' segVA (Z.to_nat n)))
                      else mret tt) s = (Ok tt, s1) /\
            mem_regions (uc s1) = mem_regions (uc s) /\
            forall a, mem_bytes (uc s1) a
                      = if (segVA <=? a) && (a <? segVA + n) then get_byte img a
                        else mem_bytes (uc s) a) as (s1 & Hrun1 & Hr1 & Hb1).
  { destruct (Z.gtb_spec n 0).
    - set (data := map (get_byte img) (seqZ' segVA (Z.to_nat n))).
      assert (Z.of_nat (length data) = n) as Hlen.
      { unfold data, seqZ'. rewrite !length_map, length_seq. lia. }
      destruct (mem_write_succeeds segVA data s) as (s1 & Hrun & Hr1 & Hb1).
      { rewrite Hlen. apply (range_in_region _ r); [done|lia|lia]. }
      exists s1. split; [done|]. split; [done|]. intros a. rewrite Hb1, store_bytes_spec, Hlen.
      destruct ((segVA <=? a) && (a <? segVA + n)) eqn:E; [|done].
      apply andb_true_iff in E as [E1 E2]. apply Z.leb_le in E1. apply Z.ltb_lt in E2.
      unfold data. rewrite nth_map_seqZ' by lia. f_equal. lia.
    - exists s. split; [done|]. split; [done|]. intros a.
      destruct (Z.leb_spec segVA a), (Z.ltb_spec a (segVA + n)); try done. lia. }
  unfold mbind at 1. rewrite Hrun1.
  destruct (Z.gtb_spec (endVA - segVA - n) 0).
  - set (zeros := repeat 0 (Z.to_nat (endVA - segVA - n))).
    assert (Z.of_nat (length zeros) = endVA - segVA - n) as Hlen.
    { unfold zeros. rewrite repeat_length. lia. }
    destruct (mem_write_succeeds (segVA + n) zeros s1) as (s2 & Hrun & Hr2 & Hb2).
    { rewrite Hlen. apply (range_in_region _ r); [by rewrite Hr1|lia|lia]. }
    exists s2. split; [done|]. split; [congruence|]. intros a.
    rewrite Hb2, store_bytes_spec, Hlen, Hb1.
    destruct (Z.leb_spec segVA a), (Z.ltb_spec a endVA), (Z.ltb_spec a (segVA + n)),
      (Z.leb_spec (segVA + n) a), (Z.ltb_spec a (segVA + n + (endVA - segVA - n)));
      cbn [andb]; try lia; try done.
    unfold zeros. apply nth_repeat_lt. lia.
  - exists s1. split; [done|]. split; [done|]. intros a. rewrite Hb1.
    destruct (Z.leb_spec segVA a), (Z.ltb_spec a endVA), (Z.ltb_spec a (segVA + n));
      cbn [andb]; try lia; done.
Qed.

(** The memory the segment loop leaves: at each address the bytes of the
    last segment of the list that holds it, or what was there before. *)
Lemma load_segments_spec r : forall segs s,
  r ∈ mem_regions (uc s) ->
  (forall segVA, segVA ∈ segs ->
     r.1 <= segVA /\ get_segm_end (image_idb img) segVA <= r.2 + 1) ->
  exists s', for_each (load_segment img) segs s = (Ok tt, s') /\
    mem_regions (uc s') = mem_regions (uc s) /\
    forall a, mem_bytes (uc s') a
              = fold_left (fun v segVA => if in_segment segVA a then segment_byte segVA a else v)
                          segs (mem_bytes (uc s) a).
Proof.
  induction segs as [|seg segs IH]; intros s Hr Hin.
  - exists s. done.
  - destruct (Hin seg ltac:(left)) as [Hlo Hhi].
    destruct (load_segment_spec seg s r Hr Hlo Hhi) as (s1 & Hrun1 & Hr1 & Hb1).
    destruct (IH s1) as (s2 & Hrun2 & Hr2 & Hb2).
    { by rewrite Hr1. } { intros x Hx. apply Hin. by right. }
    exists s2. cbn [for_each]. unfold mbind. rewrite Hrun1. split; [done|].
    split; [congruence|]. intros a. rewrite Hb2. cbn [fold_left]. by rewrite Hb1.
Qed.

(** Segments that do not share an address. *)
Definition segments_apart (segs : list Z) : Prop :=
  forall x y a, x ∈ segs -> y ∈ segs -> in_segment x a = true -> in_segment y a = true -> x = y.

Lemma fold_segments_outside a : forall segs v,
  (forall segVA, segVA ∈ segs -> in_segment segVA a = false) ->
  fold_left (fun v segVA => if in_segment segVA a then segment_byte segVA a else v) segs v = v.
Proof.
  induction segs as [|seg segs IH]; intros v Hout; [done|].
  cbn [fold_left]. rewrite (Hout seg) by left. apply IH. intros x Hx. apply Hout. by right.
Qed.

Lemma fold_segments_inside a segVA : forall segs v,
  segVA ∈ segs -> in_segment segVA a = true ->
  (forall y, y ∈ segs -> in_segment y a = true -> y = segVA) ->
  fold_left (fun v segVA => if in_segment segVA a then segment_byte segVA a else v) segs v
  = segment_byte segVA a.
Proof.
  induction segs as [|seg segs IH]; intros v Hin Ha Huniq.
  - by apply elem_of_nil in Hin.
  - cbn [fold_left]. destruct (decide (segVA ∈ segs)) as [Hin' | Hnot].
    + apply IH; [done|done|]. intros y Hy. apply Huniq. by right.
    + apply elem_of_cons in Hin as [<- | Hin]; [|done]. rewrite Ha.
      apply fold_segments_outside. intros y Hy.
      destruct (in_segment y a) eqn:E; [|done].
      assert (y = segVA) as -> by (apply Huniq; [by right|done]). done.
Qed.

(** [reloadBinary], started on any table the engine can hold, with the
    64-bit page mask, a program range that begins on a page boundary,
    segments that lie inside the range and do not share an address, and room
    for the stack block below the top of the address space: it returns
    normally; exactly two regions are mapped afterwards, the image
    and above it the stack; every address of a segment holds the database
    value if it lies in the segment's leading run of addresses with a value
    and zero otherwise; the rest of the image and the whole stack block are
    zero; the stack pointer it records is [stackSize / 2] above the base of
    the stack block. *)
Theorem reloadBinary_loads stackSize s :
  uc_wf (uc s) ->
  pageMask s = 0xfffffffffffff000 ->
  0 <= MIN_EA img < 2 ^ 64 -> page_aligned (MIN_EA img) -> MIN_EA img < MAX_EA img ->
  (forall segVA, segVA ∈ Segments (image_idb img) ->
     MIN_EA img <= segVA /\ get_segm_end (image_idb img) segVA <= MAX_EA img) ->
  segments_apart (Segments (image_idb img)) ->
  0 < stackSize ->
  let memsize := pageAlignUp (MAX_EA img - MIN_EA img) in
  _findUnusedMemRegion (image_idb img)
    (uc (emu_of [(MIN_EA img, MIN_EA img + memsize - 1)] (fun _ => 0)))
  + pageAlignUp stackSize <= 2 ^ 64 ->
  exists stack s',
    reloadBinary img stackSize s = (Ok (MIN_EA img, stack), s') /\
    let base := stack - stackSize / 2 in
    mem_regions (uc s')
    = [(MIN_EA img, MIN_EA img + memsize - 1); (base, base + pageAlignUp stackSize - 1)] /\
    MIN_EA img + memsize + PAGESIZE <= base /\
    (forall segVA a, segVA ∈ Segments (image_idb img) -> in_segment segVA a = true ->
       mem_bytes (uc s') a = segment_byte segVA a) /\
    (forall a, MIN_EA img <= a < MIN_EA img + memsize ->
       (forall segVA, segVA ∈ Segments (image_idb img) -> in_segment segVA a = false) ->
       mem_bytes (uc s') a = 0) /\
    (forall a, base <= a < base + pageAlignUp stackSize -> mem_bytes (uc s') a = 0).
Proof.
  intros Hwf Hmask Hrange Hal Hlt Hsegs Hapart Hstack memsize Hfit.
  unfold reloadBinary. cbv zeta. fold memsize.
  assert (MIN_EA img + memsize <= 2 ^ 64) as Hfit0.
  { destruct (findUnused_above (image_idb img)
                (uc (emu_of [(MIN_EA img, MIN_EA img + memsize - 1)] (fun _ => 0))))
      as (_ & _ & Habove).
    specialize (Habove (MIN_EA img, MIN_EA img + memsize - 1) ltac:(left)).
    pose proof (pageAlignUp_bounds stackSize). unfold PAGESIZE in *. cbn [snd] in Habove. lia. }
  (* everything is unmapped *)
  destruct (unmap_all (mem_regions (uc s)) s eq_refl Hwf)
    as (s1 & Hrun1 & Hr1 & _ & _ & _ & _ & Hmask1).
  assert (resetEmulatorMemory s = (Ok tt, s1)) as Hreset
    by (unfold resetEmulatorMemory; by rewrite mbind_get_uc).
  rewrite (mbind_ok _ _ _ _ _ Hreset), mbind_get_self.
  (* the image is mapped *)
  assert (Z.land (MIN_EA img) (pageMask s1) = MIN_EA img) as ->.
  { rewrite Hmask1, Hmask. rewrite (land_pageMask _ 64 (MIN_EA img)); [|done|lia|done].
    unfold page_aligned in Hal. lia. }
  pose proof (pageAlignUp_bounds (MAX_EA img - MIN_EA img)) as Hms. fold memsize in Hms.
  assert (0 < memsize) as Hpos by lia.
  destruct (uc_mem_map_accepts (MIN_EA img) memsize (uc s1)) as [u2 Hmap];
    [done|lia|done|apply pageAlignUp_aligned| |by rewrite Hr1|done|].
  { intros r Hr. rewrite Hr1 in Hr. by apply elem_of_nil in Hr. }
  unfold mbind at 1. unfold mem_map at 1, lift_uc. rewrite Hmap.
  set (s2 := mkEmu u2 _ _ _).
  pose proof Hmap as Hspec. apply uc_mem_map_spec in Hspec as (Hr2 & _).
  rewrite Hr1 in Hr2. cbn [app] in Hr2.
  assert (forall a, MIN_EA img <= a < MIN_EA img + memsize -> mem_bytes u2 a = 0) as Hz2.
  { intros a Ha. unfold uc_mem_map in Hmap. destruct (_ && _) in Hmap; [|done].
    injection Hmap as <-. cbn [mem_bytes].
    destruct (Z.leb_spec (MIN_EA img) a), (Z.ltb_spec a (MIN_EA img + memsize)); try lia. done. }
  (* the segments are written *)
  destruct (load_segments_spec (MIN_EA img, MIN_EA img + memsize - 1)
              (Segments (image_idb img)) s2) as (s3 & Hrun3 & Hr3 & Hb3).
  { cbn [s2 uc]. rewrite Hr2. left. }
  { intros seg Hseg. destruct (Hsegs seg Hseg). cbn [fst snd]. lia. }
  unfold mbind at 1. rewrite Hrun3.
  cbn [s2 uc] in Hr3, Hb3. rewrite Hr2 in Hr3.
  (* the stack is built *)
  unfold _buildStack. cbv zeta.
  assert (Forall region_ok (mem_regions (uc s3))) as Hok3.
  { rewrite Hr3. constructor; [|constructor]. unfold region_ok. cbn [fst snd].
    split; [done|]. split; [|lia].
    replace (MIN_EA img + memsize - 1 + 1) with (MIN_EA img + memsize) by lia.
    apply aligned_multiple in Hal as [k Hk].
    pose proof (pageAlignUp_aligned (MAX_EA img - MIN_EA img)) as Ha.
    fold memsize in Ha. apply aligned_multiple in Ha as [k' Hk'].
    apply aligned_multiple. exists (k + k'). lia. }
  destruct (allocEmuMem_succeeds (image_idb img) stackSize None s3 Hok3 Hstack)
    as (b & u4 & Hrun4 & _).
  { apply plan_fits_None. erewrite findUnused_regions; [exact Hfit|]. by rewrite Hr3. }
  pose proof (allocEmuMem_fresh_block (image_idb img) stackSize s3) as Hfresh.
  rewrite Hrun4 in Hfresh. cbv zeta in Hfresh.
  destruct Hfresh as (Hb & _ & Hsz & Hr4 & Habove & Hz4 & Hkept4 & Hmap4 & _).
  set (s4 := mkEmu u4 _ _ _) in *.
  destruct (mem_write_succeeds b (repeat 0 (Z.to_nat stackSize)) s4) as (s5 & Hrun5 & Hr5 & Hb5).
  { rewrite repeat_length. apply Hmap4; lia. }
  exists (b + stackSize / 2), s5. unfold mbind. rewrite Hrun4. cbv beta iota.
  replace (b + stackSize / 2 - stackSize / 2) with b by lia. rewrite Hrun5. split; [done|].
  cbv zeta.
  pose proof (Habove (MIN_EA img, MIN_EA img + memsize - 1)) as Hab.
  rewrite Hr3 in Hab. specialize (Hab ltac:(left)). cbn [snd] in Hab.
  assert (MIN_EA img + memsize + PAGESIZE <= b) as Hgap.
  { destruct (findUnused_above (image_idb img) (uc s3)) as (Hbal & _). rewrite <- Hb in Hbal.
    apply aligned_multiple in Hbal as [kb Hkb]. apply aligned_multiple in Hal as [k Hk].
    pose proof (pageAlignUp_aligned (MAX_EA img - MIN_EA img)) as Ha.
    fold memsize in Ha. apply aligned_multiple in Ha as [k' Hk']. unfold PAGESIZE in *. lia. }
  assert (forall a, a < b -> mem_bytes (uc s5) a = mem_bytes (uc s3) a) as Hlow.
  { intros a Ha. rewrite Hb5, store_bytes_outside by lia. apply Hkept4. lia. }
  split; [by rewrite Hr5, Hr4, Hr3|]. split; [lia|]. split; [|split].
  - intros seg a Hseg Ha. rewrite Hlow, Hb3.
    + apply fold_segments_inside; [done|done|]. intros y Hy Hya. by apply (Hapart y seg a).
    + destruct (Hsegs seg Hseg). unfold in_segment in Ha.
      apply andb_true_iff in Ha as [_ Ha]. apply Z.ltb_lt in Ha. unfold PAGESIZE in *. lia.
  - intros a Ha Hout. rewrite Hlow by (unfold PAGESIZE in *; lia).
    rewrite Hb3, fold_segments_outside by done. by apply Hz2.
  - intros a Ha. rewrite Hb5, store_bytes_spec, repeat_length.
    destruct (Z.leb_spec b a), (Z.ltb_spec a (b + Z.of_nat (Z.to_nat stackSize)));
      cbn [andb]; try lia.
    + apply nth_repeat_lt. lia.
    + by apply Hz4.
Qed.

End LoaderProperties.

Lemma reloadBinary_loads_witness :
  exists stack s', reloadBinary img0 0x2000 s_adjacent = (Ok (0x400000, stack), s') /\
    mem_regions (uc s')
    = [(0x400000, 0x400fff); (stack - 0x1000, stack - 0x1000 + 0x2000 - 1)] /\
    mem_bytes (uc s') 0x400123 = 0x23 /\ mem_bytes (uc s') 0x400923 = 0.
Proof.
  destruct (reloadBinary_loads img0 0x2000 s_adjacent)
    as (stack & s' & Hrun & Hr & _ & Hseg & _).
  - apply s_adjacent_wf.
  - reflexivity.
  - simpl. lia.
  - reflexivity.
  - simpl. lia.
  - intros seg Hseg. apply list_elem_of_singleton in Hseg as ->. simpl. lia.
  - intros x y a Hx Hy _ _.
    apply list_elem_of_singleton in Hx as ->. apply list_elem_of_singleton in Hy as ->.
    reflexivity.
  - lia.
  - apply Z.leb_le. reflexivity.
  - exists stack, s'. split; [exact Hrun|]. split; [exact Hr|]. split.
    + apply (Hseg 0x400000 0x400123); [left | reflexivity].
    + apply (Hseg 0x400000 0x400923); [left | reflexivity].
Defined.
